(** * clox: the expression compiler, the value representation and the
      string objects

    A shallow embedding of [src/value.h], [src/compiler.c] and
    [src/object.c], followed by the properties of the specification that
    were checked against them.

    Conventions.
    - C integers are [Z]; the 32-bit wrap-around of [uint32_t] is written
      out where the code relies on it ([hashString]).
    - [double] is Rocq's primitive binary64 [float].
    - Global variables ([parser], [compilingChunk], [vm], the scanner, the
      diagnostic stream) are fields of an explicit state that every
      function takes and returns.
    - What the C implementation leaves open (the signedness of [char], the
      C library's [strtod]) is a parameter, the class [CImpl]. *)

From Stdlib Require Import ZArith List Lia Bool String Ascii Floats.
From Stdlib.Strings Require Import Byte.
From stdpp Require Import gmap list.

Local Open Scope Z_scope.

(** ** The C implementation *)

Class CImpl := {
  (** whether plain [char] is a signed type *)
  char_is_signed : bool;
  (** [strtod(s, NULL)] of the C library *)
  strtod : string -> float
}.

(** ** value.h *)

Inductive ValueType := VAL_BOOL | VAL_NIL | VAL_NUMBER.

(** The anonymous union [as]: the member that was stored last. *)
Inductive ValueAs :=
| as_boolean (b : bool)
| as_number (n : float).

Record Value := mkValue { val_type : ValueType; val_as : ValueAs }.

Definition BOOL_VAL (value : bool) : Value := mkValue VAL_BOOL (as_boolean value).
Definition NIL_VAL : Value := mkValue VAL_NIL (as_number 0%float).
Definition NUMBER_VAL (value : float) : Value := mkValue VAL_NUMBER (as_number value).

(** Reading a member of the union other than the one stored gives no
    meaningful value: [None]. *)
Definition AS_BOOL (value : Value) : option bool :=
  match val_as value with as_boolean b => Some b | as_number _ => None end.
Definition AS_NUMBER (value : Value) : option float :=
  match val_as value with as_number n => Some n | as_boolean _ => None end.

Definition ValueType_tag (t : ValueType) : Z :=
  match t with VAL_BOOL => 0 | VAL_NIL => 1 | VAL_NUMBER => 2 end.

Definition IS_BOOL (value : Value) : bool := ValueType_tag (val_type value) =? ValueType_tag VAL_BOOL.
Definition IS_NIL (value : Value) : bool := ValueType_tag (val_type value) =? ValueType_tag VAL_NIL.
Definition IS_NUMBER (value : Value) : bool := ValueType_tag (val_type value) =? ValueType_tag VAL_NUMBER.

(** The values the three constructor macros can build. *)
Inductive constructed : Value -> Prop :=
| constructed_bool b : constructed (BOOL_VAL b)
| constructed_nil : constructed NIL_VAL
| constructed_number n : constructed (NUMBER_VAL n).

(** ** Tokens and the scanner *)

(** [TokenType] is declared in scanner.h; its enumerators are listed here in
    the order in which the rows of [rules] (compiler.c) name them. *)
Inductive TokenType :=
| TOKEN_LEFT_PAREN | TOKEN_RIGHT_PAREN | TOKEN_LEFT_BRACE | TOKEN_RIGHT_BRACE
| TOKEN_COMMA | TOKEN_DOT | TOKEN_MINUS | TOKEN_PLUS | TOKEN_SEMICOLON
| TOKEN_SLASH | TOKEN_STAR | TOKEN_BANG | TOKEN_BANG_EQUAL | TOKEN_EQUAL
| TOKEN_EQUAL_EQUAL | TOKEN_GREATER | TOKEN_GREATER_EQUAL | TOKEN_LESS
| TOKEN_LESS_EQUAL | TOKEN_IDENTIFIER | TOKEN_STRING | TOKEN_NUMBER
| TOKEN_AND | TOKEN_CLASS | TOKEN_ELSE | TOKEN_FALSE | TOKEN_FOR | TOKEN_FUN
| TOKEN_IF | TOKEN_NIL | TOKEN_OR | TOKEN_PRINT | TOKEN_RETURN | TOKEN_SUPER
| TOKEN_THIS | TOKEN_TRUE | TOKEN_VAR | TOKEN_WHILE | TOKEN_ERROR | TOKEN_EOF.

(** The enumerator's integer value, which indexes [rules]. *)
Definition TokenType_index (t : TokenType) : nat :=
  match t with
  | TOKEN_LEFT_PAREN => 0 | TOKEN_RIGHT_PAREN => 1 | TOKEN_LEFT_BRACE => 2
  | TOKEN_RIGHT_BRACE => 3 | TOKEN_COMMA => 4 | TOKEN_DOT => 5
  | TOKEN_MINUS => 6 | TOKEN_PLUS => 7 | TOKEN_SEMICOLON => 8
  | TOKEN_SLASH => 9 | TOKEN_STAR => 10 | TOKEN_BANG => 11
  | TOKEN_BANG_EQUAL => 12 | TOKEN_EQUAL => 13 | TOKEN_EQUAL_EQUAL => 14
  | TOKEN_GREATER => 15 | TOKEN_GREATER_EQUAL => 16 | TOKEN_LESS => 17
  | TOKEN_LESS_EQUAL => 18 | TOKEN_IDENTIFIER => 19 | TOKEN_STRING => 20
  | TOKEN_NUMBER => 21 | TOKEN_AND => 22 | TOKEN_CLASS => 23
  | TOKEN_ELSE => 24 | TOKEN_FALSE => 25 | TOKEN_FOR => 26 | TOKEN_FUN => 27
  | TOKEN_IF => 28 | TOKEN_NIL => 29 | TOKEN_OR => 30 | TOKEN_PRINT => 31
  | TOKEN_RETURN => 32 | TOKEN_SUPER => 33 | TOKEN_THIS => 34
  | TOKEN_TRUE => 35 | TOKEN_VAR => 36 | TOKEN_WHILE => 37
  | TOKEN_ERROR => 38 | TOKEN_EOF => 39
  end%nat.

Definition all_TokenTypes : list TokenType :=
  [ TOKEN_LEFT_PAREN; TOKEN_RIGHT_PAREN; TOKEN_LEFT_BRACE; TOKEN_RIGHT_BRACE;
    TOKEN_COMMA; TOKEN_DOT; TOKEN_MINUS; TOKEN_PLUS; TOKEN_SEMICOLON;
    TOKEN_SLASH; TOKEN_STAR; TOKEN_BANG; TOKEN_BANG_EQUAL; TOKEN_EQUAL;
    TOKEN_EQUAL_EQUAL; TOKEN_GREATER; TOKEN_GREATER_EQUAL; TOKEN_LESS;
    TOKEN_LESS_EQUAL; TOKEN_IDENTIFIER; TOKEN_STRING; TOKEN_NUMBER;
    TOKEN_AND; TOKEN_CLASS; TOKEN_ELSE; TOKEN_FALSE; TOKEN_FOR; TOKEN_FUN;
    TOKEN_IF; TOKEN_NIL; TOKEN_OR; TOKEN_PRINT; TOKEN_RETURN; TOKEN_SUPER;
    TOKEN_THIS; TOKEN_TRUE; TOKEN_VAR; TOKEN_WHILE; TOKEN_ERROR; TOKEN_EOF ].

(** [a == b] on two enumerators. *)
Definition TokenType_eqb (a b : TokenType) : bool :=
  Nat.eqb (TokenType_index a) (TokenType_index b).

(** Modelled from the spec: [Token] (scanner.h is not among the sources),
    "[{type, lexeme start+length (borrowed slice of source text), line}]".
    [tok_start] is the [const char*] into the source text: the text from
    the first character of the lexeme to the end of the source; the lexeme
    is its first [tok_length] characters. *)
Record Token := mkToken {
  tok_type : TokenType;
  tok_start : string;
  tok_length : Z;
  tok_line : Z
}.

Definition lexeme (t : Token) : string :=
  substring 0 (Z.to_nat (tok_length t)) (tok_start t).

(** Modelled from the spec: the scanner (scanner.c is not among the
    sources). "[scanToken() -> Token{type, start+length, line}], with a
    reserved error-token type carrying a diagnostic message as its lexeme."
    The state of the scanner is the sequence of tokens it has still to
    yield before the end of the input, and the line it stands on; at the
    end of the input it yields [TOKEN_EOF], again and again. *)
Record Scanner := mkScanner {
  pending : list Token;
  scan_line : Z
}.

(** Modelled from the spec: [initScanner] (scanner.c). The source text is
    given as the tokens the scanner yields for it. *)
Definition initScanner (source : list Token) : Scanner := mkScanner source 1.

(** Modelled from the spec: [scanToken] (scanner.c). *)
Definition scanToken (s : Scanner) : Token * Scanner :=
  match pending s with
  | [] => (mkToken TOKEN_EOF "" 0 (scan_line s), s)
  | t :: rest => (t, mkScanner rest (tok_line t))
  end.

(** ** The chunk *)

(** Modelled from the spec: the opcode set (chunk.h is not among the
    sources), "[{CONSTANT, ADD, SUB, MULT, DIV, NEGATE, TRUE, FALSE, NIL,
    RETURN}]". *)
Inductive OpCode :=
| OP_CONSTANT | OP_ADD | OP_SUB | OP_MULT | OP_DIV | OP_NEGATE
| OP_TRUE | OP_FALSE | OP_NIL | OP_RETURN.

(** Modelled from the spec: the byte an opcode is written as (chunk.h),
    the enumerators numbered in the order above. *)
Definition OpCode_byte (op : OpCode) : Z :=
  match op with
  | OP_CONSTANT => 0 | OP_ADD => 1 | OP_SUB => 2 | OP_MULT => 3 | OP_DIV => 4
  | OP_NEGATE => 5 | OP_TRUE => 6 | OP_FALSE => 7 | OP_NIL => 8 | OP_RETURN => 9
  end.
Coercion OpCode_byte : OpCode >-> Z.

(** Modelled from the spec: the chunk (chunk.c is not among the sources),
    "append-byte-with-line, append-constant-returning-index"; a chunk is
    the "container for emitted bytecode, per-instruction line numbers, and
    the constant pool". *)
Record Chunk := mkChunk {
  code : list Z;
  lines : list Z;
  constants : list Value
}.

(** Modelled from the spec: a chunk that nothing has been written to. *)
Definition initChunk : Chunk := mkChunk [] [] [].

(** Modelled from the spec: [writeChunk] (chunk.c), "append-byte-with-line". *)
Definition writeChunk (chunk : Chunk) (byte : Z) (line : Z) : Chunk :=
  mkChunk (code chunk ++ [byte]) (lines chunk ++ [line]) (constants chunk).

(** Modelled from the spec: [addConstant] (chunk.c),
    "append-constant-returning-index". *)
Definition addConstant (chunk : Chunk) (value : Value) : Z * Chunk :=
  (Z.of_nat (length (constants chunk)),
   mkChunk (code chunk) (lines chunk) (constants chunk ++ [value])).

(** ** compiler.c: the parser state *)

Record Parser := mkParser {
  previous : Token;
  current : Token;
  hadError : bool;
  panicMode : bool
}.

(** What [errorAt] prints after "Error: ": [" at end"], nothing, or
    [" at '<lexeme>'"]. *)
Inductive Location :=
| at_end
| at_nothing
| at_lexeme (text : string).

(** One line written to [stderr] by [errorAt]:
    ["[line <line>] Error: <where>: <message>"]. *)
Record Diagnostic := mkDiagnostic {
  diag_line : Z;
  diag_where : Location;
  diag_message : string
}.

(** The globals of compiler.c ([parser], [compilingChunk], with the chunk it
    points to), the scanner's own global state, and [stderr]. *)
Record State := mkState {
  parser : Parser;
  scanner : Scanner;
  compilingChunk : Chunk;
  stderr : list Diagnostic
}.

(** [Parser parser;] has static storage: every member starts out zero, and
    the enumerator with value zero is [TOKEN_LEFT_PAREN]. *)
Definition zeroToken : Token := mkToken TOKEN_LEFT_PAREN "" 0 0.
Definition zeroParser : Parser := mkParser zeroToken zeroToken false false.

(** The state of a process that has not compiled anything yet. *)
Definition startState : State :=
  mkState zeroParser (mkScanner [] 0) initChunk [].

Definition set_parser (p : Parser) (st : State) : State :=
  mkState p (scanner st) (compilingChunk st) (stderr st).

(** [Precedence] is an [enum]; [binary] does arithmetic on it, so it is kept
    as the integer it is. *)
Definition Precedence := Z.
Definition PREC_NONE : Precedence := 0.
Definition PREC_ASSIGN : Precedence := 1.
Definition PREC_OR : Precedence := 2.
Definition PREC_AND : Precedence := 3.
Definition PREC_EQUALITY : Precedence := 4.
Definition PREC_COMPARISON : Precedence := 5.
Definition PREC_TERM : Precedence := 6.
Definition PREC_FACTOR : Precedence := 7.
Definition PREC_UNARY : Precedence := 8.
Definition PREC_CALL : Precedence := 9.
Definition PREC_PRIMARY : Precedence := 10.

(** The functions a [ParseFn] pointer of [rules] can point to; the null
    pointer is [None]. *)
Inductive ParseFn := fn_binary | fn_unary | fn_literal | fn_number | fn_grouping.

Record ParseRule := mkRule {
  prefix : option ParseFn;
  infix : option ParseFn;
  precedence : Precedence
}.

(** ** compiler.c: helper functions *)

(** The line [errorAt] prints for [token] and [message]. *)
Definition diagnostic (token : Token) (message : string) : Diagnostic :=
  mkDiagnostic (tok_line token)
    (if TokenType_eqb (tok_type token) TOKEN_EOF then at_end
     else if TokenType_eqb (tok_type token) TOKEN_ERROR then at_nothing
     else at_lexeme (lexeme token))
    message.

Definition errorAt (token : Token) (message : string) (st : State) : State :=
  if panicMode (parser st) then st
  else
    let p := parser st in
    mkState (mkParser (previous p) (current p) true true)
            (scanner st) (compilingChunk st)
            (stderr st ++ [diagnostic token message]).

Definition error (message : string) (st : State) : State :=
  errorAt (current (parser st)) message st.

(** [static void errorAtCurrent(const char* message) {}] *)
Definition errorAtCurrent (message : string) (st : State) : State := st.

(** The [while (true)] loop of [advance]. An iteration that does not break
    has taken a [TOKEN_ERROR] from the scanner, so the loop runs at most
    once per pending token and then once more; [n] counts the iterations
    allowed after the first one ([advance_current_not_error] shows that the
    count given by [advance] is never used up). *)
Fixpoint advance_loop (n : nat) (st : State) : State :=
  let '(token, s) := scanToken (scanner st) in
  let p := parser st in
  let st := mkState (mkParser (previous p) token (hadError p) (panicMode p))
                    s (compilingChunk st) (stderr st) in
  if negb (TokenType_eqb (tok_type token) TOKEN_ERROR) then st
  else match n with
       | O => st
       | S n => advance_loop n (errorAtCurrent (tok_start token) st)
       end.

Definition advance (st : State) : State :=
  let p := parser st in
  let st := set_parser (mkParser (current p) (current p) (hadError p) (panicMode p)) st in
  advance_loop (length (pending (scanner st))) st.

Definition consume (type : TokenType) (message : string) (st : State) : State :=
  if TokenType_eqb (tok_type (current (parser st))) type
  then advance st
  else errorAtCurrent message st.

Definition currentChunk (st : State) : Chunk := compilingChunk st.

Definition emitByte (byte : Z) (st : State) : State :=
  mkState (parser st) (scanner st)
          (writeChunk (currentChunk st) byte (tok_line (previous (parser st))))
          (stderr st).

Definition emitBytes (byte1 byte2 : Z) (st : State) : State :=
  emitByte byte2 (emitByte byte1 st).

Definition emitReturn (st : State) : State := emitByte OP_RETURN st.

Definition UINT8_MAX : Z := 255.

Definition makeConstant (value : Value) (st : State) : Z * State :=
  let '(constantIndex, chunk) := addConstant (currentChunk st) value in
  let st := mkState (parser st) (scanner st) chunk (stderr st) in
  if UINT8_MAX <? constantIndex
  then (0, error "Too many constants in one chunk." st)
  else (constantIndex mod 256, st).

Definition emitConstant (value : Value) (st : State) : State :=
  let '(index, st) := makeConstant value st in
  emitBytes OP_CONSTANT index st.

(** [DEBUG_PRINT_CODE] only adds a listing of the chunk; it is left out. *)
Definition endCompiler (st : State) : State := emitReturn st.

(** ** compiler.c: the rule table *)

Definition rules : list ParseRule :=
  [ mkRule (Some fn_grouping) None PREC_NONE;        (* TOKEN_LEFT_PAREN *)
    mkRule None None PREC_NONE;                      (* TOKEN_RIGHT_PAREN *)
    mkRule None None PREC_NONE;                      (* TOKEN_LEFT_BRACE *)
    mkRule None None PREC_NONE;                      (* TOKEN_RIGHT_BRACE *)
    mkRule None None PREC_NONE;                      (* TOKEN_COMMA *)
    mkRule None None PREC_NONE;                      (* TOKEN_DOT *)
    mkRule (Some fn_unary) (Some fn_binary) PREC_TERM; (* TOKEN_MINUS *)
    mkRule None (Some fn_binary) PREC_TERM;          (* TOKEN_PLUS *)
    mkRule None None PREC_NONE;                      (* TOKEN_SEMICOLON *)
    mkRule None (Some fn_binary) PREC_FACTOR;        (* TOKEN_SLASH *)
    mkRule None (Some fn_binary) PREC_FACTOR;        (* TOKEN_STAR *)
    mkRule None None PREC_NONE;                      (* TOKEN_BANG *)
    mkRule None None PREC_NONE;                      (* TOKEN_BANG_EQUAL *)
    mkRule None None PREC_NONE;                      (* TOKEN_EQUAL *)
    mkRule None None PREC_NONE;                      (* TOKEN_EQUAL_EQUAL *)
    mkRule None None PREC_NONE;                      (* TOKEN_GREATER *)
    mkRule None None PREC_NONE;                      (* TOKEN_GREATER_EQUAL *)
    mkRule None None PREC_NONE;                      (* TOKEN_LESS *)
    mkRule None None PREC_NONE;                      (* TOKEN_LESS_EQUAL *)
    mkRule None None PREC_NONE;                      (* TOKEN_IDENTIFIER *)
    mkRule None None PREC_NONE;                      (* TOKEN_STRING *)
    mkRule (Some fn_number) None PREC_NONE;          (* TOKEN_NUMBER *)
    mkRule None None PREC_NONE;                      (* TOKEN_AND *)
    mkRule None None PREC_NONE;                      (* TOKEN_CLASS *)
    mkRule None None PREC_NONE;                      (* TOKEN_ELSE *)
    mkRule (Some fn_literal) None PREC_NONE;         (* TOKEN_FALSE *)
    mkRule None None PREC_NONE;                      (* TOKEN_FOR *)
    mkRule None None PREC_NONE;                      (* TOKEN_FUN *)
    mkRule None None PREC_NONE;                      (* TOKEN_IF *)
    mkRule (Some fn_literal) None PREC_NONE;         (* TOKEN_NIL *)
    mkRule None None PREC_NONE;                      (* TOKEN_OR *)
    mkRule None None PREC_NONE;                      (* TOKEN_PRINT *)
    mkRule None None PREC_NONE;                      (* TOKEN_RETURN *)
    mkRule None None PREC_NONE;                      (* TOKEN_SUPER *)
    mkRule None None PREC_NONE;                      (* TOKEN_THIS *)
    mkRule (Some fn_literal) None PREC_NONE;         (* TOKEN_TRUE *)
    mkRule None None PREC_NONE;                      (* TOKEN_VAR *)
    mkRule None None PREC_NONE;                      (* TOKEN_WHILE *)
    mkRule None None PREC_NONE;                      (* TOKEN_ERROR *)
    mkRule None None PREC_NONE                       (* TOKEN_EOF *)
  ].

Definition getRule (type : TokenType) : ParseRule :=
  nth (TokenType_index type) rules (mkRule None None PREC_NONE).

(** ** compiler.c: the parsing functions *)

(** What a call of a parsing function comes to: it returns, it calls a null
    [ParseFn], or the recursion allowance of the model ran out (which
    [parsePrecedence_returns] excludes). *)
Inductive Outcome :=
| Returns (st : State)
| NullCall
| OutOfFuel.

Definition andThen (o : Outcome) (k : State -> Outcome) : Outcome :=
  match o with
  | Returns st => k st
  | NullCall => NullCall
  | OutOfFuel => OutOfFuel
  end.

Notation "o >>= k" := (andThen o k) (at level 58, left associativity).

Section ParseFunctions.
Context `{CImpl}.

(** The forward-declared [parsePrecedence], as the parsing functions call
    it. *)
Variable parsePrecedence : Precedence -> State -> Outcome.

Definition number (st : State) : Outcome :=
  let value := strtod (tok_start (previous (parser st))) in
  Returns (emitConstant (NUMBER_VAL value) st).

Definition literal (st : State) : Outcome :=
  match tok_type (previous (parser st)) with
  | TOKEN_TRUE => Returns (emitByte OP_TRUE st)
  | TOKEN_FALSE => Returns (emitByte OP_FALSE st)
  | TOKEN_NIL => Returns (emitByte OP_NIL st)
  | _ => Returns st
  end.

Definition expression (st : State) : Outcome := parsePrecedence PREC_ASSIGN st.

Definition binary (st : State) : Outcome :=
  let operator := tok_type (previous (parser st)) in
  let rule := getRule operator in
  parsePrecedence (precedence rule + 1) st >>= fun st =>
  match operator with
  | TOKEN_PLUS => Returns (emitByte OP_ADD st)
  | TOKEN_MINUS => Returns (emitByte OP_SUB st)
  | TOKEN_STAR => Returns (emitByte OP_MULT st)
  | TOKEN_SLASH => Returns (emitByte OP_DIV st)
  | _ => Returns st
  end.

Definition unary (st : State) : Outcome :=
  let operatorType := tok_type (previous (parser st)) in
  parsePrecedence PREC_UNARY st >>= fun st =>
  match operatorType with
  | TOKEN_MINUS => Returns (emitByte OP_NEGATE st)
  | _ => Returns st
  end.

Definition grouping (st : State) : Outcome :=
  expression st >>= fun st =>
  Returns (consume TOKEN_RIGHT_PAREN "Expected ')' after expression." st).

(** A call through a [ParseFn] pointer; the null pointer does not point to
    a function. *)
Definition call (fn : option ParseFn) (st : State) : Outcome :=
  match fn with
  | None => NullCall
  | Some fn_binary => binary st
  | Some fn_unary => unary st
  | Some fn_literal => literal st
  | Some fn_number => number st
  | Some fn_grouping => grouping st
  end.

(** The [while] loop of [parsePrecedence]; [n] bounds its iterations. *)
Fixpoint infix_loop (n : nat) (precedence_ : Precedence) (st : State) : Outcome :=
  if precedence_ <=? precedence (getRule (tok_type (current (parser st)))) then
    match n with
    | O => OutOfFuel
    | S n =>
        let st := advance st in
        let infixRule := infix (getRule (tok_type (previous (parser st)))) in
        call infixRule st >>= infix_loop n precedence_
    end
  else Returns st.

(** The body of [parsePrecedence]. *)
Definition parsePrecedence_body (n : nat) (precedence_ : Precedence) (st : State) : Outcome :=
  let st := advance st in
  let prefixRule := prefix (getRule (tok_type (previous (parser st)))) in
  match prefixRule with
  | None => Returns (error "Expected expression" st)
  | Some _ => call prefixRule st >>= infix_loop n precedence_
  end.
End ParseFunctions.

(** [parsePrecedence]: the recursion through [binary], [unary] and
    [grouping] is cut off at depth [fuel]. *)
Fixpoint parsePrecedence `{CImpl} (fuel : nat) (precedence_ : Precedence) (st : State) : Outcome :=
  match fuel with
  | O => OutOfFuel
  | S fuel => parsePrecedence_body (parsePrecedence fuel) fuel precedence_ st
  end.

(** The depth and the number of loop iterations a state can need: every
    nested call and every iteration takes a token that is not [TOKEN_EOF]. *)
Definition tokens_left (st : State) : nat :=
  (length (pending (scanner st)) +
   (if TokenType_eqb (tok_type (current (parser st))) TOKEN_EOF then 0 else 1))%nat.

(** [compile(source, chunk)], entered in the state [st]; the result is the
    [bool] returned, with the state the call leaves behind ([None] if the
    call did not return). The recursion allowance is one more than the
    tokens left after the first [advance]. *)
Definition compile `{CImpl} (source : list Token) (chunk : Chunk) (st : State)
  : option (bool * State) :=
  let st := mkState (parser st) (initScanner source) chunk (stderr st) in
  let st := advance st in
  match expression (parsePrecedence (S (tokens_left st))) st with
  | Returns st =>
      let st := consume TOKEN_EOF "Expected end of expression." st in
      let st := endCompiler st in
      Some (negb (hadError (parser st)), st)
  | _ => None
  end.

(** ** object.c: objects, the heap and the VM *)

Definition address := positive.

(** Modelled from the spec: [ObjType] (object.h is not among the sources);
    strings are the only objects of object.c. *)
Inductive ObjType := OBJ_STRING.

(** Modelled from the spec: [ObjString] (object.h), an object header
    "[{type tag, link to next object}]" and "[{length, precomputed hash,
    inline null-terminated byte buffer}]". The characters follow the
    structure in the same block: object.c allocates
    [sizeof(ObjString) + length + 1] bytes and indexes [chars] up to
    [length]. A null [next] is [None]. *)
Record ObjString := mkObjString {
  obj_type : ObjType;
  obj_next : option address;
  str_length : Z;
  str_hash : Z;
  str_chars : list byte
}.

(** Modelled from the spec: a block as [reallocate] (memory.c is not among
    the sources) hands it out, a "raw allocation". It holds nothing that
    the program chose: every function that allocates takes the block's
    first contents as an argument, and the theorems hold for all of
    them. *)
Record Garbage := mkGarbage {
  g_next : option address;
  g_length : Z;
  g_hash : Z;
  g_chars : nat -> byte
}.

(** Modelled from the spec: the intern table (table.c is not among the
    sources), "set(key,value), find-by-content(bytes,length,hash) ->
    optional canonical reference". Keys are [ObjString*]. *)
Abbreviation Table := (gmap address Value).

(** Modelled from the spec: the global [vm] (vm.h is not among the
    sources), as far as object.c uses it: the head of the "process-wide
    allocation list" and the intern table; with them, the heap the objects
    live in. *)
Record VM := mkVM {
  heap : gmap address ObjString;
  objects : option address;
  strings : Table
}.

(** Modelled from the spec: [tableSet] (table.c), "set(key,value)". *)
Definition tableSet (table : Table) (key : address) (value : Value) : Table :=
  <[key := value]> table.

#[global] Instance byte_eq_decision : EqDecision byte := Byte.byte_eq_dec.

(** The key's object has the given length and hash and the same first
    [len] characters. *)
Definition key_matches (h : gmap address ObjString) (chars : list byte) (len hash : Z)
    (entry : address * Value) : Prop :=
  match h !! entry.1 with
  | Some key =>
      str_length key = len /\ str_hash key = hash /\
      take (Z.to_nat len) (str_chars key) = take (Z.to_nat len) chars
  | None => False
  end.

#[global] Instance key_matches_dec h chars len hash entry :
  Decision (key_matches h chars len hash entry).
Proof. unfold key_matches. destruct (h !! entry.1); apply _. Defined.

(** Modelled from the spec: [tableFindString] (table.c),
    "find-by-content(bytes,length,hash) -> optional canonical reference":
    a key of the table whose object matches, if there is one. *)
Definition tableFindString (h : gmap address ObjString) (table : Table)
    (chars : list byte) (len hash : Z) : option address :=
  (fun found => found.2.1) <$> list_find (key_matches h chars len hash) (map_to_list table).

(** ** object.c: the functions *)

(** [reallocate(NULL, 0, size)] for a string of [len] characters: a block
    of [sizeof(ObjString) + len + 1] bytes holding garbage. The callers
    place it at an address that is not in use. *)
Definition fresh_block (g : Garbage) (len : Z) : ObjString :=
  mkObjString OBJ_STRING (g_next g) (g_length g) (g_hash g)
              (map (g_chars g) (seq 0 (Z.to_nat (len + 1)))).

Definition allocateObject (g : Garbage) (len : Z) (type : ObjType) (vm : VM) : address * VM :=
  let object := fresh (dom (heap vm)) in
  let block := fresh_block g len in
  let block := mkObjString type (objects vm) (str_length block) (str_hash block)
                           (str_chars block) in
  (object, mkVM (<[object := block]> (heap vm)) (Some object) (strings vm)).

Definition xallocateObject (g : Garbage) (len : Z) (type : ObjType) (vm : VM) : address * VM :=
  let object := fresh (dom (heap vm)) in
  let block := fresh_block g len in
  let block := mkObjString type (obj_next block) (str_length block) (str_hash block)
                           (str_chars block) in
  (object, mkVM (<[object := block]> (heap vm)) (objects vm) (strings vm)).

(** [key[i]] converted to [uint32_t] for [hash ^= key[i]]: a [char] is
    promoted to [int] first, so a signed [char] above 127 is negative. *)
Definition char_to_uint32 `{CImpl} (c : byte) : Z :=
  let n := Z.of_N (Byte.to_N c) in
  (if char_is_signed && (128 <=? n) then n - 256 else n) mod 2 ^ 32.

(** [hashString]: the loop from [i] on, [n] iterations to go. Reading past
    the end of [key] is undefined: [None]. *)
Fixpoint hashString_loop `{CImpl} (key : list byte) (n i : nat) (hash : Z) : option Z :=
  match n with
  | O => Some hash
  | S n =>
      match key !! i with
      | None => None
      | Some c =>
          let hash := Z.lxor hash (char_to_uint32 c) in
          let hash := (hash * 16777619) mod 2 ^ 32 in
          hashString_loop key n (S i) hash
      end
  end.

Definition hashString `{CImpl} (key : list byte) (len : Z) : option Z :=
  hashString_loop key (Z.to_nat len) 0 2166136261.

(** FNV-1a (32 bits) as it is defined: over octets. *)
Definition fnv1a (bytes : list byte) : Z :=
  fold_left (fun hash b => (Z.lxor hash (Z.of_N (Byte.to_N b)) * 16777619) mod 2 ^ 32)
            bytes 2166136261.

(** What the loop of [hashString] computes over the bytes it reads. *)
Definition hash_bytes `{CImpl} (bytes : list byte) : Z :=
  fold_left (fun hash c => (Z.lxor hash (char_to_uint32 c) * 16777619) mod 2 ^ 32)
            bytes 2166136261.

(** [buffer[i] = c]; outside the buffer it is undefined: [None]. *)
Definition store (buffer : list byte) (i : Z) (c : byte) : option (list byte) :=
  if (0 <=? i) && (i <? Z.of_nat (length buffer))
  then Some (<[Z.to_nat i := c]> buffer)
  else None.

(** [for (int i = 0; chars[i]; i++) string->chars[i] = chars[i];] from index
    [i] on, [src] being what is still to be read of [chars]. *)
Fixpoint copy_until_nul (src : list byte) (i : Z) (dst : list byte) : option (list byte) :=
  match src with
  | [] => None
  | c :: src =>
      if N.eqb (Byte.to_N c) 0 then Some dst
      else match store dst i c with
           | Some dst => copy_until_nul src (i + 1) dst
           | None => None
           end
  end.

(** [for (int i = 0; i < string->length; i++) string->chars[i] = chars[i];]
    from index [i] on, [n] iterations to go. *)
Fixpoint copy_length (chars : list byte) (n : nat) (i : Z) (dst : list byte) : option (list byte) :=
  match n with
  | O => Some dst
  | S n =>
      match chars !! Z.to_nat i with
      | None => None
      | Some c =>
          match store dst i c with
          | Some dst => copy_length chars n (i + 1) dst
          | None => None
          end
      end
  end.

Definition set_string (string : address) (o : ObjString) (vm : VM) : VM :=
  mkVM (<[string := o]> (heap vm)) (objects vm) (strings vm).

Definition allocateString `{CImpl} (g : Garbage) (chars : list byte) (len : Z) (vm : VM)
  : option (address * VM) :=
  let '(string, vm) := allocateObject g len OBJ_STRING vm in
  o ← heap vm !! string;
  buffer ← copy_until_nul chars 0 (str_chars o);
  buffer ← store buffer len Byte.x00;
  hash ← hashString buffer len;
  Some (string, set_string string (mkObjString (obj_type o) (obj_next o) len hash buffer) vm).

Definition writeToString `{CImpl} (string : address) (chars : list byte) (vm : VM) : option VM :=
  o ← heap vm !! string;
  buffer ← copy_length chars (Z.to_nat (str_length o)) 0 (str_chars o);
  buffer ← store buffer (str_length o) Byte.x00;
  hash ← hashString buffer (str_length o);
  Some (set_string string (mkObjString (obj_type o) (obj_next o) (str_length o) hash buffer) vm).

Definition storeString (string : address) (vm : VM) : option VM :=
  let table := tableSet (strings vm) string NIL_VAL in
  o ← heap vm !! string;
  let o := mkObjString (obj_type o) (objects vm) (str_length o) (str_hash o) (str_chars o) in
  Some (mkVM (<[string := o]> (heap vm)) (Some string) table).

Definition xallocateString (g : Garbage) (len : Z) (vm : VM) : option (address * VM) :=
  let '(string, vm) := xallocateObject g len OBJ_STRING vm in
  o ← heap vm !! string;
  buffer ← store (str_chars o) len Byte.x00;
  Some (string, set_string string (mkObjString (obj_type o) (obj_next o) len (str_hash o) buffer) vm).

Definition validateString (string : address) (vm : VM) : option VM :=
  o ← heap vm !! string;
  let interned := tableFindString (heap vm) (strings vm) (str_chars o) (str_length o) (str_hash o) in
  let string := match interned with Some interned => interned | None => string end in
  storeString string vm.

Definition takeString `{CImpl} (g : Garbage) (chars : list byte) (len : Z) (vm : VM)
  : option (address * VM) :=
  allocateString g chars len vm.

Definition copyString `{CImpl} (g : Garbage) (chars : list byte) (len : Z) (vm : VM)
  : option (address * VM) :=
  '(temp, vm) ← xallocateString g len vm;
  vm ← writeToString temp chars vm;
  o ← heap vm !! temp;
  let interned := tableFindString (heap vm) (strings vm) (str_chars o) len (str_hash o) in
  match interned with
  | Some interned =>
      Some (interned, mkVM (delete temp (heap vm)) (objects vm) (strings vm))
  | None =>
      Some (temp, mkVM (heap vm) (objects vm) (tableSet (strings vm) temp NIL_VAL))
  end.

(** ** Inputs of the examples *)

(** A [strtod] to run the examples with: the value of the decimal digits
    the text begins with. *)
Fixpoint leading_digits (s : string) (acc : Z) : Z :=
  match s with
  | String c rest =>
      let d := Z.of_nat (nat_of_ascii c) - 48 in
      if (0 <=? d) && (d <=? 9) then leading_digits rest (10 * acc + d) else acc
  | EmptyString => acc
  end.

Definition strtod_digits (s : string) : float :=
  PrimFloat.of_uint63 (Uint63.of_Z (leading_digits s 0)).

(** An implementation where plain [char] is signed. *)
Definition host : CImpl :=
  {| char_is_signed := true; strtod := strtod_digits |}.

(** The token of [type] whose lexeme is the [len] characters of [source]
    from [offset] on, on line 1. *)
Definition token_at (source : string) (type : TokenType) (offset len : nat) : Token :=
  mkToken type (substring offset (String.length source - offset) source) (Z.of_nat len) 1.

(** The tokens of ["(1 + 2"]. *)
Definition src_unclosed : list Token :=
  let s := "(1 + 2"%string in
  [ token_at s TOKEN_LEFT_PAREN 0 1; token_at s TOKEN_NUMBER 1 1;
    token_at s TOKEN_PLUS 3 1; token_at s TOKEN_NUMBER 5 1 ].

(** The tokens of ["-3"]. *)
Definition src_negate : list Token :=
  let s := "-3"%string in
  [ token_at s TOKEN_MINUS 0 1; token_at s TOKEN_NUMBER 1 1 ].

(** The tokens of ["1 + 2 * 3"]. *)
Definition src_add_mult : list Token :=
  let s := "1 + 2 * 3"%string in
  [ token_at s TOKEN_NUMBER 0 1; token_at s TOKEN_PLUS 2 1;
    token_at s TOKEN_NUMBER 4 1; token_at s TOKEN_STAR 6 1;
    token_at s TOKEN_NUMBER 8 1 ].

(** The tokens of ["(1 + 2) * 3"]. *)
Definition src_group_mult : list Token :=
  let s := "(1 + 2) * 3"%string in
  [ token_at s TOKEN_LEFT_PAREN 0 1; token_at s TOKEN_NUMBER 1 1;
    token_at s TOKEN_PLUS 3 1; token_at s TOKEN_NUMBER 5 1;
    token_at s TOKEN_RIGHT_PAREN 6 1; token_at s TOKEN_STAR 8 1;
    token_at s TOKEN_NUMBER 10 1 ].

(** The tokens of ["1 + 2 + 3"]. *)
Definition src_add_add : list Token :=
  let s := "1 + 2 + 3"%string in
  [ token_at s TOKEN_NUMBER 0 1; token_at s TOKEN_PLUS 2 1;
    token_at s TOKEN_NUMBER 4 1; token_at s TOKEN_PLUS 6 1;
    token_at s TOKEN_NUMBER 8 1 ].

(** The tokens of ["+"] and of ["1"]. *)
Definition src_plus : list Token := [ token_at "+" TOKEN_PLUS 0 1 ].
Definition src_one : list Token := [ token_at "1" TOKEN_NUMBER 0 1 ].

(** The text ["1+1+...+1"] with [n] additions, and its tokens. *)
Definition sum_text (n : nat) : string :=
  String.append "1" (String.concat "" (repeat "+1"%string n)).

Definition src_sum (n : nat) : list Token :=
  token_at (sum_text n) TOKEN_NUMBER 0 1 ::
  flat_map (fun i => [ token_at (sum_text n) TOKEN_PLUS (1 + 2 * i) 1;
                       token_at (sum_text n) TOKEN_NUMBER (2 + 2 * i) 1 ])
           (seq 0 n).

(** The text ["1+++1+1+...+1"]: ["1++"], where an operand is missing,
    followed by [n] additions; and its tokens. *)
Definition error_sum_text (n : nat) : string :=
  String.append "1++" (String.concat "" (repeat "+1"%string n)).

Definition src_error_sum (n : nat) : list Token :=
  token_at (error_sum_text n) TOKEN_NUMBER 0 1 ::
  token_at (error_sum_text n) TOKEN_PLUS 1 1 ::
  token_at (error_sum_text n) TOKEN_PLUS 2 1 ::
  flat_map (fun i => [ token_at (error_sum_text n) TOKEN_PLUS (3 + 2 * i) 1;
                       token_at (error_sum_text n) TOKEN_NUMBER (4 + 2 * i) 1 ])
           (seq 0 n).

(** A pool that is full: 256 constants, indices 0 to 255. *)
Definition full_chunk : Chunk := mkChunk [] [] (repeat NIL_VAL 256).

(** A parser that has reported an error and is in panic mode. *)
Definition panicking (st : State) : State :=
  set_parser (mkParser (previous (parser st)) (current (parser st)) true true) st.

(** Garbage for the examples: every byte is ['U'], 0x55. *)
Definition garbage_55 : Garbage := mkGarbage None 0 0 (fun _ => Byte.x55).

Definition emptyVM : VM := mkVM ∅ None ∅.

(** The buffer ['a', 0, 'b', 0]: three bytes of content with a NUL among
    them, and a terminator. *)
Definition chars_a_nul_b : list byte := [Byte.x61; Byte.x00; Byte.x62; Byte.x00].

(** A VM in which ["a"] is interned and tracked at address 1, and a second
    string object with the same content, built outside of [copyString],
    sits at address 2. *)
Definition string_a (next : option address) : ObjString :=
  mkObjString OBJ_STRING next 1 (fnv1a [Byte.x61]) [Byte.x61; Byte.x00].

Definition vm_a_interned : VM :=
  mkVM (<[2%positive := string_a None]> (<[1%positive := string_a None]> ∅))
       (Some 1%positive)
       (<[1%positive := NIL_VAL]> ∅).

(** ** Invariants used in the proofs *)

Definition nonempty {A} (l : list A) : bool :=
  match l with [] => false | _ => true end.

(** What every step of the compiler keeps: the tokens still to be taken do
    not grow; [stderr] is only appended to, [hadError] and [panicMode] are
    set exactly when something is appended. *)
Definition Step (st st' : State) : Prop :=
  (tokens_left st' <= tokens_left st)%nat /\
  exists new : list Diagnostic,
    stderr st' = stderr st ++ new /\
    hadError (parser st') = hadError (parser st) || nonempty new /\
    panicMode (parser st') = panicMode (parser st) || nonempty new.

(** What is known of the recursive calls a parsing function makes: with a
    threshold of [PREC_ASSIGN] or more, on a state with fewer than [f]
    tokens left, the call returns. *)
Definition returns_below (rec : Precedence -> State -> Outcome) (f : nat) : Prop :=
  forall prec st, PREC_ASSIGN <= prec -> (tokens_left st < f)%nat ->
  exists st', rec prec st = Returns st' /\ Step st st'.

(** The parser is never in panic mode without having recorded an error. *)
Definition panic_has_error (st : State) : Prop :=
  panicMode (parser st) = true -> hadError (parser st) = true.

(** The string object with the given content, as [copyString] builds
    it. *)
Definition string_object `{CImpl} (next : option address) (content : list byte) : ObjString :=
  mkObjString OBJ_STRING next (Z.of_nat (length content)) (hash_bytes content)
              (content ++ [Byte.x00]).

(** Every key of the intern table is an allocated object. *)
Definition table_allocated (vm : VM) : Prop :=
  dom (strings vm) ⊆ dom (heap vm).

(** The lookup of the first [len] bytes of [chars] in the intern table
    finds nothing. *)
Definition not_interned `{CImpl} (chars : list byte) (len : Z) (vm : VM) : Prop :=
  tableFindString (heap vm) (strings vm) chars len
                  (hash_bytes (take (Z.to_nat len) chars)) = None.

(** ** Expression trees *)

(** The expressions of the grammar that [parsePrecedence] reads, each node
    with the tokens it is written with. *)
Inductive Expr :=
| ENumber (t : Token)
| ELiteral (t : Token)
| ENegate (t : Token) (operand : Expr)
| EBinary (lhs : Expr) (t : Token) (rhs : Expr)
| EGrouping (lparen : Token) (inner : Expr) (rparen : Token).

(** The opcode [binary] emits for an operator, and [literal] for a
    literal; for any other token they emit nothing. *)
Definition binary_opcode (type : TokenType) : option OpCode :=
  match type with
  | TOKEN_PLUS => Some OP_ADD
  | TOKEN_MINUS => Some OP_SUB
  | TOKEN_STAR => Some OP_MULT
  | TOKEN_SLASH => Some OP_DIV
  | _ => None
  end.

Definition literal_opcode (type : TokenType) : option OpCode :=
  match type with
  | TOKEN_TRUE => Some OP_TRUE
  | TOKEN_FALSE => Some OP_FALSE
  | TOKEN_NIL => Some OP_NIL
  | _ => None
  end.

(** How tightly the top of an expression binds: the precedence of its
    operator, and [PREC_UNARY] for what is not a binary expression. *)
Definition level (e : Expr) : Precedence :=
  match e with
  | EBinary _ t _ => precedence (getRule (tok_type t))
  | _ => PREC_UNARY
  end.

(** The trees of the usual reading: the tokens are of the right kind, the
    operand of a minus is not a binary expression, the left operand of an
    operator binds at least as tightly as the operator (left
    associativity), and the right operand binds more tightly. *)
Fixpoint well_formed (e : Expr) : Prop :=
  match e with
  | ENumber t => tok_type t = TOKEN_NUMBER
  | ELiteral t => is_Some (literal_opcode (tok_type t))
  | ENegate t operand =>
      tok_type t = TOKEN_MINUS /\ well_formed operand /\ PREC_UNARY <= level operand
  | EBinary lhs t rhs =>
      is_Some (binary_opcode (tok_type t)) /\
      well_formed lhs /\ well_formed rhs /\
      precedence (getRule (tok_type t)) <= level lhs /\
      precedence (getRule (tok_type t)) + 1 <= level rhs
  | EGrouping lparen inner rparen =>
      tok_type lparen = TOKEN_LEFT_PAREN /\ well_formed inner /\
      tok_type rparen = TOKEN_RIGHT_PAREN
  end.

(** The tokens an expression is written with, in order. *)
Fixpoint tokens (e : Expr) : list Token :=
  match e with
  | ENumber t => [t]
  | ELiteral t => [t]
  | ENegate t operand => t :: tokens operand
  | EBinary lhs t rhs => tokens lhs ++ t :: tokens rhs
  | EGrouping lparen inner rparen => lparen :: tokens inner ++ [rparen]
  end.

Fixpoint last_token (e : Expr) : Token :=
  match e with
  | ENumber t => t
  | ELiteral t => t
  | ENegate _ operand => last_token operand
  | EBinary _ _ rhs => last_token rhs
  | EGrouping _ _ rparen => rparen
  end.

(** The number literals of an expression, as constants, in order. *)
Fixpoint literals `{CImpl} (e : Expr) : list Value :=
  match e with
  | ENumber t => [NUMBER_VAL (strtod (tok_start t))]
  | ELiteral _ => []
  | ENegate _ operand => literals operand
  | EBinary lhs _ rhs => literals lhs ++ literals rhs
  | EGrouping _ inner _ => literals inner
  end.

Definition opcode_bytes (op : option OpCode) : list Z :=
  match op with Some op => [OpCode_byte op] | None => [] end.

(** The postfix code of an expression: operands first, then the operator;
    the number literals are loaded from the pool indices [base],
    [base + 1], ... *)
Fixpoint bytecode `{CImpl} (e : Expr) (base : nat) : list Z :=
  match e with
  | ENumber _ => [OpCode_byte OP_CONSTANT; Z.of_nat base]
  | ELiteral t => opcode_bytes (literal_opcode (tok_type t))
  | ENegate _ operand => bytecode operand base ++ [OpCode_byte OP_NEGATE]
  | EBinary lhs t rhs =>
      bytecode lhs base ++ bytecode rhs (base + length (literals lhs)) ++
      opcode_bytes (binary_opcode (tok_type t))
  | EGrouping _ inner _ => bytecode inner base
  end.

(** The line every byte of [bytecode] is written with: the line of the last
    token taken when the byte is emitted. *)
Fixpoint bytecode_lines (e : Expr) : list Z :=
  match e with
  | ENumber t => [tok_line t; tok_line t]
  | ELiteral t => map (fun _ => tok_line t) (opcode_bytes (literal_opcode (tok_type t)))
  | ENegate _ operand => bytecode_lines operand ++ [tok_line (last_token operand)]
  | EBinary lhs t rhs =>
      bytecode_lines lhs ++ bytecode_lines rhs ++
      map (fun _ => tok_line (last_token rhs)) (opcode_bytes (binary_opcode (tok_type t)))
  | EGrouping _ inner _ => bytecode_lines inner
  end.

(** The chunk after the code of [e] has been added to it. *)
Definition postfix `{CImpl} (e : Expr) (chunk : Chunk) : Chunk :=
  mkChunk (code chunk ++ bytecode e (length (constants chunk)))
          (lines chunk ++ bytecode_lines e)
          (constants chunk ++ literals e).

(** The operators at the top of an expression that the loop of one
    [parsePrecedence] call takes: the length of the left spine. *)
Fixpoint spine (e : Expr) : nat :=
  match e with
  | EBinary lhs _ _ => S (spine lhs)
  | _ => O
  end.

(** The token after an expression does not belong to it: it does not bind
    more tightly than the operators on the right edge of the tree. *)
Fixpoint follow_ok (e : Expr) (type : TokenType) : Prop :=
  match e with
  | EBinary _ t rhs =>
      precedence (getRule type) <= precedence (getRule (tok_type t)) /\ follow_ok rhs type
  | ENegate _ operand => follow_ok operand type
  | _ => True
  end.

(** ** More on the parser state *)

Definition with_chunk (chunk : Chunk) (st : State) : State :=
  mkState (parser st) (scanner st) chunk (stderr st).

(** [n] calls of [advance]. *)
Fixpoint advances (n : nat) (st : State) : State :=
  match n with
  | O => st
  | S n => advances n (advance st)
  end.

(** The current token and the tokens still in the scanner. *)
Definition upcoming (st : State) : list Token :=
  current (parser st) :: pending (scanner st).

Definition is_error (t : Token) : bool := TokenType_eqb (tok_type t) TOKEN_ERROR.

(** The tokens from the first one on that is not an error token. *)
Fixpoint skip_errors (toks : list Token) : list Token :=
  match toks with
  | [] => []
  | t :: rest => if is_error t then skip_errors rest else t :: rest
  end.

(** The state [compile] sets up before its first [advance]. *)
Definition entry_state (source : list Token) (chunk : Chunk) (st : State) : State :=
  mkState (parser st) (initScanner source) chunk (stderr st).

(** The messages [compile] can write. *)
Definition compile_message (d : Diagnostic) : Prop :=
  diag_message d = "Expected expression"%string \/
  diag_message d = "Too many constants in one chunk."%string.

(** At most one diagnostic, and only out of panic mode. *)
Definition Reports (st st' : State) : Prop :=
  exists new : list Diagnostic,
    stderr st' = stderr st ++ new /\
    Forall compile_message new /\
    (length new <= 1)%nat /\
    (panicMode (parser st) = true -> new = []) /\
    panicMode (parser st') = panicMode (parser st) || nonempty new.

(** The chunk is only appended to, code and lines in step. *)
Definition Appends (st st' : State) : Prop :=
  exists (bytes ls : list Z) (consts : list Value),
    code (compilingChunk st') = code (compilingChunk st) ++ bytes /\
    lines (compilingChunk st') = lines (compilingChunk st) ++ ls /\
    length ls = length bytes /\
    constants (compilingChunk st') = constants (compilingChunk st) ++ consts.

(** The tree of ["(1 + 2) * -3"], with its tokens. *)
Definition expr_example : Expr :=
  let s := "(1 + 2) * -3"%string in
  EBinary
    (EGrouping (token_at s TOKEN_LEFT_PAREN 0 1)
       (EBinary (ENumber (token_at s TOKEN_NUMBER 1 1))
                (token_at s TOKEN_PLUS 3 1)
                (ENumber (token_at s TOKEN_NUMBER 5 1)))
       (token_at s TOKEN_RIGHT_PAREN 6 1))
    (token_at s TOKEN_STAR 8 1)
    (ENegate (token_at s TOKEN_MINUS 10 1) (ENumber (token_at s TOKEN_NUMBER 11 1))).

(** ** The list of objects *)

(** [b] is met when the [next] links are followed from [start]: the walk a
    collector makes over [vm.objects]. *)
Inductive path (h : gmap address ObjString) : option address -> address -> Prop :=
| path_here a : path h (Some a) a
| path_next a o b : h !! a = Some o -> path h (obj_next o) b -> path h (Some a) b.

(** [a] is on the list [vm.objects]. *)
Definition tracked (vm : VM) (a : address) : Prop := path (heap vm) (objects vm) a.

(** Every object on the list [vm.objects] is allocated. *)
Definition tracked_allocated (vm : VM) : Prop :=
  forall a, tracked vm a -> is_Some (heap vm !! a).

(** The buffer ['a', 'b', 0]. *)
Definition chars_ab : list byte := [Byte.x61; Byte.x62; Byte.x00].

(** A VM that holds one string ["a"], at address 1, which is neither
    interned nor on the list of objects: what [xallocateString] and
    [writeToString] leave behind. *)
Definition vm_a_scratch : VM := mkVM (<[1%positive := string_a None]> ∅) None ∅.

(** The tokens of ["(1 + 2 nil"]: no [')'] before the [nil]. *)
Definition src_unclosed_nil : list Token :=
  let s := "(1 + 2 nil"%string in
  [token_at s TOKEN_LEFT_PAREN 0 1; token_at s TOKEN_NUMBER 1 1; token_at s TOKEN_PLUS 3 1;
   token_at s TOKEN_NUMBER 5 1; token_at s TOKEN_NIL 7 3].

(** The tokens of ["@1"]: the scanner's error token for the ['@'], whose
    lexeme is the message, and the number. *)
Definition src_error_one : list Token :=
  [mkToken TOKEN_ERROR "Unexpected character." 21 1; token_at "@1" TOKEN_NUMBER 1 1].

(** * Properties *)

(** ** Tokens and the rule table *)

Lemma TokenType_index_inj (a b : TokenType) :
  TokenType_index a = TokenType_index b -> a = b.
Proof. destruct a; destruct b; simpl; intros E; (reflexivity || discriminate E). Qed.

Lemma TokenType_eqb_eq (a b : TokenType) : TokenType_eqb a b = true <-> a = b.
Proof.
  unfold TokenType_eqb. rewrite Nat.eqb_eq. split.
  - apply TokenType_index_inj.
  - intros ->. reflexivity.
Qed.

Lemma TokenType_eqb_neq (a b : TokenType) : TokenType_eqb a b = false <-> a <> b.
Proof.
  rewrite <- TokenType_eqb_eq. destruct (TokenType_eqb a b); split; congruence.
Qed.

Lemma all_TokenTypes_complete (t : TokenType) : In t all_TokenTypes.
Proof. destruct t; simpl; tauto. Qed.

(** The row of [rules] for each enumerator is the one its comment names:
    the table has one row per token type. *)
Lemma rules_length : length rules = length all_TokenTypes.
Proof. reflexivity. Qed.

(** Only the four arithmetic operators have a precedence above
    [PREC_NONE], and their infix action is [binary]. *)
Lemma rule_with_precedence (t : TokenType) :
  PREC_NONE < precedence (getRule t) ->
  infix (getRule t) = Some fn_binary /\
  (t = TOKEN_MINUS \/ t = TOKEN_PLUS \/ t = TOKEN_SLASH \/ t = TOKEN_STAR).
Proof.
  destruct t; cbv; intros Hp; try discriminate Hp; split; try reflexivity; tauto.
Qed.

Lemma precedence_nonneg (t : TokenType) : PREC_NONE <= precedence (getRule t).
Proof. destruct t; cbv; discriminate. Qed.

Lemma rule_EOF_or_prefix (t : TokenType) :
  prefix (getRule t) <> None -> t <> TOKEN_EOF.
Proof. intros Hp ->. apply Hp. reflexivity. Qed.

(** ** The steps of the parser *)

Lemma Step_refl st : Step st st.
Proof.
  split; [lia|]. exists []. rewrite app_nil_r, !orb_false_r. auto.
Qed.

Lemma nonempty_app {A} (l k : list A) : nonempty (l ++ k) = nonempty l || nonempty k.
Proof. destruct l; reflexivity. Qed.

Lemma Step_trans st1 st2 st3 : Step st1 st2 -> Step st2 st3 -> Step st1 st3.
Proof.
  intros [Hl1 (n1 & He1 & Hh1 & Hp1)] [Hl2 (n2 & He2 & Hh2 & Hp2)].
  split; [lia|]. exists (n1 ++ n2).
  rewrite He2, He1, Hh2, Hh1, Hp2, Hp1, nonempty_app, app_assoc, !orb_assoc. auto.
Qed.

Lemma advance_loop_spec (n : nat) : forall st,
  (length (pending (scanner st)) <= n)%nat ->
  let st' := advance_loop n st in
  previous (parser st') = previous (parser st) /\
  hadError (parser st') = hadError (parser st) /\
  panicMode (parser st') = panicMode (parser st) /\
  compilingChunk st' = compilingChunk st /\
  stderr st' = stderr st /\
  (tokens_left st' <= length (pending (scanner st)))%nat /\
  tok_type (current (parser st')) <> TOKEN_ERROR.
Proof.
  induction n as [|n IH]; intros st Hn; simpl.
  - destruct st as [p [pend line] ch err]; simpl in *.
    destruct pend as [|t rest]; [|simpl in Hn; lia].
    cbn. repeat split; auto; discriminate.
  - destruct st as [p [pend line] ch err]; simpl in *.
    destruct pend as [|t rest]; cbn.
    + repeat split; auto; discriminate.
    + destruct (TokenType_eqb (tok_type t) TOKEN_ERROR) eqn:E; cbn.
      * unfold errorAtCurrent.
        specialize (IH (mkState (mkParser (previous p) t (hadError p) (panicMode p))
                                (mkScanner rest (tok_line t)) ch err)).
        cbn in IH. destruct IH as (H1 & H2 & H3 & H4 & H5 & H6 & H7).
        { simpl in Hn. lia. }
        repeat split; auto; lia.
      * apply TokenType_eqb_neq in E. repeat split; auto.
        unfold tokens_left; cbn. destruct (TokenType_eqb (tok_type t) TOKEN_EOF); lia.
Qed.

Lemma advance_spec st :
  let st' := advance st in
  previous (parser st') = current (parser st) /\
  hadError (parser st') = hadError (parser st) /\
  panicMode (parser st') = panicMode (parser st) /\
  compilingChunk st' = compilingChunk st /\
  stderr st' = stderr st /\
  (tokens_left st' <= length (pending (scanner st)))%nat /\
  tok_type (current (parser st')) <> TOKEN_ERROR.
Proof.
  unfold advance.
  pose proof (advance_loop_spec (length (pending (scanner st)))
    (set_parser (mkParser (current (parser st)) (current (parser st))
                          (hadError (parser st)) (panicMode (parser st))) st)) as H.
  cbn in H. apply H. lia.
Qed.

(** After [advance] the current token is never an error token: the loop
    has skipped them all. *)
Lemma advance_current_not_error st :
  tok_type (current (parser (advance st))) <> TOKEN_ERROR.
Proof. apply advance_spec. Qed.

Lemma advance_Step st : Step st (advance st).
Proof.
  destruct (advance_spec st) as (_ & Hh & Hp & _ & He & Hl & _).
  split.
  - unfold tokens_left at 2. lia.
  - exists []. rewrite app_nil_r, !orb_false_r. auto.
Qed.

Lemma advance_decreases st :
  tok_type (current (parser st)) <> TOKEN_EOF ->
  (tokens_left (advance st) < tokens_left st)%nat.
Proof.
  intros Hne. destruct (advance_spec st) as (_ & _ & _ & _ & _ & Hl & _).
  unfold tokens_left at 2. apply TokenType_eqb_neq in Hne. rewrite Hne. lia.
Qed.

Lemma errorAt_Step token message st : Step st (errorAt token message st).
Proof.
  unfold errorAt. destruct (panicMode (parser st)) eqn:Hp; [apply Step_refl|].
  split; [unfold tokens_left; cbn; lia|].
  eexists [_]. cbn. rewrite Hp, orb_true_r. auto.
Qed.

Lemma error_Step message st : Step st (error message st).
Proof. apply errorAt_Step. Qed.

Lemma emitByte_Step byte st : Step st (emitByte byte st).
Proof.
  split; [unfold tokens_left; cbn; lia|].
  exists []. cbn. rewrite app_nil_r, !orb_false_r. auto.
Qed.

Lemma consume_Step type message st : Step st (consume type message st).
Proof.
  unfold consume, errorAtCurrent.
  destruct (TokenType_eqb _ _); [apply advance_Step | apply Step_refl].
Qed.

Lemma emitConstant_Step value st : Step st (emitConstant value st).
Proof.
  unfold emitConstant, makeConstant, addConstant, emitBytes.
  destruct (UINT8_MAX <? _).
  - eapply Step_trans; [|apply emitByte_Step].
    eapply Step_trans; [|apply emitByte_Step].
    eapply Step_trans; [|apply error_Step].
    split; [unfold tokens_left; cbn; lia|].
    exists []. cbn. rewrite app_nil_r, !orb_false_r. auto.
  - eapply Step_trans; [|apply emitByte_Step].
    eapply Step_trans; [|apply emitByte_Step].
    split; [unfold tokens_left; cbn; lia|].
    exists []. cbn. rewrite app_nil_r, !orb_false_r. auto.
Qed.

(** ** [parsePrecedence] returns *)

Section Returns.
Context `{CImpl}.

Lemma call_returns rec f (Hrec : returns_below rec f) fn st :
  (tokens_left st < f)%nat ->
  exists st', call rec (Some fn) st = Returns st' /\ Step st st'.
Proof.
  intros Hlt. destruct fn; simpl.
  - (* binary *)
    unfold binary.
    destruct (Hrec (precedence (getRule (tok_type (previous (parser st)))) + 1) st)
      as (st1 & E1 & HS1); auto.
    { pose proof (precedence_nonneg (tok_type (previous (parser st)))).
      unfold PREC_ASSIGN, PREC_NONE in *. lia. }
    rewrite E1. simpl.
    destruct (tok_type (previous (parser st)));
      eauto using Step_trans, emitByte_Step.
  - (* unary *)
    unfold unary.
    destruct (Hrec PREC_UNARY st) as (st1 & E1 & HS1); auto.
    { unfold PREC_ASSIGN, PREC_UNARY. lia. }
    rewrite E1. simpl.
    destruct (tok_type (previous (parser st)));
      eauto using Step_trans, emitByte_Step.
  - (* literal *)
    unfold literal.
    destruct (tok_type (previous (parser st)));
      eauto using Step_refl, emitByte_Step.
  - (* number *)
    unfold number. eauto using emitConstant_Step.
  - (* grouping *)
    unfold grouping, expression.
    destruct (Hrec PREC_ASSIGN st) as (st1 & E1 & HS1); auto; [reflexivity|].
    rewrite E1. simpl. eauto using Step_trans, consume_Step.
Qed.

Lemma infix_loop_returns rec f (Hrec : returns_below rec f) (n : nat) :
  forall prec st, PREC_ASSIGN <= prec -> (n <= f)%nat -> (tokens_left st <= n)%nat ->
  exists st', infix_loop rec n prec st = Returns st' /\ Step st st'.
Proof.
  induction n as [|n IH]; intros prec st Hprec Hnf Hn.
  - simpl. destruct (prec <=? _) eqn:Hc; [|eauto using Step_refl].
    apply Z.leb_le in Hc.
    destruct (rule_with_precedence (tok_type (current (parser st)))) as [_ Hop].
    { unfold PREC_ASSIGN, PREC_NONE in *. lia. }
    exfalso. unfold tokens_left in Hn.
    destruct (TokenType_eqb _ TOKEN_EOF) eqn:E; [|lia].
    apply TokenType_eqb_eq in E. rewrite E in Hop.
    destruct Hop as [?|[?|[?|?]]]; discriminate.
  - simpl. destruct (prec <=? _) eqn:Hc; [|eauto using Step_refl].
    apply Z.leb_le in Hc.
    destruct (rule_with_precedence (tok_type (current (parser st)))) as [Hinfix Hop].
    { unfold PREC_ASSIGN, PREC_NONE in *. lia. }
    assert (Hne : tok_type (current (parser st)) <> TOKEN_EOF).
    { destruct Hop as [E|[E|[E|E]]]; rewrite E; discriminate. }
    pose proof (advance_decreases st Hne) as Hdec.
    pose proof (advance_Step st) as HSa.
    destruct (advance_spec st) as (Hprev & _).
    rewrite Hprev, Hinfix.
    destruct (call_returns rec f Hrec fn_binary (advance st)) as (st1 & E1 & HS1); [lia|].
    rewrite E1. simpl.
    destruct (IH prec st1 Hprec) as (st2 & E2 & HS2); [lia| |].
    { destruct HS1 as [Hl _]. lia. }
    rewrite E2. eauto using Step_trans.
Qed.

Lemma parsePrecedence_returns (fuel : nat) :
  forall prec st, PREC_ASSIGN <= prec -> (tokens_left st < fuel)%nat ->
  exists st', parsePrecedence fuel prec st = Returns st' /\ Step st st'.
Proof.
  induction fuel as [|fuel IH]; intros prec st Hprec Hlt; [lia|].
  simpl. unfold parsePrecedence_body.
  pose proof (advance_Step st) as HSa.
  destruct (advance_spec st) as (Hprev & _).
  rewrite Hprev.
  destruct (prefix (getRule (tok_type (current (parser st))))) as [fn|] eqn:Hpre.
  - assert (Hne : tok_type (current (parser st)) <> TOKEN_EOF).
    { apply rule_EOF_or_prefix. congruence. }
    pose proof (advance_decreases st Hne) as Hdec.
    destruct (call_returns (parsePrecedence fuel) fuel IH fn (advance st))
      as (st1 & E1 & HS1); [lia|].
    rewrite E1. simpl.
    destruct (infix_loop_returns (parsePrecedence fuel) fuel IH fuel prec st1)
      as (st2 & E2 & HS2); auto.
    { destruct HS1 as [Hl _]. lia. }
    rewrite E2. eauto using Step_trans.
  - eauto using Step_trans, error_Step.
Qed.

(** [compile] returns, whatever the tokens, the chunk and the state it
    is entered in. *)
Lemma compile_returns source chunk st :
  exists st', compile source chunk st = Some (negb (hadError (parser st')), st') /\
    exists new, stderr st' = stderr st ++ new /\
      hadError (parser st') = hadError (parser st) || nonempty new /\
      panicMode (parser st') = panicMode (parser st) || nonempty new.
Proof.
  unfold compile, expression.
  set (st0 := mkState (parser st) (initScanner source) chunk (stderr st)).
  destruct (parsePrecedence_returns (S (tokens_left (advance st0))) PREC_ASSIGN (advance st0))
    as (st1 & E1 & HS1); [reflexivity|lia|].
  rewrite E1. eexists. split; [reflexivity|].
  assert (HS : Step st0 (endCompiler (consume TOKEN_EOF "Expected end of expression." st1))).
  { unfold endCompiler, emitReturn.
    eapply Step_trans; [|apply emitByte_Step].
    eapply Step_trans; [|apply consume_Step].
    eapply Step_trans; [apply advance_Step | exact HS1]. }
  destruct HS as [_ HS]. exact HS.
Qed.
End Returns.

(** ** The parser driver: [consume] and [compile] *)

(** When the current token is not the expected one, [consume] calls
    [errorAtCurrent], whose body is empty: nothing at all changes. *)
Lemma consume_mismatch type message st :
  tok_type (current (parser st)) <> type ->
  consume type message st = st.
Proof.
  intros Hne. unfold consume. apply TokenType_eqb_neq in Hne. rewrite Hne. reflexivity.
Qed.

(** C1, on the code: [compile("(1 + 2")], run in a process that has
    compiled nothing before, returns [true]; [hadError] is still [false]
    and nothing has been written to [stderr]. The missing [')'] reaches
    [consume], which hands it to the empty [errorAtCurrent]. *)
Theorem compile_unclosed_paren_succeeds `{CImpl} :
  exists st',
    compile src_unclosed initChunk startState = Some (true, st') /\
    hadError (parser st') = false /\
    stderr st' = [].
Proof. eexists. split; [vm_compute; reflexivity|]. split; reflexivity. Qed.

(** C2, as amended: [compile] does not touch [hadError] and [panicMode] on
    entry. It always returns, and what it returns is [true] exactly when
    [hadError] was [false] on entry and nothing was written to [stderr]
    during the call; [hadError] and [panicMode] are what they were on entry,
    or [true] when something was written. *)
Theorem compile_result `{CImpl} (source : list Token) (chunk : Chunk) (st : State) :
  exists st' new,
    compile source chunk st
      = Some (negb (hadError (parser st)) && negb (nonempty new), st') /\
    stderr st' = stderr st ++ new /\
    hadError (parser st') = hadError (parser st) || nonempty new /\
    panicMode (parser st') = panicMode (parser st) || nonempty new.
Proof.
  destruct (compile_returns source chunk st) as (st' & Hc & new & He & Hh & Hp).
  exists st', new. rewrite Hc, Hh, negb_orb. auto.
Qed.

(** C2, the claim fails: after [compile("+")] has failed in a fresh
    process, [compile("1")] returns [false] although it writes nothing to
    [stderr]; in a fresh process the same call returns [true]. *)
Lemma compile_after_failed_compile :
  exists st1 st2 st2',
    compile (H := host) src_plus initChunk startState = Some (false, st1) /\
    compile (H := host) src_one initChunk st1 = Some (false, st2) /\
    stderr st2 = stderr st1 /\
    hadError (parser st1) = true /\ panicMode (parser st1) = true /\
    compile (H := host) src_one initChunk startState = Some (true, st2').
Proof.
  do 3 eexists. split; [vm_compute; reflexivity|].
  split; [vm_compute; reflexivity|].
  split; [reflexivity|]. split; [reflexivity|]. split; [reflexivity|].
  vm_compute; reflexivity.
Qed.

(** ** The precedence engine *)

(** With a threshold of [PREC_NONE] the loop of [parsePrecedence] does call
    a null [infix]: on ["1"] it takes [TOKEN_EOF], whose row is all null. *)
Lemma parsePrecedence_NONE_null_call `{CImpl} :
  parsePrecedence 3 PREC_NONE
    (advance (mkState zeroParser (initScanner src_one) initChunk [])) = NullCall.
Proof. vm_compute. reflexivity. Qed.

(** C10: every row of [rules] with a precedence above [PREC_NONE] has an
    infix action, and a call of [parsePrecedence] with a threshold of
    [PREC_ASSIGN] or more returns (given a recursion allowance above the
    number of tokens left): it never calls a null [ParseFn]. *)
Theorem infix_dispatch_never_null `{CImpl} (fuel : nat) (prec : Precedence) (st : State) :
  PREC_ASSIGN <= prec ->
  (tokens_left st < fuel)%nat ->
  (forall t, PREC_NONE < precedence (getRule t) -> infix (getRule t) <> None) /\
  parsePrecedence fuel prec st <> NullCall /\
  exists st', parsePrecedence fuel prec st = Returns st'.
Proof.
  intros Hprec Hfuel. split.
  - intros t Ht. destruct (rule_with_precedence t Ht) as [E _]. rewrite E. discriminate.
  - destruct (parsePrecedence_returns fuel prec st Hprec Hfuel) as (st' & E & _).
    rewrite E. split; [discriminate|]. eauto.
Qed.

(** C5: the code emitted for ["1 + 2 * 3"], ["(1 + 2) * 3"] and
    ["1 + 2 + 3"] into an empty chunk, whatever the state [compile] is
    entered in. The constants are those of the literals 1, 2, 3 in this
    order ([strtod] is applied to the text from each literal on); [OP_MULT]
    comes before [OP_ADD] in the first, [OP_ADD] before [OP_MULT] in the
    second, and in the third the [OP_ADD] of [1 + 2] comes before the
    constant 3 is loaded. [binary] compiles its right operand with the
    threshold [precedence + 1]. *)
Theorem compile_precedence_examples `{CImpl} (st : State) :
  (exists st',
     compile src_add_mult initChunk st = Some (negb (hadError (parser st)), st') /\
     code (compilingChunk st') =
       [OpCode_byte OP_CONSTANT; 0; OpCode_byte OP_CONSTANT; 1;
        OpCode_byte OP_CONSTANT; 2; OpCode_byte OP_MULT; OpCode_byte OP_ADD;
        OpCode_byte OP_RETURN] /\
     constants (compilingChunk st') =
       [NUMBER_VAL (strtod "1 + 2 * 3"); NUMBER_VAL (strtod "2 * 3");
        NUMBER_VAL (strtod "3")]) /\
  (exists st',
     compile src_group_mult initChunk st = Some (negb (hadError (parser st)), st') /\
     code (compilingChunk st') =
       [OpCode_byte OP_CONSTANT; 0; OpCode_byte OP_CONSTANT; 1;
        OpCode_byte OP_ADD; OpCode_byte OP_CONSTANT; 2; OpCode_byte OP_MULT;
        OpCode_byte OP_RETURN] /\
     constants (compilingChunk st') =
       [NUMBER_VAL (strtod "1 + 2) * 3"); NUMBER_VAL (strtod "2) * 3");
        NUMBER_VAL (strtod "3")]) /\
  (exists st',
     compile src_add_add initChunk st = Some (negb (hadError (parser st)), st') /\
     code (compilingChunk st') =
       [OpCode_byte OP_CONSTANT; 0; OpCode_byte OP_CONSTANT; 1;
        OpCode_byte OP_ADD; OpCode_byte OP_CONSTANT; 2; OpCode_byte OP_ADD;
        OpCode_byte OP_RETURN] /\
     constants (compilingChunk st') =
       [NUMBER_VAL (strtod "1 + 2 + 3"); NUMBER_VAL (strtod "2 + 3");
        NUMBER_VAL (strtod "3")]) /\
  (forall rec st0,
     binary rec st0 =
       rec (precedence (getRule (tok_type (previous (parser st0)))) + 1) st0 >>= fun st1 =>
       match tok_type (previous (parser st0)) with
       | TOKEN_PLUS => Returns (emitByte OP_ADD st1)
       | TOKEN_MINUS => Returns (emitByte OP_SUB st1)
       | TOKEN_STAR => Returns (emitByte OP_MULT st1)
       | TOKEN_SLASH => Returns (emitByte OP_DIV st1)
       | _ => Returns st1
       end) /\
  precedence (getRule TOKEN_PLUS) + 1 = PREC_FACTOR /\
  precedence (getRule TOKEN_MINUS) + 1 = PREC_FACTOR /\
  precedence (getRule TOKEN_STAR) + 1 = PREC_UNARY /\
  precedence (getRule TOKEN_SLASH) + 1 = PREC_UNARY.
Proof.
  split; [|split; [|split]].
  - eexists. split; [vm_compute; reflexivity|]. split; reflexivity.
  - eexists. split; [vm_compute; reflexivity|]. split; reflexivity.
  - eexists. split; [vm_compute; reflexivity|]. split; reflexivity.
  - split; [reflexivity|]. repeat split.
Qed.

(** With a [strtod] that reads decimal digits, the three constants of
    ["1 + 2 * 3"] are the numbers 1, 2 and 3. *)
Lemma compile_add_mult_constants :
  exists st',
    compile (H := host) src_add_mult initChunk startState = Some (true, st') /\
    constants (compilingChunk st') =
      [NUMBER_VAL 1%float; NUMBER_VAL 2%float; NUMBER_VAL 3%float].
Proof. eexists. split; [vm_compute; reflexivity|]. reflexivity. Qed.

(** ** Constants *)

Lemma Step_panic_has_error st st' :
  Step st st' -> panic_has_error st -> panic_has_error st'.
Proof.
  intros [_ (new & _ & Hh & Hp)] Hinv. unfold panic_has_error in *.
  rewrite Hh, Hp. destruct (nonempty new).
  - intros _. apply orb_true_r.
  - rewrite !orb_false_r. exact Hinv.
Qed.

Lemma startState_panic_has_error : panic_has_error startState.
Proof. intros Hp. discriminate Hp. Qed.

(** [panic_has_error] holds when a process starts, and [compile] keeps
    it. *)
Lemma compile_panic_has_error `{CImpl} source chunk st st' result :
  panic_has_error st ->
  compile source chunk st = Some (result, st') ->
  panic_has_error st'.
Proof.
  intros Hinv Hc.
  destruct (compile_returns source chunk st) as (st'' & Hc' & new & _ & Hh & Hp).
  rewrite Hc in Hc'. injection Hc' as _ <-.
  unfold panic_has_error in *. rewrite Hh, Hp.
  destruct (nonempty new).
  - intros _. apply orb_true_r.
  - rewrite !orb_false_r. exact Hinv.
Qed.

(** While the pool has room, [emitConstant] appends the value to the pool
    and the two bytes [OP_CONSTANT], index to the code. *)
Lemma emitConstant_in_range value st :
  Z.of_nat (length (constants (compilingChunk st))) <= UINT8_MAX ->
  emitConstant value st =
    mkState (parser st) (scanner st)
      (mkChunk (code (compilingChunk st) ++
                  [OpCode_byte OP_CONSTANT; Z.of_nat (length (constants (compilingChunk st)))])
               (lines (compilingChunk st) ++
                  [tok_line (previous (parser st)); tok_line (previous (parser st))])
               (constants (compilingChunk st) ++ [value]))
      (stderr st).
Proof.
  intros Hc. unfold emitConstant, makeConstant, addConstant, currentChunk.
  assert (Hlt : (UINT8_MAX <? Z.of_nat (length (constants (compilingChunk st)))) = false)
    by (apply Z.ltb_ge; exact Hc).
  rewrite Hlt. unfold emitBytes, emitByte, writeChunk, currentChunk. cbn.
  rewrite Z.mod_small by (unfold UINT8_MAX in Hc; lia).
  rewrite <- !app_assoc. reflexivity.
Qed.

Lemma number_in_range `{CImpl} st :
  Z.of_nat (length (constants (compilingChunk st))) <= UINT8_MAX ->
  number st =
    Returns (mkState (parser st) (scanner st)
      (mkChunk (code (compilingChunk st) ++
                  [OpCode_byte OP_CONSTANT; Z.of_nat (length (constants (compilingChunk st)))])
               (lines (compilingChunk st) ++
                  [tok_line (previous (parser st)); tok_line (previous (parser st))])
               (constants (compilingChunk st) ++
                  [NUMBER_VAL (strtod (tok_start (previous (parser st))))]))
      (stderr st)).
Proof.
  intros Hc. unfold number. rewrite emitConstant_in_range by exact Hc. reflexivity.
Qed.

(** In panic mode the overflow is not printed a second time: [errorAt]
    returns at once. The placeholder is emitted all the same. *)
Lemma emitConstant_overflow_in_panic value st :
  UINT8_MAX < Z.of_nat (length (constants (compilingChunk st))) ->
  panicMode (parser st) = true ->
  let st' := emitConstant value st in
  code (compilingChunk st') = code (compilingChunk st) ++ [OpCode_byte OP_CONSTANT; 0] /\
  parser st' = parser st /\
  stderr st' = stderr st.
Proof.
  intros Hc Hp. apply Z.ltb_lt in Hc.
  unfold emitConstant, makeConstant, addConstant, currentChunk.
  rewrite Hc. unfold error, errorAt. cbn. rewrite Hp. cbn.
  rewrite <- app_assoc. auto.
Qed.

Lemma emitConstant_overflow_in_panic_example :
  stderr (emitConstant NIL_VAL
            (panicking (mkState zeroParser (initScanner []) full_chunk []))) = [].
Proof. vm_compute. reflexivity. Qed.

(** A whole compilation that runs out of indices: ["1+1+...+1"] with 258
    literals. The 257th and the 258th are loaded with the operand 0, the
    error is written once, every token is taken, and [compile] returns
    [false]. *)
Lemma compile_258_constants :
  exists st',
    compile (H := host) (src_sum 257) initChunk startState = Some (false, st') /\
    length (constants (compilingChunk st')) = 258%nat /\
    drop 764 (code (compilingChunk st')) =
      [OpCode_byte OP_CONSTANT; 255; OpCode_byte OP_ADD;
       OpCode_byte OP_CONSTANT; 0; OpCode_byte OP_ADD;
       OpCode_byte OP_CONSTANT; 0; OpCode_byte OP_ADD; OpCode_byte OP_RETURN] /\
    map diag_message (stderr st') = ["Too many constants in one chunk."%string] /\
    pending (scanner st') = [].
Proof.
  eexists. split; [vm_compute; reflexivity|].
  repeat split; vm_compute; reflexivity.
Qed.

(** C8, the claim fails: the overflow is not reported whenever it
    happens. [compile("1+++1+1+...+1")] with 258 literals, in a process
    that has compiled nothing before, reports "Expected expression" where
    the second ['+'] stands for an operand, and is in panic mode from there
    on; the 257th and the 258th literal overflow the pool and are loaded
    with the operand 0, and "Too many constants in one chunk." is never
    written. *)
Lemma compile_overflow_after_error_silent :
  exists st',
    compile (H := host) (src_error_sum 257) initChunk startState = Some (false, st') /\
    length (constants (compilingChunk st')) = 258%nat /\
    drop 765 (code (compilingChunk st')) =
      [OpCode_byte OP_CONSTANT; 255; OpCode_byte OP_ADD;
       OpCode_byte OP_CONSTANT; 0; OpCode_byte OP_ADD;
       OpCode_byte OP_CONSTANT; 0; OpCode_byte OP_ADD; OpCode_byte OP_RETURN] /\
    map diag_message (stderr st') = ["Expected expression"%string] /\
    pending (scanner st') = [].
Proof.
  eexists. split; [vm_compute; reflexivity|].
  repeat split; vm_compute; reflexivity.
Qed.

(** C8, as amended: when the pool already holds 256 constants or more, so
    that the index [addConstant] returns is above [UINT8_MAX],
    [makeConstant] returns 0 after calling
    [error("Too many constants in one chunk.")], and [emitConstant] emits
    [OP_CONSTANT] with the operand 0. Afterwards [hadError] and [panicMode]
    are set. The message is written to [stderr], at the current token,
    exactly when the parser is not in panic mode already; after an earlier
    error of the same or of a previous compilation nothing is written. No
    token is taken or skipped, and [number] returns to [parsePrecedence] as
    it does for any other literal. *)
Theorem constant_pool_overflow `{CImpl} (value : Value) (st : State) :
  UINT8_MAX < Z.of_nat (length (constants (compilingChunk st))) ->
  panic_has_error st ->
  let st' := emitConstant value st in
  fst (makeConstant value st) = 0 /\
  snd (makeConstant value st) =
    error "Too many constants in one chunk."
      (mkState (parser st) (scanner st)
               (snd (addConstant (compilingChunk st) value)) (stderr st)) /\
  code (compilingChunk st') = code (compilingChunk st) ++ [OpCode_byte OP_CONSTANT; 0] /\
  constants (compilingChunk st') = constants (compilingChunk st) ++ [value] /\
  hadError (parser st') = true /\
  panicMode (parser st') = true /\
  (panicMode (parser st) = false ->
   stderr st' =
     stderr st ++ [diagnostic (current (parser st)) "Too many constants in one chunk."]) /\
  (panicMode (parser st) = true -> stderr st' = stderr st) /\
  scanner st' = scanner st /\
  previous (parser st') = previous (parser st) /\
  current (parser st') = current (parser st) /\
  number st = Returns (emitConstant (NUMBER_VAL (strtod (tok_start (previous (parser st))))) st).
Proof.
  intros Hc Hinv. apply Z.ltb_lt in Hc.
  assert (Hnum : number st =
    Returns (emitConstant (NUMBER_VAL (strtod (tok_start (previous (parser st))))) st))
    by reflexivity.
  revert Hnum.
  unfold emitConstant, makeConstant, addConstant, currentChunk.
  rewrite Hc. unfold error, errorAt. cbn.
  destruct (panicMode (parser st)) eqn:Hp; cbn; rewrite <- ?app_assoc; intros Hnum;
    repeat split; auto; try exact Hp; try (apply Hinv; exact Hp); discriminate.
Qed.

Lemma constant_pool_overflow_witness :
  code (compilingChunk
          (emitConstant NIL_VAL (mkState zeroParser (initScanner []) full_chunk [])))
    = [OpCode_byte OP_CONSTANT; 0] /\
  hadError (parser
          (emitConstant NIL_VAL (mkState zeroParser (initScanner []) full_chunk [])))
    = true /\
  stderr (emitConstant NIL_VAL (mkState zeroParser (initScanner []) full_chunk []))
    = [diagnostic zeroToken "Too many constants in one chunk."].
Proof.
  pose proof (constant_pool_overflow (H := host) NIL_VAL
                (mkState zeroParser (initScanner []) full_chunk [])) as W.
  destruct W as (_ & _ & Hcode & _ & Hh & _ & Herr & _).
  - vm_compute. reflexivity.
  - intros Hp. vm_compute in Hp. discriminate Hp.
  - split; [exact Hcode|]. split; [exact Hh|]. apply Herr. reflexivity.
Defined.

(** C9: [compile("-3")], entered without a recorded error and with a pool
    that has room, returns [true]; it appends to the code exactly
    [OP_CONSTANT], the index of the new constant, [OP_NEGATE], [OP_RETURN],
    and to the pool exactly the number read from ["3"]; nothing is written
    to [stderr]. *)
Theorem compile_negate `{CImpl} (chunk : Chunk) (st : State) :
  hadError (parser st) = false ->
  Z.of_nat (length (constants chunk)) <= UINT8_MAX ->
  exists st',
    compile src_negate chunk st = Some (true, st') /\
    code (compilingChunk st') =
      code chunk ++ [OpCode_byte OP_CONSTANT; Z.of_nat (length (constants chunk));
                     OpCode_byte OP_NEGATE; OpCode_byte OP_RETURN] /\
    constants (compilingChunk st') = constants chunk ++ [NUMBER_VAL (strtod "3")] /\
    stderr st' = stderr st.
Proof.
  intros Hh Hc.
  unfold compile, expression.
  cbn -[number unary]. unfold unary. cbn -[number].
  rewrite number_in_range by exact Hc.
  cbn. rewrite Hh. cbn.
  eexists. split; [reflexivity|]. cbn.
  rewrite <- !app_assoc. auto.
Qed.

Lemma compile_negate_witness :
  exists st',
    compile (H := host) src_negate initChunk startState = Some (true, st') /\
    code (compilingChunk st') =
      [OpCode_byte OP_CONSTANT; 0; OpCode_byte OP_NEGATE; OpCode_byte OP_RETURN] /\
    constants (compilingChunk st') = [NUMBER_VAL 3%float].
Proof.
  destruct (compile_negate (H := host) initChunk startState) as (st' & Hc & Hcode & Hk & _).
  - reflexivity.
  - vm_compute. discriminate.
  - exists st'. split; [exact Hc|]. split; [exact Hcode|]. exact Hk.
Defined.

(** On ["1 + 2 * 3"] the loop dispatches twice, to [binary] for the ['+']
    and, inside its operand, to [binary] for the ['*']. *)
Lemma infix_dispatch_never_null_witness :
  infix (getRule TOKEN_PLUS) <> None /\
  infix (getRule TOKEN_STAR) <> None /\
  exists st',
    parsePrecedence (H := host) 6 PREC_ASSIGN
      (advance (mkState zeroParser (initScanner src_add_mult) initChunk [])) = Returns st' /\
    code (compilingChunk st') =
      [OpCode_byte OP_CONSTANT; 0; OpCode_byte OP_CONSTANT; 1; OpCode_byte OP_CONSTANT; 2;
       OpCode_byte OP_MULT; OpCode_byte OP_ADD] /\
    tok_type (current (parser st')) = TOKEN_EOF.
Proof.
  destruct (infix_dispatch_never_null (H := host) 6 PREC_ASSIGN
              (advance (mkState zeroParser (initScanner src_add_mult) initChunk [])))
    as (Hrules & _ & st' & Hr).
  - vm_compute. discriminate.
  - vm_compute. lia.
  - split; [apply Hrules; reflexivity|]. split; [apply Hrules; reflexivity|].
    exists st'. split; [exact Hr|].
    assert (E : Returns st' =
                parsePrecedence (H := host) 6 PREC_ASSIGN
                  (advance (mkState zeroParser (initScanner src_add_mult) initChunk [])))
      by (symmetry; exact Hr).
    vm_compute in E. injection E as ->. split; reflexivity.
Defined.

(** ** value.h *)

Lemma Value_one_tag (v : Value) :
  (IS_BOOL v = true /\ IS_NIL v = false /\ IS_NUMBER v = false) \/
  (IS_BOOL v = false /\ IS_NIL v = true /\ IS_NUMBER v = false) \/
  (IS_BOOL v = false /\ IS_NIL v = false /\ IS_NUMBER v = true).
Proof. destruct v as [[] a]; cbv; tauto. Qed.

(** C4, the claim fails: there is no fourth variant. A [Value] that is not
    a bool, not nil and not a number (an object, say) does not exist. *)
Lemma Value_no_fourth_variant :
  ~ exists v : Value, IS_BOOL v = false /\ IS_NIL v = false /\ IS_NUMBER v = false.
Proof.
  intros (v & Hb & Hn & Hd).
  destruct (Value_one_tag v) as [(E & _)|[(_ & E & _)|(_ & _ & E)]]; congruence.
Qed.

(** C4, as amended: [Value] is a tagged union with exactly the three
    variants bool, nil and number. A value has exactly one of the three
    tags, and in a value built by [BOOL_VAL], [NIL_VAL] or [NUMBER_VAL] the
    member of the union that matches the tag is the one that was stored:
    reading it gives the payload back, reading the other one gives nothing
    ([NIL_VAL] stores the number 0). *)
Theorem Value_three_variants (v : Value) :
  constructed v ->
  ((IS_BOOL v = true /\ IS_NIL v = false /\ IS_NUMBER v = false) \/
   (IS_BOOL v = false /\ IS_NIL v = true /\ IS_NUMBER v = false) \/
   (IS_BOOL v = false /\ IS_NIL v = false /\ IS_NUMBER v = true)) /\
  (IS_BOOL v = true ->
     exists b, v = BOOL_VAL b /\ AS_BOOL v = Some b /\ AS_NUMBER v = None) /\
  (IS_NIL v = true -> v = NIL_VAL) /\
  (IS_NUMBER v = true ->
     exists n, v = NUMBER_VAL n /\ AS_NUMBER v = Some n /\ AS_BOOL v = None).
Proof.
  intros Hv. split; [apply Value_one_tag|].
  destruct Hv as [b| |n]; cbv; repeat split; intros E; try discriminate E; eauto.
Qed.

Lemma Value_three_variants_witness :
  constructed (BOOL_VAL true) /\
  exists b, BOOL_VAL true = BOOL_VAL b /\ AS_BOOL (BOOL_VAL true) = Some b /\
            AS_NUMBER (BOOL_VAL true) = None.
Proof.
  split; [constructor|].
  destruct (Value_three_variants (BOOL_VAL true) (constructed_bool true)) as (_ & Hb & _).
  exact (Hb eq_refl).
Defined.

(** ** object.c: hashing and copying *)

Section Strings.
Context `{CImpl}.

Lemma hashString_loop_spec (key : list byte) (n : nat) :
  forall (i : nat) (hash : Z),
  (i + n <= length key)%nat ->
  hashString_loop key n i hash =
    Some (fold_left (fun hash c => (Z.lxor hash (char_to_uint32 c) * 16777619) mod 2 ^ 32)
                    (take n (drop i key)) hash).
Proof.
  induction n as [|n IH]; intros i hash Hlen; simpl.
  - reflexivity.
  - destruct (key !! i) as [c|] eqn:Hc.
    + rewrite IH by lia.
      rewrite (drop_S key c i Hc). simpl. reflexivity.
    + apply lookup_ge_None in Hc. lia.
Qed.

(** Within the buffer, [hashString] hashes the first [len] bytes. *)
Lemma hashString_spec (key : list byte) (len : Z) :
  (Z.to_nat len <= length key)%nat ->
  hashString key len = Some (hash_bytes (take (Z.to_nat len) key)).
Proof.
  intros Hlen. unfold hashString, hash_bytes.
  rewrite hashString_loop_spec by (simpl; lia). rewrite drop_0. reflexivity.
Qed.

(** On bytes below 128, and on all bytes where [char] is unsigned, the
    loop is FNV-1a. *)
Lemma hash_bytes_fnv1a (bytes : list byte) :
  (char_is_signed = false \/ Forall (fun c => Z.of_N (Byte.to_N c) < 128) bytes) ->
  hash_bytes bytes = fnv1a bytes.
Proof.
  unfold hash_bytes, fnv1a. generalize 2166136261.
  induction bytes as [|c bytes IH]; intros h Hb; simpl; [reflexivity|].
  assert (Hc : char_to_uint32 c = Z.of_N (Byte.to_N c)).
  { unfold char_to_uint32.
    pose proof (Byte.to_N_bounded c) as Hbound.
    assert (Hsmall : (if char_is_signed && (128 <=? Z.of_N (Byte.to_N c))
                      then Z.of_N (Byte.to_N c) - 256 else Z.of_N (Byte.to_N c))
                     = Z.of_N (Byte.to_N c)).
    { destruct Hb as [Hs|Hf].
      - rewrite Hs. reflexivity.
      - inversion Hf as [|? ? Hlt _]; subst.
        replace (128 <=? Z.of_N (Byte.to_N c)) with false by (symmetry; apply Z.leb_gt; lia).
        rewrite andb_false_r. reflexivity. }
    rewrite Hsmall. apply Z.mod_small. lia. }
  rewrite Hc. apply IH.
  destruct Hb as [Hs|Hf]; [left; exact Hs|right]. inversion Hf; assumption.
Qed.
End Strings.

(** Where [char] is signed, a byte above 127 is hashed differently from
    FNV-1a. *)
Lemma hash_bytes_signed_char :
  hash_bytes (H := host) [Byte.x80] <> fnv1a [Byte.x80].
Proof. vm_compute. discriminate. Qed.

Section Copying.
Context `{CImpl}.

Lemma store_in_range (buffer : list byte) (i : nat) (c : byte) :
  (i < length buffer)%nat ->
  store buffer (Z.of_nat i) c = Some (<[i := c]> buffer).
Proof.
  intros Hi. unfold store.
  replace (0 <=? Z.of_nat i) with true by (symmetry; apply Z.leb_le; lia).
  replace (Z.of_nat i <? Z.of_nat (length buffer)) with true
    by (symmetry; apply Z.ltb_lt; lia).
  simpl. rewrite Nat2Z.id. reflexivity.
Qed.

(** The loop of [writeToString] copies [n] bytes, from index [i] on. *)
Lemma copy_length_spec (chars : list byte) (n : nat) :
  forall (i : nat) (dst : list byte),
  (i + n <= length chars)%nat ->
  (i + n <= length dst)%nat ->
  copy_length chars n (Z.of_nat i) dst =
    Some (take i dst ++ take n (drop i chars) ++ drop (i + n) dst).
Proof.
  induction n as [|n IH]; intros i dst Hc Hd; simpl.
  - rewrite Nat.add_0_r, take_drop. reflexivity.
  - rewrite Nat2Z.id.
    destruct (chars !! i) as [c|] eqn:Hci; [|apply lookup_ge_None in Hci; lia].
    rewrite store_in_range by lia.
    replace (Z.of_nat i + 1) with (Z.of_nat (S i)) by lia.
    rewrite IH by (rewrite ?length_insert; lia).
    f_equal.
    rewrite (drop_S chars c i Hci). simpl.
    rewrite (take_S_r (<[i:=c]> dst) i c) by (apply list_lookup_insert_eq; lia).
    rewrite take_insert_ge by lia.
    rewrite drop_insert_lt by lia.
    rewrite <- app_assoc. simpl.
    replace (i + S n)%nat with (S (i + n)) by lia. reflexivity.
Qed.

Lemma length_fresh_block_chars (g : Garbage) (len : Z) :
  length (str_chars (fresh_block g len)) = Z.to_nat (len + 1).
Proof. simpl. rewrite length_map, length_seq. reflexivity. Qed.

(** [xallocateString] followed by [writeToString]: the scratch string of
    [copyString], at a fresh address, with the first [n] bytes of [chars]
    as its content. *)
Lemma scratch_string (g : Garbage) (chars : list byte) (n : nat) (vm : VM) :
  (n <= length chars)%nat ->
  exists vm1,
    xallocateString g (Z.of_nat n) vm = Some (fresh (dom (heap vm)), vm1) /\
    writeToString (fresh (dom (heap vm))) chars vm1 =
      Some (mkVM (<[fresh (dom (heap vm)) :=
                     string_object (g_next g) (take n chars)]> (heap vm))
                 (objects vm) (strings vm)).
Proof.
  intros Hchars.
  assert (Hbuf : length (map (g_chars g) (seq 0 (S n))) = S n)
    by (rewrite length_map, length_seq; reflexivity).
  unfold xallocateString, xallocateObject, fresh_block.
  replace (Z.to_nat (Z.of_nat n + 1)) with (S n) by lia.
  remember (map (g_chars g) (seq 0 (S n))) as buffer0 eqn:Ebuffer0.
  clear Ebuffer0. simpl.
  rewrite lookup_insert_eq. simpl.
  rewrite store_in_range by lia. simpl.
  eexists. split; [reflexivity|].
  unfold writeToString, set_string. simpl.
  rewrite insert_insert_eq, lookup_insert_eq. simpl.
  rewrite Nat2Z.id.
  set (buffer := <[n := Byte.x00]> buffer0).
  assert (Hb : length buffer = S n) by (unfold buffer; rewrite length_insert; exact Hbuf).
  pose proof (copy_length_spec chars n 0 buffer) as Hcopy.
  change (Z.of_nat 0) with 0 in Hcopy. simpl in Hcopy.
  rewrite Hcopy by lia. simpl. clear Hcopy.
  rewrite drop_0.
  assert (Htake : length (take n chars) = n) by (rewrite length_take; lia).
  destruct (drop n buffer) as [|last rest] eqn:Hdrop.
  { apply (f_equal length) in Hdrop. rewrite length_drop in Hdrop. simpl in Hdrop. lia. }
  assert (rest = []) as Hrest.
  { apply (f_equal length) in Hdrop. rewrite length_drop in Hdrop. simpl in Hdrop.
    destruct rest; [reflexivity|simpl in Hdrop; lia]. }
  rewrite Hrest.
  rewrite store_in_range by (rewrite length_app; simpl; lia).
  simpl.
  replace (<[n:=Byte.x00]> (take n chars ++ [last])) with (take n chars ++ [Byte.x00]).
  2:{ rewrite <- Htake at 2. rewrite insert_app_r_alt by lia.
      rewrite Nat.sub_diag. reflexivity. }
  rewrite hashString_spec by (rewrite length_app, Nat2Z.id, Htake; simpl; lia).
  rewrite Nat2Z.id. rewrite take_app_le by (rewrite Htake; lia).
  rewrite (take_ge (take n chars) n) by (rewrite Htake; lia). simpl.
  rewrite insert_insert_eq.
  unfold string_object. rewrite Htake. reflexivity.
Qed.

(** [copyString] in one piece: the lookup decides between the canonical
    instance (the scratch string is freed) and the scratch string (it is
    put in the table). *)
Lemma copyString_spec (g : Garbage) (chars : list byte) (len : Z) (vm : VM) :
  0 <= len ->
  (Z.to_nat len <= length chars)%nat ->
  let temp := fresh (dom (heap vm)) in
  let content := take (Z.to_nat len) chars in
  let h := <[temp := string_object (g_next g) content]> (heap vm) in
  copyString g chars len vm =
    match tableFindString h (strings vm) (content ++ [Byte.x00]) len (hash_bytes content) with
    | Some interned => Some (interned, mkVM (delete temp h) (objects vm) (strings vm))
    | None => Some (temp, mkVM h (objects vm) (tableSet (strings vm) temp NIL_VAL))
    end.
Proof.
  intros Hlen Hchars temp content h.
  destruct (scratch_string g chars (Z.to_nat len) vm Hchars) as (vm1 & Hx & Hw).
  rewrite Z2Nat.id in Hx by exact Hlen.
  unfold copyString. rewrite Hx. simpl. rewrite Hw. simpl.
  rewrite lookup_insert_eq. simpl. reflexivity.
Qed.
End Copying.

(** ** object.c: the intern table *)

Lemma list_find_agree {A} (P Q : A -> Prop) `{!forall x, Decision (P x)}
    `{!forall x, Decision (Q x)} (l : list A) :
  (forall x, x ∈ l -> P x <-> Q x) ->
  list_find P l = list_find Q l.
Proof.
  induction l as [|x l IH]; intros HPQ; simpl; [reflexivity|].
  assert (Hx : P x <-> Q x) by (apply HPQ; left).
  rewrite IH by (intros y Hy; apply HPQ; right; exact Hy).
  destruct (decide (P x)), (decide (Q x)); tauto.
Qed.

Lemma key_matches_agree h h' chars chars' len hash (entry : address * Value) :
  h !! entry.1 = h' !! entry.1 ->
  take (Z.to_nat len) chars = take (Z.to_nat len) chars' ->
  key_matches h chars len hash entry <-> key_matches h' chars' len hash entry.
Proof.
  intros Hh Hc. unfold key_matches. rewrite Hh, Hc. reflexivity.
Qed.

(** The lookup reads only the objects that are keys of the table, and of
    [chars] only the first [len] bytes. *)
Lemma tableFindString_agree h h' (table : Table) chars chars' len hash :
  (forall k, is_Some (table !! k) -> h !! k = h' !! k) ->
  take (Z.to_nat len) chars = take (Z.to_nat len) chars' ->
  tableFindString h table chars len hash = tableFindString h' table chars' len hash.
Proof.
  intros Hh Hc. unfold tableFindString. f_equal.
  apply list_find_agree. intros [k v] Hin.
  apply key_matches_agree; [|exact Hc].
  apply Hh. apply elem_of_map_to_list in Hin. simpl. eauto.
Qed.

(** What the lookup finds is a key of the table whose object matches. *)
Lemma tableFindString_Some h (table : Table) chars len hash k :
  tableFindString h table chars len hash = Some k ->
  exists v, table !! k = Some v /\ key_matches h chars len hash (k, v).
Proof.
  unfold tableFindString. intros Hf.
  destruct (list_find _ _) as [[i [k' v]]|] eqn:E; [|discriminate Hf].
  simpl in Hf. injection Hf as ->.
  apply list_find_Some in E as (Hl & HP & _).
  exists v. split; [|exact HP].
  apply elem_of_map_to_list. eapply list_elem_of_lookup_2. exact Hl.
Qed.

(** After a miss, once the string is put in the table under a key whose
    object matches, the lookup finds that key and no other. *)
Lemma tableFindString_after_set h (table : Table) chars len hash key value :
  tableFindString h table chars len hash = None ->
  key_matches h chars len hash (key, value) ->
  tableFindString h (tableSet table key value) chars len hash = Some key.
Proof.
  intros Hnone Hkey. unfold tableFindString, tableSet in *.
  destruct (list_find _ (map_to_list table)) eqn:Eold; [discriminate Hnone|].
  apply list_find_None in Eold.
  destruct (list_find_elem_of (key_matches h chars len hash)
              (map_to_list (<[key:=value]> table)) (key, value)) as [[i [k v]] E].
  { apply elem_of_map_to_list. apply lookup_insert_eq. }
  { exact Hkey. }
  rewrite E. simpl. f_equal.
  apply list_find_Some in E as (Hl & HP & _).
  apply list_elem_of_lookup_2, elem_of_map_to_list in Hl.
  apply lookup_insert_Some in Hl as [[Ek _]|[Hne Hold]]; [congruence|].
  exfalso. rewrite Forall_forall in Eold.
  apply (Eold (k, v)); [|exact HP].
  apply elem_of_map_to_list. exact Hold.
Qed.

Lemma fresh_not_allocated (vm : VM) : heap vm !! fresh (dom (heap vm)) = None.
Proof. apply not_elem_of_dom. apply is_fresh. Qed.

Lemma fresh_not_key (vm : VM) :
  table_allocated vm -> strings vm !! fresh (dom (heap vm)) = None.
Proof.
  intros Hwf. apply not_elem_of_dom. intros Hin.
  apply (is_fresh (dom (heap vm))). apply Hwf. exact Hin.
Qed.

(** C7: two calls of [copyString] with the same [len] bytes of content,
    the first of which does not find the content in the intern table. Both
    return the same reference: the first call returns its scratch string,
    which it has put in the table; the second finds it there, frees its own
    scratch string and returns the one of the first. The table has grown by
    exactly one entry after the two calls. *)
Theorem copyString_twice `{CImpl} (g1 g2 : Garbage) (chars1 chars2 : list byte)
    (len : Z) (vm : VM) :
  0 <= len ->
  (Z.to_nat len <= length chars1)%nat ->
  (Z.to_nat len <= length chars2)%nat ->
  take (Z.to_nat len) chars1 = take (Z.to_nat len) chars2 ->
  table_allocated vm ->
  not_interned chars1 len vm ->
  exists r vm1 vm2,
    copyString g1 chars1 len vm = Some (r, vm1) /\
    copyString g2 chars2 len vm1 = Some (r, vm2) /\
    heap vm1 !! r = Some (string_object (g_next g1) (take (Z.to_nat len) chars1)) /\
    strings vm1 = tableSet (strings vm) r NIL_VAL /\
    strings vm2 = strings vm1 /\
    heap vm2 = heap vm1 /\
    size (strings vm1) = S (size (strings vm)) /\
    size (strings vm2) = S (size (strings vm)).
Proof.
  intros Hlen Hc1 Hc2 Hsame Hwf Hmiss.
  set (content := take (Z.to_nat len) chars1) in *.
  set (p := fresh (dom (heap vm))).
  set (h1 := <[p := string_object (g_next g1) content]> (heap vm)).
  assert (Hcontent : length content = Z.to_nat len)
    by (unfold content; rewrite length_take; lia).
  assert (Hprefix : take (Z.to_nat len) (content ++ [Byte.x00]) = content).
  { rewrite take_app_le by lia. apply take_ge. lia. }
  assert (Hp_heap : heap vm !! p = None) by apply fresh_not_allocated.
  assert (Hp_key : strings vm !! p = None) by (apply fresh_not_key; exact Hwf).
  assert (Hkeys : forall k, is_Some (strings vm !! k) -> is_Some (heap vm !! k)).
  { intros k Hk. apply elem_of_dom. apply Hwf. apply elem_of_dom. exact Hk. }
  (* the first call misses *)
  assert (Hfind1 : tableFindString h1 (strings vm) (content ++ [Byte.x00]) len
                     (hash_bytes content) = None).
  { rewrite <- Hmiss. apply tableFindString_agree.
    - intros k Hk. unfold h1. apply lookup_insert_ne.
      intros <-. rewrite Hp_key in Hk. destruct Hk; discriminate.
    - rewrite Hprefix. reflexivity. }
  pose proof (copyString_spec g1 chars1 len vm Hlen Hc1) as Hcall1.
  cbv zeta in Hcall1. fold content p h1 in Hcall1. rewrite Hfind1 in Hcall1.
  set (vm1 := mkVM h1 (objects vm) (tableSet (strings vm) p NIL_VAL)) in *.
  (* the second call finds the string of the first *)
  set (p2 := fresh (dom (heap vm1))).
  set (h2 := <[p2 := string_object (g_next g2) content]> h1).
  assert (Hp2 : h1 !! p2 = None) by apply (fresh_not_allocated vm1).
  assert (Hpp2 : p2 <> p).
  { intros E. rewrite E in Hp2. unfold h1 in Hp2. rewrite lookup_insert_eq in Hp2.
    discriminate. }
  assert (Hfind2 : tableFindString h2 (tableSet (strings vm) p NIL_VAL)
                     (content ++ [Byte.x00]) len (hash_bytes content) = Some p).
  { apply tableFindString_after_set.
    - rewrite <- Hmiss. apply tableFindString_agree.
      + intros k Hk. unfold h2, h1.
        rewrite lookup_insert_ne, lookup_insert_ne; [reflexivity| |].
        * intros <-. rewrite Hp_key in Hk. destruct Hk; discriminate.
        * intros <-. apply Hkeys in Hk. unfold h1 in Hp2.
          rewrite lookup_insert_ne in Hp2 by (intros E; apply Hpp2; symmetry; exact E).
          rewrite Hp2 in Hk. destruct Hk; discriminate.
      + rewrite Hprefix. reflexivity.
    - unfold key_matches, h2, h1. simpl.
      rewrite lookup_insert_ne by exact Hpp2. rewrite lookup_insert_eq. simpl.
      rewrite Hcontent. split; [lia|]. split; reflexivity. }
  pose proof (copyString_spec g2 chars2 len vm1 Hlen Hc2) as Hcall2.
  cbv zeta in Hcall2. rewrite <- Hsame in Hcall2.
  fold content in Hcall2. simpl in Hcall2.
  change (fresh (dom h1)) with p2 in Hcall2. fold h2 in Hcall2.
  rewrite Hfind2 in Hcall2.
  exists p, vm1, (mkVM (delete p2 h2) (objects vm) (tableSet (strings vm) p NIL_VAL)).
  assert (Hsize : size (tableSet (strings vm) p NIL_VAL) = S (size (strings vm)))
    by (apply map_size_insert_None; exact Hp_key).
  split; [exact Hcall1|]. split; [exact Hcall2|]. simpl.
  split; [unfold h1; apply lookup_insert_eq|].
  split; [reflexivity|]. split; [reflexivity|].
  split; [unfold h2; apply delete_insert_id; exact Hp2|].
  split; exact Hsize.
Qed.

Lemma copyString_twice_witness :
  exists r vm1 vm2,
    copyString (H := host) garbage_55 [Byte.x61; Byte.x62] 2 emptyVM = Some (r, vm1) /\
    copyString (H := host) garbage_55 [Byte.x61; Byte.x62; Byte.x63] 2 vm1 = Some (r, vm2) /\
    size (strings vm2) = 1%nat.
Proof.
  destruct (copyString_twice (H := host) garbage_55 garbage_55
              [Byte.x61; Byte.x62] [Byte.x61; Byte.x62; Byte.x63] 2 emptyVM)
    as (r & vm1 & vm2 & H1 & H2 & _ & _ & _ & _ & _ & Hsize).
  - lia.
  - simpl. lia.
  - simpl. lia.
  - reflexivity.
  - unfold table_allocated. simpl. set_solver.
  - vm_compute. reflexivity.
  - exists r, vm1, vm2. split; [exact H1|]. split; [exact H2|]. exact Hsize.
Defined.

(** When the first lookup hits, both calls return the canonical instance
    that is already there and the table does not change. *)
Lemma copyString_again_interned `{CImpl} (g1 g2 : Garbage) (chars1 chars2 : list byte)
    (len : Z) (vm : VM) (interned : address) :
  0 <= len ->
  (Z.to_nat len <= length chars1)%nat ->
  (Z.to_nat len <= length chars2)%nat ->
  take (Z.to_nat len) chars1 = take (Z.to_nat len) chars2 ->
  table_allocated vm ->
  tableFindString (heap vm) (strings vm) chars1 len
                  (hash_bytes (take (Z.to_nat len) chars1)) = Some interned ->
  copyString g1 chars1 len vm = Some (interned, vm) /\
  copyString g2 chars2 len vm = Some (interned, vm).
Proof.
  intros Hlen Hc1 Hc2 Hsame Hwf Hhit.
  set (content := take (Z.to_nat len) chars1) in *.
  assert (Hcontent : length content = Z.to_nat len)
    by (unfold content; rewrite length_take; lia).
  assert (Hprefix : take (Z.to_nat len) (content ++ [Byte.x00]) = content).
  { rewrite take_app_le by lia. apply take_ge. lia. }
  assert (Hp_heap : heap vm !! fresh (dom (heap vm)) = None) by apply fresh_not_allocated.
  assert (Hp_key : strings vm !! fresh (dom (heap vm)) = None)
    by (apply fresh_not_key; exact Hwf).
  assert (Hfind : forall g,
    tableFindString (<[fresh (dom (heap vm)) := string_object (g_next g) content]> (heap vm))
      (strings vm) (content ++ [Byte.x00]) len (hash_bytes content) = Some interned).
  { intros g. rewrite <- Hhit. apply tableFindString_agree.
    - intros k Hk. apply lookup_insert_ne.
      intros <-. rewrite Hp_key in Hk. destruct Hk; discriminate.
    - rewrite Hprefix. reflexivity. }
  pose proof (copyString_spec g1 chars1 len vm Hlen Hc1) as Hcall1.
  pose proof (copyString_spec g2 chars2 len vm Hlen Hc2) as Hcall2.
  cbv zeta in Hcall1, Hcall2. rewrite <- Hsame in Hcall2.
  fold content in Hcall1, Hcall2.
  rewrite Hfind in Hcall1, Hcall2.
  rewrite delete_insert_id in Hcall1, Hcall2 by exact Hp_heap.
  destruct vm as [h o t]. simpl in *. auto.
Qed.

(** ** object.c: [allocateString] *)

Lemma byte_is_nul (c : byte) : N.eqb (Byte.to_N c) 0 = true <-> c = Byte.x00.
Proof. destruct c; simpl; split; congruence. Qed.

(** The loop of [allocateString] on a C string: it copies the characters
    before the first NUL, as many as there are. *)
Lemma copy_until_nul_spec (content rest : list byte) :
  forall (i : nat) (dst : list byte),
  Forall (fun c => c <> Byte.x00) content ->
  (i + length content <= length dst)%nat ->
  copy_until_nul (content ++ Byte.x00 :: rest) (Z.of_nat i) dst =
    Some (take i dst ++ content ++ drop (i + length content) dst).
Proof.
  induction content as [|c content IH]; intros i dst Hnn Hlen; simpl.
  - rewrite Nat.add_0_r, take_drop. reflexivity.
  - inversion Hnn as [|? ? Hc Hrest]; subst.
    destruct (N.eqb (Byte.to_N c) 0) eqn:E; [apply byte_is_nul in E; contradiction|].
    simpl in Hlen. rewrite store_in_range by lia.
    replace (Z.of_nat i + 1) with (Z.of_nat (S i)) by lia.
    rewrite IH by (rewrite ?length_insert; auto; lia).
    f_equal.
    rewrite (take_S_r (<[i:=c]> dst) i c) by (apply list_lookup_insert_eq; lia).
    rewrite take_insert_ge by lia.
    rewrite drop_insert_lt by lia.
    rewrite <- app_assoc. simpl.
    replace (i + S (length content))%nat with (S i + length content)%nat by lia.
    reflexivity.
Qed.

(** Where [allocateString] does what C6 says: on a buffer that holds
    [len] bytes without a NUL and then a NUL. The new object is tracked
    (it is the head of [vm.objects]), holds exactly these bytes and a
    terminator, and its hash is the one of these bytes. *)
Lemma allocateString_c_string `{CImpl} (g : Garbage) (content rest : list byte) (vm : VM) :
  Forall (fun c => c <> Byte.x00) content ->
  allocateString g (content ++ Byte.x00 :: rest) (Z.of_nat (length content)) vm =
    Some (fresh (dom (heap vm)),
          mkVM (<[fresh (dom (heap vm)) := string_object (objects vm) content]> (heap vm))
               (Some (fresh (dom (heap vm)))) (strings vm)).
Proof.
  intros Hnn. set (n := length content).
  assert (Hbuf : length (map (g_chars g) (seq 0 (S n))) = S n)
    by (rewrite length_map, length_seq; reflexivity).
  unfold allocateString, allocateObject, fresh_block.
  replace (Z.to_nat (Z.of_nat n + 1)) with (S n) by lia.
  remember (map (g_chars g) (seq 0 (S n))) as buffer eqn:Ebuffer. clear Ebuffer.
  simpl. rewrite lookup_insert_eq. simpl.
  pose proof (copy_until_nul_spec content rest 0 buffer Hnn) as Hcopy.
  change (Z.of_nat 0) with 0 in Hcopy. simpl in Hcopy. fold n in Hcopy.
  rewrite Hcopy by lia. simpl. clear Hcopy.
  destruct (drop n buffer) as [|last tail] eqn:Hdrop.
  { apply (f_equal length) in Hdrop. rewrite length_drop in Hdrop. simpl in Hdrop. lia. }
  assert (tail = []) as Htail.
  { apply (f_equal length) in Hdrop. rewrite length_drop in Hdrop. simpl in Hdrop.
    destruct tail; [reflexivity|simpl in Hdrop; lia]. }
  rewrite Htail.
  rewrite store_in_range by (rewrite length_app; simpl; fold n; lia).
  simpl.
  replace (<[n:=Byte.x00]> (content ++ [last])) with (content ++ [Byte.x00]).
  2:{ unfold n. rewrite insert_app_r_alt by lia. rewrite Nat.sub_diag. reflexivity. }
  rewrite hashString_spec by (rewrite length_app, Nat2Z.id; simpl; fold n; lia).
  rewrite Nat2Z.id.
  replace (take n (content ++ [Byte.x00])) with content
    by (symmetry; apply take_app_length).
  simpl. unfold set_string. simpl. rewrite insert_insert_eq. reflexivity.
Qed.

Lemma takeString_allocateString `{CImpl} g chars len vm :
  takeString g chars len vm = allocateString g chars len vm.
Proof. reflexivity. Qed.

(** C6, on the code: [allocateString] (and so [takeString]) called with
    the three bytes ['a'], NUL, ['b'] and the length 3. The copying loop
    stops at the NUL: only ['a'] is copied, the second and third byte of
    the new string are what the block held when it was allocated, and the
    hash is taken over these. The content is the one passed in only if the
    block happened to hold it already. *)
Theorem allocateString_stops_at_nul `{CImpl} (g : Garbage) (vm : VM) :
  exists string vm' o,
    allocateString g chars_a_nul_b 3 vm = Some (string, vm') /\
    takeString g chars_a_nul_b 3 vm = Some (string, vm') /\
    heap vm' !! string = Some o /\
    str_length o = 3 /\
    str_chars o = [Byte.x61; g_chars g 1; g_chars g 2; Byte.x00] /\
    str_hash o = hash_bytes [Byte.x61; g_chars g 1; g_chars g 2] /\
    (take 3 (str_chars o) = take 3 chars_a_nul_b <->
     g_chars g 1 = Byte.x00 /\ g_chars g 2 = Byte.x62).
Proof.
  unfold takeString, allocateString, allocateObject, fresh_block, set_string.
  simpl. rewrite lookup_insert_eq. simpl.
  do 3 eexists. split; [reflexivity|]. split; [reflexivity|]. simpl.
  rewrite lookup_insert_eq.
  split; [reflexivity|]. simpl.
  split; [reflexivity|]. split; [reflexivity|]. split; [reflexivity|].
  unfold chars_a_nul_b. simpl. split.
  - intros E. injection E as E1 E2. auto.
  - intros [E1 E2]. rewrite E1, E2. reflexivity.
Qed.

(** With every byte of the fresh block at 0x55, the string made from
    ['a'], NUL, ['b'] reads ["aUU"], and its hash is not the FNV-1a hash of
    the three bytes passed in. *)
Lemma allocateString_embedded_nul_example :
  exists string vm' o,
    allocateString (H := host) garbage_55 chars_a_nul_b 3 emptyVM = Some (string, vm') /\
    heap vm' !! string = Some o /\
    str_chars o = [Byte.x61; Byte.x55; Byte.x55; Byte.x00] /\
    str_hash o = fnv1a [Byte.x61; Byte.x55; Byte.x55] /\
    str_hash o <> fnv1a (take 3 chars_a_nul_b).
Proof.
  do 3 eexists. split; [vm_compute; reflexivity|].
  split; [vm_compute; reflexivity|]. simpl.
  split; [reflexivity|]. split; [reflexivity|]. vm_compute. discriminate.
Qed.

(** The other way round: when the buffer has no NUL within [len + 1]
    bytes, the loop writes past the end of the new block. *)
Lemma allocateString_overruns `{CImpl} (g : Garbage) (vm : VM) :
  allocateString g [Byte.x61; Byte.x62; Byte.x63; Byte.x64; Byte.x00] 2 vm = None.
Proof.
  unfold allocateString, allocateObject, fresh_block, set_string.
  simpl. rewrite lookup_insert_eq. reflexivity.
Qed.

(** ** object.c: [validateString] *)

(** When the lookup misses, [validateString] stores the string given: it
    becomes a key of the intern table and the head of [vm.objects]. *)
Lemma validateString_miss (string : address) (o : ObjString) (vm : VM) :
  heap vm !! string = Some o ->
  tableFindString (heap vm) (strings vm) (str_chars o) (str_length o) (str_hash o) = None ->
  validateString string vm =
    Some (mkVM (<[string := mkObjString (obj_type o) (objects vm) (str_length o)
                                        (str_hash o) (str_chars o)]> (heap vm))
               (Some string)
               (tableSet (strings vm) string NIL_VAL)).
Proof.
  intros Ho Hmiss. unfold validateString. rewrite Ho. simpl. rewrite Hmiss.
  unfold storeString. rewrite Ho. reflexivity.
Qed.

(** When the lookup hits, [validateString] does not return: it goes on to
    [storeString] with the canonical instance, which is linked in front of
    [vm.objects] once more. The string given stays where it is. *)
Lemma validateString_hit (string interned : address) (o canonical : ObjString) (vm : VM) :
  heap vm !! string = Some o ->
  tableFindString (heap vm) (strings vm) (str_chars o) (str_length o) (str_hash o)
    = Some interned ->
  heap vm !! interned = Some canonical ->
  validateString string vm =
    Some (mkVM (<[interned := mkObjString (obj_type canonical) (objects vm)
                                (str_length canonical) (str_hash canonical)
                                (str_chars canonical)]> (heap vm))
               (Some interned)
               (tableSet (strings vm) interned NIL_VAL)).
Proof.
  intros Ho Hhit Hc. unfold validateString. rewrite Ho. simpl. rewrite Hhit.
  unfold storeString. rewrite Hc. reflexivity.
Qed.

(** C3, on the code: ["a"] is interned and tracked at address 1, and
    [validateString] is called on a second string ["a"], at address 2. The
    canonical instance is stored again: its [next] now points to itself, so
    [vm.objects] is a cycle; the caller's instance is still allocated, and
    it is neither in the table nor in the list. *)
Theorem validateString_relinks_canonical :
  exists vm' canonical,
    tableFindString (heap vm_a_interned) (strings vm_a_interned)
      (str_chars (string_a None)) (str_length (string_a None)) (str_hash (string_a None))
      = Some 1%positive /\
    validateString 2%positive vm_a_interned = Some vm' /\
    objects vm' = Some 1%positive /\
    heap vm' !! 1%positive = Some canonical /\
    obj_next canonical = Some 1%positive /\
    heap vm' !! 2%positive = Some (string_a None) /\
    strings vm' !! 2%positive = None /\
    size (strings vm') = 1%nat.
Proof.
  do 2 eexists. split; [vm_compute; reflexivity|].
  split; [vm_compute; reflexivity|]. simpl.
  split; [reflexivity|]. split; [vm_compute; reflexivity|]. simpl.
  split; [reflexivity|]. split; [vm_compute; reflexivity|].
  split; vm_compute; reflexivity.
Qed.

(** * More properties of the compiler *)

(** ** What every parsing function keeps *)

Section Preserved.
Context `{CImpl}.

(** A relation between states that holds across the steps the parsing
    functions are made of holds across the functions. *)
Variable R : State -> State -> Prop.
Hypothesis R_refl : forall st, R st st.
Hypothesis R_trans : forall st1 st2 st3, R st1 st2 -> R st2 st3 -> R st1 st3.
Hypothesis R_advance : forall st, R st (advance st).
Hypothesis R_expected : forall st, R st (error "Expected expression" st).
Hypothesis R_emitByte : forall byte st, R st (emitByte byte st).
Hypothesis R_emitConstant : forall value st, R st (emitConstant value st).

Lemma consume_preserved type message st : R st (consume type message st).
Proof.
  unfold consume, errorAtCurrent. destruct (TokenType_eqb _ _); auto.
Qed.

Lemma call_preserved (rec : Precedence -> State -> Outcome) :
  (forall prec st st', rec prec st = Returns st' -> R st st') ->
  forall fn st st', call rec fn st = Returns st' -> R st st'.
Proof.
  intros Hrec fn st st' Hcall.
  destruct fn as [[| | | |]|]; simpl in Hcall; [| | | | |discriminate Hcall].
  - unfold binary in Hcall.
    destruct (rec _ st) as [st1| |] eqn:E; simpl in Hcall; try discriminate Hcall.
    apply Hrec in E.
    destruct (tok_type (previous (parser st))); injection Hcall as <-;
      eauto using R_trans.
  - unfold unary in Hcall.
    destruct (rec _ st) as [st1| |] eqn:E; simpl in Hcall; try discriminate Hcall.
    apply Hrec in E.
    destruct (tok_type (previous (parser st))); injection Hcall as <-;
      eauto using R_trans.
  - unfold literal in Hcall.
    destruct (tok_type (previous (parser st))); injection Hcall as <-; auto.
  - unfold number in Hcall. injection Hcall as <-. auto.
  - unfold grouping, expression in Hcall.
    destruct (rec _ st) as [st1| |] eqn:E; simpl in Hcall; try discriminate Hcall.
    apply Hrec in E. injection Hcall as <-.
    eapply R_trans; [exact E|apply consume_preserved].
Qed.

Lemma infix_loop_preserved (rec : Precedence -> State -> Outcome) :
  (forall prec st st', rec prec st = Returns st' -> R st st') ->
  forall n prec st st', infix_loop rec n prec st = Returns st' -> R st st'.
Proof.
  intros Hrec n. induction n as [|n IH]; intros prec st st' Hloop; simpl in Hloop.
  - destruct (prec <=? _); [discriminate Hloop|]. injection Hloop as <-. auto.
  - destruct (prec <=? _); [|injection Hloop as <-; auto].
    destruct (call rec _ (advance st)) as [st1| |] eqn:E; simpl in Hloop;
      try discriminate Hloop.
    apply (call_preserved rec Hrec) in E. apply IH in Hloop.
    eapply R_trans; [apply R_advance|]. eapply R_trans; eassumption.
Qed.

Lemma parsePrecedence_preserved (fuel : nat) :
  forall prec st st', parsePrecedence fuel prec st = Returns st' -> R st st'.
Proof.
  induction fuel as [|fuel IH]; intros prec st st' Hp; simpl in Hp; [discriminate Hp|].
  unfold parsePrecedence_body in Hp.
  destruct (prefix (getRule (tok_type (previous (parser (advance st)))))) as [fn|] eqn:Hpre.
  - destruct (call (parsePrecedence fuel) (Some fn) (advance st)) as [st1| |] eqn:E;
      simpl in Hp; try discriminate Hp.
    apply (call_preserved _ IH) in E.
    apply (infix_loop_preserved _ IH) in Hp.
    eapply R_trans; [apply R_advance|]. eapply R_trans; eassumption.
  - injection Hp as <-. eapply R_trans; [apply R_advance|apply R_expected].
Qed.

Lemma compile_preserved source chunk st result st' :
  compile source chunk st = Some (result, st') ->
  R (entry_state source chunk st) st'.
Proof.
  unfold compile, expression. fold (entry_state source chunk st).
  destruct (parsePrecedence _ _ _) as [st1| |] eqn:E; try discriminate.
  intros Hc. injection Hc as _ <-.
  apply parsePrecedence_preserved in E.
  unfold endCompiler, emitReturn.
  eapply R_trans; [apply R_advance|]. eapply R_trans; [exact E|].
  eapply R_trans; [apply consume_preserved|apply R_emitByte].
Qed.
End Preserved.

(** ** Diagnostics *)

Lemma Reports_refl st : Reports st st.
Proof.
  exists []. rewrite app_nil_r, orb_false_r. repeat split; auto.
Qed.

Lemma Reports_trans st1 st2 st3 : Reports st1 st2 -> Reports st2 st3 -> Reports st1 st3.
Proof.
  intros (n1 & He1 & Hm1 & Hl1 & Hq1 & Hp1) (n2 & He2 & Hm2 & Hl2 & Hq2 & Hp2).
  exists (n1 ++ n2).
  rewrite He2, He1, Hp2, Hp1, nonempty_app, app_assoc, orb_assoc.
  split; [reflexivity|]. split; [apply Forall_app; auto|].
  destruct n1 as [|d n1].
  - simpl. split; [exact Hl2|]. split; [|reflexivity].
    intros Hp. apply Hq2. rewrite Hp1, Hp. reflexivity.
  - assert (n2 = []) as ->.
    { apply Hq2. rewrite Hp1. simpl. apply orb_true_r. }
    rewrite app_nil_r. split; [exact Hl1|]. split; [exact Hq1|reflexivity].
Qed.

Lemma Reports_advance st : Reports st (advance st).
Proof.
  destruct (advance_spec st) as (_ & _ & Hp & _ & He & _).
  exists []. rewrite app_nil_r, orb_false_r. repeat split; auto.
Qed.

Lemma Reports_errorAt token message st :
  message = "Expected expression"%string \/
  message = "Too many constants in one chunk."%string ->
  Reports st (errorAt token message st).
Proof.
  intros Hm. unfold errorAt. destruct (panicMode (parser st)) eqn:Hp.
  - exists []. rewrite app_nil_r, Hp. repeat split; auto.
  - exists [diagnostic token message]. simpl. rewrite Hp.
    split; [reflexivity|]. split; [constructor; [exact Hm|constructor]|].
    split; [lia|]. split; [discriminate|reflexivity].
Qed.

Lemma Reports_emitByte byte st : Reports st (emitByte byte st).
Proof.
  exists []. simpl. rewrite app_nil_r, orb_false_r. repeat split; auto.
Qed.

Lemma Reports_emitConstant value st : Reports st (emitConstant value st).
Proof.
  unfold emitConstant, makeConstant, addConstant, emitBytes.
  destruct (UINT8_MAX <? _).
  - eapply Reports_trans; [|apply Reports_emitByte].
    eapply Reports_trans; [|apply Reports_emitByte].
    eapply Reports_trans; [|apply Reports_errorAt; right; reflexivity].
    exists []. simpl. rewrite app_nil_r, orb_false_r. repeat split; auto.
  - eapply Reports_trans; [|apply Reports_emitByte].
    eapply Reports_trans; [|apply Reports_emitByte].
    exists []. simpl. rewrite app_nil_r, orb_false_r. repeat split; auto.
Qed.

(** X1: one call of [compile] writes at most one line to [stderr], and none
    when it is entered in panic mode ([panicMode] is set by the first error
    and never cleared). The message is "Expected expression" or "Too many
    constants in one chunk."; no other error of the input is ever
    reported. *)
Theorem compile_reports_at_most_once `{CImpl} (source : list Token) (chunk : Chunk)
    (st : State) :
  exists result st' new,
    compile source chunk st = Some (result, st') /\
    stderr st' = stderr st ++ new /\
    (length new <= 1)%nat /\
    Forall compile_message new /\
    (panicMode (parser st) = true -> new = []).
Proof.
  destruct (compile_returns source chunk st) as (st' & Hc & _).
  pose proof (compile_preserved Reports Reports_refl Reports_trans Reports_advance
                (fun st => Reports_errorAt _ _ st (or_introl eq_refl))
                Reports_emitByte Reports_emitConstant source chunk st _ st' Hc)
    as (new & He & Hm & Hl & Hq & _).
  exists (negb (hadError (parser st'))), st', new. auto.
Qed.

(** ** The chunk *)

Lemma Appends_refl st : Appends st st.
Proof. exists [], [], []. rewrite !app_nil_r. auto. Qed.

Lemma Appends_trans st1 st2 st3 : Appends st1 st2 -> Appends st2 st3 -> Appends st1 st3.
Proof.
  intros (b1 & l1 & c1 & Hb1 & Hl1 & Hn1 & Hc1) (b2 & l2 & c2 & Hb2 & Hl2 & Hn2 & Hc2).
  exists (b1 ++ b2), (l1 ++ l2), (c1 ++ c2).
  rewrite Hb2, Hb1, Hl2, Hl1, Hc2, Hc1, !app_assoc, !length_app, Hn1, Hn2. auto.
Qed.

Lemma Appends_same_chunk st st' :
  compilingChunk st' = compilingChunk st -> Appends st st'.
Proof. intros E. exists [], [], []. rewrite E, !app_nil_r. auto. Qed.

Lemma Appends_advance st : Appends st (advance st).
Proof. apply Appends_same_chunk. apply advance_spec. Qed.

Lemma Appends_errorAt token message st : Appends st (errorAt token message st).
Proof.
  apply Appends_same_chunk. unfold errorAt. destruct (panicMode (parser st)); reflexivity.
Qed.

Lemma Appends_emitByte byte st : Appends st (emitByte byte st).
Proof.
  exists [byte], [tok_line (previous (parser st))], []. simpl.
  rewrite app_nil_r. auto.
Qed.

Lemma Appends_emitConstant value st : Appends st (emitConstant value st).
Proof.
  unfold emitConstant, makeConstant, addConstant, emitBytes.
  assert (Hadd : forall p s e, Appends st
            (mkState p s (mkChunk (code (currentChunk st)) (lines (currentChunk st))
                                  (constants (currentChunk st) ++ [value])) e)).
  { intros. exists [], [], [value]. simpl. rewrite !app_nil_r. auto. }
  destruct (UINT8_MAX <? _).
  - eapply Appends_trans; [|apply Appends_emitByte].
    eapply Appends_trans; [|apply Appends_emitByte].
    eapply Appends_trans; [|apply Appends_errorAt]. apply Hadd.
  - eapply Appends_trans; [|apply Appends_emitByte].
    eapply Appends_trans; [|apply Appends_emitByte]. apply Hadd.
Qed.

(** X2: [compile] only appends to the chunk it is given, whatever the
    input: the code, the lines and the constants it had are a prefix of
    what it has afterwards. Code and lines grow by the same number of
    entries, and the last byte written is [OP_RETURN], also when the
    compilation fails. *)
Theorem compile_appends `{CImpl} (source : list Token) (chunk : Chunk) (st : State) :
  exists result st' (bytes ls : list Z) (consts : list Value),
    compile source chunk st = Some (result, st') /\
    code (compilingChunk st') = code chunk ++ bytes ++ [OpCode_byte OP_RETURN] /\
    lines (compilingChunk st') = lines chunk ++ ls /\
    length ls = S (length bytes) /\
    constants (compilingChunk st') = constants chunk ++ consts.
Proof.
  destruct (compile_returns source chunk st) as (st' & Hc & _).
  exists (negb (hadError (parser st'))), st'.
  revert Hc. unfold compile, expression. fold (entry_state source chunk st).
  destruct (parsePrecedence _ _ _) as [st1| |] eqn:E; try discriminate.
  intros Hc. injection Hc as _ <-.
  apply (parsePrecedence_preserved Appends Appends_refl Appends_trans Appends_advance
           (fun st => Appends_errorAt _ _ st) Appends_emitByte Appends_emitConstant) in E.
  remember (consume TOKEN_EOF "Expected end of expression." st1) as st2 eqn:E2.
  assert (HA : Appends (entry_state source chunk st) st2).
  { subst st2. eapply Appends_trans; [apply Appends_advance|].
    eapply Appends_trans; [exact E|].
    apply (consume_preserved Appends Appends_refl Appends_advance). }
  clear E2.
  destruct HA as (bytes & ls & consts & Hb & Hl & Hn & Hk). simpl in Hb, Hl, Hk.
  exists bytes, (ls ++ [tok_line (previous (parser st2))]), consts.
  unfold endCompiler, emitReturn, emitByte, writeChunk, currentChunk.
  cbn [compilingChunk code lines constants].
  rewrite Hb, Hl, Hk, <- !app_assoc, length_app, Hn. simpl.
  repeat split; auto. lia.
Qed.

(** ** [advance] *)

Lemma advance_loop_skip (n : nat) : forall st,
  (length (pending (scanner st)) <= n)%nat ->
  match skip_errors (pending (scanner st)) with
  | t :: rest =>
      advance_loop n st =
        mkState (mkParser (previous (parser st)) t
                          (hadError (parser st)) (panicMode (parser st)))
                (mkScanner rest (tok_line t)) (compilingChunk st) (stderr st)
  | [] =>
      exists line,
      advance_loop n st =
        mkState (mkParser (previous (parser st)) (mkToken TOKEN_EOF "" 0 line)
                          (hadError (parser st)) (panicMode (parser st)))
                (mkScanner [] line) (compilingChunk st) (stderr st)
  end.
Proof.
  induction n as [|n IH]; intros [p [pend line] ch err] Hn; simpl in Hn.
  - destruct pend as [|t rest]; [|simpl in Hn; lia]. simpl. eauto.
  - destruct pend as [|t rest]; [simpl; eauto|].
    cbn [skip_errors pending scanner]. unfold is_error.
    cbn [advance_loop scanToken pending scanner parser compilingChunk stderr].
    destruct (TokenType_eqb (tok_type t) TOKEN_ERROR) eqn:E; cbn [negb].
    + unfold errorAtCurrent.
      specialize (IH (mkState (mkParser (previous p) t (hadError p) (panicMode p))
                              (mkScanner rest (tok_line t)) ch err)).
      cbn in IH. cbn. apply IH. simpl in Hn. lia.
    + reflexivity.
Qed.

(** [advance] moves the current token to [previous] and loads the first
    token the scanner yields that is not an error token, or [TOKEN_EOF] when
    there is none. *)
Lemma advance_skip (st : State) :
  previous (parser (advance st)) = current (parser st) /\
  hadError (parser (advance st)) = hadError (parser st) /\
  panicMode (parser (advance st)) = panicMode (parser st) /\
  stderr (advance st) = stderr st /\
  compilingChunk (advance st) = compilingChunk st /\
  match skip_errors (pending (scanner st)) with
  | t :: rest =>
      current (parser (advance st)) = t /\ pending (scanner (advance st)) = rest
  | [] =>
      tok_type (current (parser (advance st))) = TOKEN_EOF /\
      pending (scanner (advance st)) = []
  end.
Proof.
  unfold advance.
  pose proof (advance_loop_skip (length (pending (scanner st)))
    (set_parser (mkParser (current (parser st)) (current (parser st))
                          (hadError (parser st)) (panicMode (parser st))) st)) as Hs.
  cbn [set_parser scanner pending] in Hs. specialize (Hs (Nat.le_refl _)).
  cbn [set_parser scanner pending].
  destruct (skip_errors (pending (scanner st))) as [|t rest].
  - destruct Hs as [line Hs]. rewrite Hs. simpl. repeat split; reflexivity.
  - rewrite Hs. simpl. repeat split; reflexivity.
Qed.

Lemma skip_errors_app (errors rest : list Token) (t : Token) :
  Forall (fun x => tok_type x = TOKEN_ERROR) errors ->
  tok_type t <> TOKEN_ERROR ->
  skip_errors (errors ++ t :: rest) = t :: rest.
Proof.
  intros He Ht. induction He as [|x errors Hx _ IH]; simpl.
  - unfold is_error. apply TokenType_eqb_neq in Ht. rewrite Ht. reflexivity.
  - unfold is_error. rewrite Hx. exact IH.
Qed.

(** X3: the error tokens of the scanner are dropped without a word.
    [advance] moves the current token to [previous] and loads the first
    token the scanner yields that is not an error token; for the error
    tokens before it (whose lexeme is the scanner's message) nothing is
    written to [stderr], and [hadError] and [panicMode] stay as they are:
    [errorAtCurrent] has an empty body. *)
Theorem advance_skips_errors (errors rest : list Token) (t : Token) (st : State) :
  Forall (fun x => tok_type x = TOKEN_ERROR) errors ->
  tok_type t <> TOKEN_ERROR ->
  pending (scanner st) = errors ++ t :: rest ->
  advance st =
    mkState (mkParser (current (parser st)) t (hadError (parser st)) (panicMode (parser st)))
            (mkScanner rest (tok_line t)) (compilingChunk st) (stderr st).
Proof.
  intros He Ht Hp. unfold advance.
  pose proof (advance_loop_skip (length (pending (scanner st)))
    (set_parser (mkParser (current (parser st)) (current (parser st))
                          (hadError (parser st)) (panicMode (parser st))) st)) as Hs.
  cbn [set_parser scanner pending] in Hs. specialize (Hs (Nat.le_refl _)).
  cbn [set_parser scanner pending] in *.
  rewrite Hp in Hs |- *. rewrite (skip_errors_app errors rest t He Ht) in Hs. exact Hs.
Qed.

Lemma advance_skips_errors_witness :
  advance (entry_state src_error_one initChunk startState) =
    mkState (mkParser zeroToken (token_at "@1" TOKEN_NUMBER 1 1) false false)
            (mkScanner [] 1) initChunk [].
Proof.
  apply (advance_skips_errors [mkToken TOKEN_ERROR "Unexpected character." 21 1] []
           (token_at "@1" TOKEN_NUMBER 1 1)
           (entry_state src_error_one initChunk startState)).
  - repeat constructor.
  - discriminate.
  - reflexivity.
Defined.

(** When the next token is not an error token, [advance] takes it. *)
Lemma advance_token st t rest :
  pending (scanner st) = t :: rest ->
  is_error t = false ->
  advance st =
    mkState (mkParser (current (parser st)) t (hadError (parser st)) (panicMode (parser st)))
            (mkScanner rest (tok_line t)) (compilingChunk st) (stderr st).
Proof.
  intros Hp He. unfold advance.
  pose proof (advance_loop_skip (length (pending (scanner st)))
    (set_parser (mkParser (current (parser st)) (current (parser st))
                          (hadError (parser st)) (panicMode (parser st))) st)) as Hs.
  cbn [set_parser scanner pending] in Hs. specialize (Hs (Nat.le_refl _)).
  cbn [set_parser scanner pending] in *.
  rewrite Hp in Hs |- *. cbn [skip_errors] in Hs. rewrite He in Hs. exact Hs.
Qed.

Lemma advance_with_chunk chunk st :
  advance (with_chunk chunk st) = with_chunk chunk (advance st).
Proof.
  unfold advance, with_chunk, set_parser. cbn [parser scanner compilingChunk stderr].
  generalize (length (pending (scanner st))).
  generalize (mkParser (current (parser st)) (current (parser st))
                       (hadError (parser st)) (panicMode (parser st))).
  generalize (scanner st). generalize (stderr st). generalize (compilingChunk st).
  intros c e s p n. revert c e s p.
  induction n as [|n IH]; intros c e s p; simpl.
  - destruct (scanToken s) as [token s']. simpl.
    destruct (negb _); reflexivity.
  - destruct (scanToken s) as [token s']. simpl.
    destruct (negb _); [reflexivity|]. unfold errorAtCurrent. apply IH.
Qed.

Lemma advances_add (a b : nat) st : advances (a + b) st = advances b (advances a st).
Proof. revert st. induction a as [|a IH]; intros st; simpl; auto. Qed.

Lemma advances_with_chunk chunk (n : nat) st :
  advances n (with_chunk chunk st) = with_chunk chunk (advances n st).
Proof.
  revert st. induction n as [|n IH]; intros st; simpl; [reflexivity|].
  rewrite advance_with_chunk. apply IH.
Qed.

Lemma advances_flags (n : nat) st :
  hadError (parser (advances n st)) = hadError (parser st) /\
  panicMode (parser (advances n st)) = panicMode (parser st) /\
  stderr (advances n st) = stderr st /\
  compilingChunk (advances n st) = compilingChunk st.
Proof.
  revert st. induction n as [|n IH]; intros st; simpl; [auto|].
  destruct (IH (advance st)) as (H1 & H2 & H3 & H4).
  destruct (advance_spec st) as (_ & A1 & A2 & A3 & A4 & _).
  rewrite H1, H2, H3, H4. auto.
Qed.

(** Taking the tokens [a], none of them an error token, when a token that
    is not an error token follows. *)
Lemma advances_upcoming (a : list Token) : forall st t tail,
  upcoming st = a ++ t :: tail ->
  Forall (fun x => is_error x = false) a ->
  is_error t = false ->
  upcoming (advances (length a) st) = t :: tail /\
  (forall x a', a = a' ++ [x] -> previous (parser (advances (length a) st)) = x).
Proof.
  induction a as [|x a IH]; intros st t tail Hup Ha Ht; simpl.
  - split; [exact Hup|]. intros y a' E. destruct a'; discriminate E.
  - unfold upcoming in Hup. simpl in Hup. injection Hup as Hcur Hpend.
    inversion Ha as [|? ? Hx Ha']; subst.
    assert (Hadv : upcoming (advance st) = a ++ t :: tail /\
                   previous (parser (advance st)) = current (parser st)).
    { destruct a as [|y a].
      - simpl in Hpend. rewrite (advance_token st t tail Hpend Ht). split; reflexivity.
      - simpl in Hpend. inversion Ha' as [|? ? Hy _]; subst.
        rewrite (advance_token st y (a ++ t :: tail) Hpend Hy). split; reflexivity. }
    destruct Hadv as [Hup' Hprev].
    destruct (IH (advance st) t tail Hup' Ha' Ht) as [Hres Hlast].
    split; [exact Hres|].
    intros y a' E. destruct a' as [|z a'].
    + simpl in E. injection E as <- ->. simpl. exact Hprev.
    + simpl in E. injection E as <- ->. apply (Hlast y a'). reflexivity.
Qed.

(** ** Expressions *)

Lemma precedence_at_most_FACTOR (type : TokenType) :
  precedence (getRule type) <= PREC_FACTOR.
Proof. destruct type; cbv; discriminate. Qed.

Lemma binary_opcode_rule (type : TokenType) :
  is_Some (binary_opcode type) ->
  infix (getRule type) = Some fn_binary /\
  PREC_TERM <= precedence (getRule type) /\
  TokenType_eqb type TOKEN_ERROR = false.
Proof.
  intros [op Hop]. destruct type; try discriminate Hop; cbv; repeat split; discriminate.
Qed.

Lemma literal_opcode_rule (type : TokenType) :
  is_Some (literal_opcode type) ->
  prefix (getRule type) = Some fn_literal /\
  TokenType_eqb type TOKEN_ERROR = false.
Proof.
  intros [op Hop]. destruct type; try discriminate Hop; cbv; repeat split; discriminate.
Qed.

Lemma level_bounds (e : Expr) :
  well_formed e -> PREC_TERM <= level e <= PREC_UNARY.
Proof.
  destruct e; simpl; intros Hwf; try (cbv; split; discriminate).
  destruct Hwf as (Hop & _).
  destruct (binary_opcode_rule _ Hop) as (_ & Hlo & _).
  pose proof (precedence_at_most_FACTOR (tok_type t)).
  unfold PREC_FACTOR, PREC_UNARY in *. lia.
Qed.

Lemma tokens_not_error (e : Expr) :
  well_formed e -> Forall (fun x => is_error x = false) (tokens e).
Proof.
  induction e as [t|t|t e IH|l IHl t r IHr|o e IH c]; simpl; intros Hwf.
  - constructor; [|constructor]. unfold is_error. rewrite Hwf. reflexivity.
  - constructor; [|constructor]. apply literal_opcode_rule. exact Hwf.
  - destruct Hwf as (Ht & Hwf & _). constructor; [|auto].
    unfold is_error. rewrite Ht. reflexivity.
  - destruct Hwf as (Hop & Hl & Hr & _). apply Forall_app. split; [auto|].
    constructor; [|auto]. apply binary_opcode_rule. exact Hop.
  - destruct Hwf as (Ho & Hwf & Hc). constructor.
    + unfold is_error. rewrite Ho. reflexivity.
    + apply Forall_app. split; [auto|]. constructor; [|constructor].
      unfold is_error. rewrite Hc. reflexivity.
Qed.

Lemma tokens_last (e : Expr) : exists front, tokens e = front ++ [last_token e].
Proof.
  induction e as [t|t|t e IH|l IHl t r IHr|o e IH c]; simpl.
  - exists []. reflexivity.
  - exists []. reflexivity.
  - destruct IH as [front ->]. exists (t :: front). reflexivity.
  - destruct IHr as [front ->]. exists (tokens l ++ t :: front).
    rewrite <- app_assoc. reflexivity.
  - exists (o :: tokens e). reflexivity.
Qed.

Lemma tokens_head (e : Expr) :
  well_formed e -> exists t more, tokens e = t :: more /\ is_error t = false.
Proof.
  intros Hwf. pose proof (tokens_not_error e Hwf) as Hne.
  destruct (tokens_last e) as [front E].
  destruct (tokens e) as [|t more]; [destruct front; discriminate E|].
  inversion Hne; subst. eauto.
Qed.

Lemma spine_lt_tokens (e : Expr) : (spine e < length (tokens e))%nat.
Proof.
  induction e as [t|t|t e IH|l IHl t r IHr|o e IH c]; simpl; try lia.
  rewrite length_app. simpl. lia.
Qed.

Lemma follow_ok_level (e : Expr) (type : TokenType) :
  well_formed e -> precedence (getRule type) <= level e -> follow_ok e type.
Proof.
  induction e as [t|t|t e IH|l IHl t r IHr|o e IH c]; simpl; intros Hwf Hle; auto.
  - destruct Hwf as (_ & Hwf & Hlev). apply IH; [exact Hwf|].
    pose proof (precedence_at_most_FACTOR type). unfold PREC_FACTOR, PREC_UNARY in *. lia.
  - destruct Hwf as (_ & _ & Hr & _ & Hlev). split; [exact Hle|].
    apply IHr; [exact Hr|lia].
Qed.

(** After the tokens of [toks], the last of them is the previous token. *)
Lemma advances_previous (toks front rest : list Token) (x : Token) st :
  upcoming st = toks ++ rest ->
  toks = front ++ [x] ->
  Forall (fun y => is_error y = false) toks ->
  previous (parser (advances (length toks) st)) = x.
Proof.
  intros Hup -> Hne. rewrite <- app_assoc in Hup. simpl in Hup.
  apply Forall_app in Hne as [Hfront Hx]. inversion Hx; subst.
  destruct (advances_upcoming front st x rest Hup Hfront) as [Hcur _]; [assumption|].
  rewrite length_app, advances_add. simpl.
  destruct (advance_spec (advances (length front) st)) as (Hprev & _).
  rewrite Hprev. unfold upcoming in Hcur. injection Hcur as Hc _. exact Hc.
Qed.

Lemma infix_loop_stop `{CImpl} rec (n : nat) prec st :
  precedence (getRule (tok_type (current (parser st)))) < prec ->
  infix_loop rec n prec st = Returns st.
Proof.
  intros Hlt. apply Z.leb_gt in Hlt. destruct n; simpl; rewrite Hlt; reflexivity.
Qed.

Lemma emitByte_with_chunk byte chunk st :
  emitByte byte (with_chunk chunk st) =
    with_chunk (writeChunk chunk byte (tok_line (previous (parser st)))) st.
Proof. reflexivity. Qed.

Lemma with_chunk_with_chunk chunk chunk' st :
  with_chunk chunk (with_chunk chunk' st) = with_chunk chunk st.
Proof. reflexivity. Qed.

Lemma postfix_number `{CImpl} t chunk :
  postfix (ENumber t) chunk =
    mkChunk (code chunk ++ [OpCode_byte OP_CONSTANT; Z.of_nat (length (constants chunk))])
            (lines chunk ++ [tok_line t; tok_line t])
            (constants chunk ++ [NUMBER_VAL (strtod (tok_start t))]).
Proof. reflexivity. Qed.

Lemma postfix_literal `{CImpl} t op chunk :
  literal_opcode (tok_type t) = Some op ->
  postfix (ELiteral t) chunk = writeChunk chunk op (tok_line t).
Proof.
  intros Hop. unfold postfix, writeChunk. simpl. rewrite Hop. simpl.
  rewrite app_nil_r. reflexivity.
Qed.

Lemma postfix_negate `{CImpl} t e chunk :
  postfix (ENegate t e) chunk =
    writeChunk (postfix e chunk) OP_NEGATE (tok_line (last_token e)).
Proof.
  unfold postfix, writeChunk. simpl. rewrite !app_assoc. reflexivity.
Qed.

Lemma postfix_binary `{CImpl} l t r op chunk :
  binary_opcode (tok_type t) = Some op ->
  postfix (EBinary l t r) chunk =
    writeChunk (postfix r (postfix l chunk)) op (tok_line (last_token r)).
Proof.
  intros Hop. unfold postfix, writeChunk. simpl. rewrite Hop. simpl.
  rewrite length_app, !app_assoc. reflexivity.
Qed.

Lemma postfix_grouping `{CImpl} o e c chunk :
  postfix (EGrouping o e c) chunk = postfix e chunk.
Proof. reflexivity. Qed.

(** [parsePrecedence] on a state that stands before the tokens of a tree:
    the prefix action and the iterations of the loop that belong to the
    tree leave its code in the chunk and the token after it as the current
    one; the loop goes on from there. *)
Lemma parse_expression `{CImpl} (e : Expr) :
  well_formed e ->
  forall (f n : nat) (prec : Precedence) (st : State) (rest : list Token),
  PREC_ASSIGN <= prec -> prec <= level e ->
  upcoming st = tokens e ++ rest ->
  follow_ok e (tok_type (current (parser (advances (length (tokens e)) st)))) ->
  Z.of_nat (length (constants (compilingChunk st)) + length (literals e)) <= 256 ->
  (length (tokens e) <= f)%nat ->
  (length (tokens e) <= n)%nat ->
  parsePrecedence_body (parsePrecedence f) n prec st =
    infix_loop (parsePrecedence f) (n - spine e) prec
      (with_chunk (postfix e (compilingChunk st)) (advances (length (tokens e)) st)).
Proof.
  induction e as [t|t|t e IH|l IHl t r IHr|o e IH c];
    intros Hwf f n prec st rest Hprec Hlev Hup Hfol Hpool Hf Hn.
  - (* number *)
    simpl in Hwf, Hup, Hpool |- *. rewrite Nat.sub_0_r.
    unfold upcoming in Hup. injection Hup as Hcur _.
    destruct (advance_spec st) as (Hprev & _ & _ & Hch & _).
    unfold parsePrecedence_body. cbv zeta.
    rewrite Hprev, Hcur, Hwf.
    change (prefix (getRule TOKEN_NUMBER)) with (Some fn_number).
    cbn [call]. rewrite number_in_range by (rewrite Hch; unfold UINT8_MAX; lia).
    cbn [andThen]. rewrite Hch, Hprev, Hcur. reflexivity.
  - (* literal *)
    simpl in Hwf, Hup |- *. rewrite Nat.sub_0_r.
    unfold upcoming in Hup. injection Hup as Hcur _.
    destruct (advance_spec st) as (Hprev & _ & _ & Hch & _).
    destruct (literal_opcode_rule _ Hwf) as (Hpre & _).
    unfold parsePrecedence_body. cbv zeta.
    rewrite Hprev, Hcur, Hpre. cbn [call]. unfold literal. rewrite Hprev, Hcur.
    destruct Hwf as [op Hop]. rewrite (postfix_literal t op _ Hop).
    destruct (tok_type t); try discriminate Hop; injection Hop as <-;
      cbn [andThen]; unfold emitByte, with_chunk, currentChunk;
      rewrite Hch, Hprev, Hcur; reflexivity.
  - (* negate *)
    simpl in Hwf, Hup, Hfol, Hpool, Hf |- *. rewrite Nat.sub_0_r.
    destruct Hwf as (Ht & Hwf & Hlev1).
    unfold upcoming in Hup. injection Hup as Hcur Hpend.
    destruct (tokens_head e Hwf) as (h & more & Eh & Hh).
    assert (Hadv : upcoming (advance st) = tokens e ++ rest /\
                   previous (parser (advance st)) = t /\
                   compilingChunk (advance st) = compilingChunk st).
    { rewrite Eh in Hpend |- *. simpl in Hpend.
      rewrite (advance_token st h (more ++ rest) Hpend Hh).
      unfold upcoming. simpl. auto. }
    destruct Hadv as (Hup1 & Hprev & Hch).
    unfold parsePrecedence_body at 1. cbv zeta.
    rewrite Hprev, Ht.
    change (prefix (getRule TOKEN_MINUS)) with (Some fn_unary).
    cbn [call]. unfold unary. rewrite Hprev, Ht.
    destruct f as [|f']; [lia|].
    change (parsePrecedence (S f') PREC_UNARY (advance st))
      with (parsePrecedence_body (parsePrecedence f') f' PREC_UNARY (advance st)).
    rewrite (IH Hwf f' f' PREC_UNARY (advance st) rest);
      [|unfold PREC_ASSIGN, PREC_UNARY; lia|exact Hlev1|exact Hup1|exact Hfol
       |rewrite Hch; exact Hpool|lia|lia].
    rewrite infix_loop_stop.
    2:{ cbn [with_chunk parser current].
        pose proof (precedence_at_most_FACTOR
          (tok_type (current (parser (advances (length (tokens e)) (advance st)))))).
        unfold PREC_FACTOR, PREC_UNARY in *. lia. }
    cbn [andThen]. rewrite emitByte_with_chunk.
    destruct (tokens_last e) as [front Efront].
    rewrite (advances_previous (tokens e) front rest (last_token e) (advance st)
               Hup1 Efront (tokens_not_error e Hwf)).
    rewrite Hch, <- (postfix_negate t e). reflexivity.
  - (* binary *)
    simpl in Hwf, Hup, Hfol, Hpool, Hf, Hn, Hlev |- *.
    destruct Hwf as (Hop & Hwl & Hwr & Hll & Hlr).
    destruct Hfol as (Hfol & Hfolr).
    rewrite length_app in Hf, Hn, Hfol, Hfolr, Hpool |- *.
    simpl in Hf, Hn, Hfol, Hfolr |- *.
    rewrite advances_add in Hfol, Hfolr |- *. cbn [advances] in Hfol, Hfolr |- *.
    rewrite <- app_assoc in Hup. simpl in Hup.
    destruct (binary_opcode_rule _ Hop) as (Hinfix & Hterm & Hte).
    set (p := precedence (getRule (tok_type t))) in *.
    set (Sl := advances (length (tokens l)) st) in *.
    destruct (advances_upcoming (tokens l) st t (tokens r ++ rest) Hup
                (tokens_not_error l Hwl) Hte) as [Hupl _].
    fold Sl in Hupl. unfold upcoming in Hupl. injection Hupl as Hcurl Hpendl.
    destruct (tokens_head r Hwr) as (h & more & Eh & Hh).
    assert (Hadv : upcoming (advance Sl) = tokens r ++ rest /\
                   previous (parser (advance Sl)) = t /\
                   compilingChunk (advance Sl) = compilingChunk Sl).
    { rewrite Eh in Hpendl |- *. simpl in Hpendl.
      rewrite (advance_token Sl h (more ++ rest) Hpendl Hh).
      unfold upcoming. simpl. rewrite Hcurl. auto. }
    destruct Hadv as (Hupa & Hpreva & Hcha).
    (* the left operand *)
    rewrite (IHl Hwl f n prec st (t :: tokens r ++ rest));
      [|exact Hprec|lia|exact Hup
       |apply follow_ok_level; [exact Hwl|]; fold Sl; rewrite Hcurl; exact Hll
       |lia|lia|lia].
    fold Sl.
    pose proof (spine_lt_tokens l) as Hsp.
    replace (n - spine l)%nat with (S (n - S (spine l))) by lia.
    cbn [infix_loop]. cbn [with_chunk parser current]. rewrite Hcurl. fold p.
    replace (prec <=? p) with true by (symmetry; apply Z.leb_le; exact Hlev).
    fold (with_chunk (postfix l (compilingChunk st)) Sl).
    rewrite advance_with_chunk. cbn [with_chunk parser previous].
    rewrite Hpreva, Hinfix. cbn [call]. unfold binary.
    cbn [with_chunk parser previous]. rewrite Hpreva. fold p.
    fold (with_chunk (postfix l (compilingChunk st)) (advance Sl)).
    (* the right operand *)
    destruct f as [|f']; [lia|].
    change (parsePrecedence (S f') (p + 1)
              (with_chunk (postfix l (compilingChunk st)) (advance Sl)))
      with (parsePrecedence_body (parsePrecedence f') f' (p + 1)
              (with_chunk (postfix l (compilingChunk st)) (advance Sl))).
    rewrite (IHr Hwr f' f' (p + 1)
               (with_chunk (postfix l (compilingChunk st)) (advance Sl)) rest);
      [|unfold PREC_ASSIGN, PREC_TERM in *; lia|exact Hlr|exact Hupa
       |rewrite advances_with_chunk; exact Hfolr
       |cbn [with_chunk compilingChunk postfix constants]; rewrite length_app; lia
       |lia|lia].
    rewrite advances_with_chunk.
    cbn [with_chunk compilingChunk parser scanner stderr].
    fold (with_chunk (postfix r (postfix l (compilingChunk st)))
            (advances (length (tokens r)) (advance Sl))).
    rewrite infix_loop_stop by (cbn [with_chunk parser current]; lia).
    cbn [andThen].
    destruct (tokens_last r) as [front Efront].
    pose proof (advances_previous (tokens r) front rest (last_token r) (advance Sl)
                  Hupa Efront (tokens_not_error r Hwr)) as Hlast.
    rewrite with_chunk_with_chunk.
    destruct Hop as [op Hop]. rewrite (postfix_binary l t r op _ Hop).
    destruct (tok_type t); try discriminate Hop; injection Hop as <-;
      cbn [andThen]; rewrite emitByte_with_chunk, Hlast; reflexivity.
  - (* grouping *)
    simpl in Hwf, Hup, Hpool, Hf, Hn |- *. rewrite Nat.sub_0_r.
    destruct Hwf as (Ho & Hwf & Hc).
    rewrite length_app in Hf, Hn |- *. simpl in Hf, Hn |- *.
    unfold upcoming in Hup. injection Hup as Hcur Hpend.
    rewrite <- app_assoc in Hpend. simpl in Hpend.
    destruct (tokens_head e Hwf) as (h & more & Eh & Hh).
    assert (Hadv : upcoming (advance st) = tokens e ++ c :: rest /\
                   previous (parser (advance st)) = o /\
                   compilingChunk (advance st) = compilingChunk st).
    { rewrite Eh in Hpend |- *. simpl in Hpend.
      rewrite (advance_token st h (more ++ c :: rest) Hpend Hh).
      unfold upcoming. simpl. auto. }
    destruct Hadv as (Hup1 & Hprev & Hch).
    assert (Hce : is_error c = false) by (unfold is_error; rewrite Hc; reflexivity).
    destruct (advances_upcoming (tokens e) (advance st) c rest Hup1
                (tokens_not_error e Hwf) Hce) as [Hlook _].
    unfold upcoming in Hlook. injection Hlook as Hlook _.
    unfold parsePrecedence_body at 1. cbv zeta.
    rewrite Hprev, Ho.
    change (prefix (getRule TOKEN_LEFT_PAREN)) with (Some fn_grouping).
    cbn [call]. unfold grouping, expression.
    destruct f as [|f']; [lia|].
    change (parsePrecedence (S f') PREC_ASSIGN (advance st))
      with (parsePrecedence_body (parsePrecedence f') f' PREC_ASSIGN (advance st)).
    pose proof (level_bounds e Hwf) as Hlb.
    rewrite (IH Hwf f' f' PREC_ASSIGN (advance st) (c :: rest));
      [|reflexivity|unfold PREC_ASSIGN, PREC_TERM in *; lia|exact Hup1
       |apply follow_ok_level; [exact Hwf|]; rewrite Hlook, Hc;
        change (precedence (getRule TOKEN_RIGHT_PAREN)) with 0;
        unfold PREC_TERM in *; lia
       |rewrite Hch; exact Hpool|lia|lia].
    rewrite infix_loop_stop.
    2:{ cbn [with_chunk parser current]. rewrite Hlook, Hc. reflexivity. }
    cbn [andThen]. unfold consume. cbn [with_chunk parser current].
    rewrite Hlook, Hc. change (TokenType_eqb TOKEN_RIGHT_PAREN TOKEN_RIGHT_PAREN) with true.
    cbv iota. fold (with_chunk (postfix e (compilingChunk (advance st)))
                      (advances (length (tokens e)) (advance st))).
    rewrite advance_with_chunk, Hch, advances_add. reflexivity.
Qed.

Lemma tokens_not_EOF (e : Expr) :
  well_formed e ->
  Forall (fun x => TokenType_eqb (tok_type x) TOKEN_EOF = false) (tokens e).
Proof.
  induction e as [t|t|t e IH|l IHl t r IHr|o e IH c]; simpl; intros Hwf.
  - constructor; [|constructor]. rewrite Hwf. reflexivity.
  - constructor; [|constructor]. destruct Hwf as [op Hop].
    destruct (tok_type t); try discriminate Hop; reflexivity.
  - destruct Hwf as (Ht & Hwf & _). constructor; [|auto]. rewrite Ht. reflexivity.
  - destruct Hwf as (Hop & Hl & Hr & _). apply Forall_app. split; [auto|].
    constructor; [|auto]. destruct Hop as [op Hop].
    destruct (tok_type t); try discriminate Hop; reflexivity.
  - destruct Hwf as (Ho & Hwf & Hc). constructor; [rewrite Ho; reflexivity|].
    apply Forall_app. split; [auto|]. constructor; [|constructor].
    rewrite Hc. reflexivity.
Qed.

(** The token that is current after the tokens [toks]: the first of [rest]
    that is not an error token, or [TOKEN_EOF]. *)
Lemma lookahead_after (toks front rest : list Token) (x : Token) st :
  upcoming st = toks ++ rest ->
  toks = front ++ [x] ->
  Forall (fun y => is_error y = false) toks ->
  match skip_errors rest with
  | t :: more =>
      current (parser (advances (length toks) st)) = t /\
      pending (scanner (advances (length toks) st)) = more
  | [] =>
      tok_type (current (parser (advances (length toks) st))) = TOKEN_EOF /\
      pending (scanner (advances (length toks) st)) = []
  end.
Proof.
  intros Hup -> Hne. rewrite <- app_assoc in Hup. simpl in Hup.
  apply Forall_app in Hne as [Hfront Hx]. inversion Hx; subst.
  destruct (advances_upcoming front st x rest Hup Hfront) as [Hcur _]; [assumption|].
  rewrite length_app, advances_add. simpl.
  unfold upcoming in Hcur. injection Hcur as _ Hpend.
  pose proof (advance_skip (advances (length front) st)) as (_ & _ & _ & _ & _ & Hs).
  rewrite Hpend in Hs. exact Hs.
Qed.

(** [compile] on the tokens of a tree, followed by tokens of which the
    first that is not an error token is no operator. *)
Lemma compile_tree_followed `{CImpl} (e : Expr) (rest : list Token)
    (chunk : Chunk) (st : State) :
  well_formed e ->
  Z.of_nat (length (constants chunk) + length (literals e)) <= 256 ->
  match skip_errors rest with
  | t :: _ => precedence (getRule (tok_type t)) = PREC_NONE
  | [] => True
  end ->
  exists st',
    compile (tokens e ++ rest) chunk st = Some (negb (hadError (parser st)), st') /\
    code (compilingChunk st') =
      code chunk ++ bytecode e (length (constants chunk)) ++ [OpCode_byte OP_RETURN] /\
    constants (compilingChunk st') = constants chunk ++ literals e /\
    stderr st' = stderr st /\
    hadError (parser st') = hadError (parser st) /\
    panicMode (parser st') = panicMode (parser st) /\
    match skip_errors rest with
    | t :: more =>
        tok_type t <> TOKEN_EOF ->
        current (parser st') = t /\ pending (scanner st') = more
    | [] => pending (scanner st') = []
    end.
Proof.
  intros Hwf Hpool Hrest.
  unfold compile, expression. fold (entry_state (tokens e ++ rest) chunk st).
  set (st0 := entry_state (tokens e ++ rest) chunk st).
  destruct (tokens_head e Hwf) as (h & more & Eh & Hh).
  pose proof (tokens_not_EOF e Hwf) as HnE. rewrite Eh in HnE.
  inversion HnE as [|? ? HhE _]; subst.
  assert (Hpend0 : pending (scanner st0) = h :: more ++ rest).
  { unfold st0, entry_state, initScanner. simpl. rewrite Eh. reflexivity. }
  pose proof (advance_token st0 h (more ++ rest) Hpend0 Hh) as Hadv.
  set (st1 := advance st0) in *.
  assert (Hup1 : upcoming st1 = tokens e ++ rest).
  { rewrite Hadv, Eh. reflexivity. }
  assert (Hleft : tokens_left st1 = (length (tokens e) + length rest)%nat).
  { rewrite Hadv, Eh. unfold tokens_left. simpl. rewrite HhE, length_app. lia. }
  rewrite Hleft.
  set (F := (length (tokens e) + length rest)%nat).
  change (parsePrecedence (S F) PREC_ASSIGN st1)
    with (parsePrecedence_body (parsePrecedence F) F PREC_ASSIGN st1).
  destruct (tokens_last e) as [front Efront].
  pose proof (lookahead_after (tokens e) front rest (last_token e) st1 Hup1 Efront
                (tokens_not_error e Hwf)) as Hlook.
  set (Se := advances (length (tokens e)) st1) in *.
  assert (Hprec0 : precedence (getRule (tok_type (current (parser Se)))) = PREC_NONE).
  { destruct (skip_errors rest) as [|t more'].
    - destruct Hlook as [-> _]. reflexivity.
    - destruct Hlook as [-> _]. exact Hrest. }
  pose proof (level_bounds e Hwf) as Hlb.
  rewrite (parse_expression e Hwf F F PREC_ASSIGN st1 rest);
    [|reflexivity|unfold PREC_ASSIGN, PREC_TERM in *; lia|exact Hup1
     |apply follow_ok_level; [exact Hwf|]; fold Se; rewrite Hprec0;
      unfold PREC_NONE, PREC_TERM in *; lia
     |rewrite Hadv; exact Hpool|unfold F; lia|unfold F; lia].
  fold Se.
  assert (Hch1 : compilingChunk st1 = chunk) by (rewrite Hadv; reflexivity).
  rewrite Hch1.
  rewrite infix_loop_stop
    by (cbn [with_chunk parser current]; rewrite Hprec0; reflexivity).
  destruct (advances_flags (length (tokens e)) st1) as (Fh & Fp & Fe & _). fold Se in Fh, Fp, Fe.
  assert (Fh1 : hadError (parser st1) = hadError (parser st)) by (rewrite Hadv; reflexivity).
  assert (Fp1 : panicMode (parser st1) = panicMode (parser st)) by (rewrite Hadv; reflexivity).
  assert (Fe1 : stderr st1 = stderr st) by (rewrite Hadv; reflexivity).
  unfold consume, errorAtCurrent. cbn [with_chunk parser current].
  destruct (TokenType_eqb (tok_type (current (parser Se))) TOKEN_EOF) eqn:Eeof.
  - (* the end of the input: [consume] takes it *)
    fold (with_chunk (postfix e chunk) Se). rewrite advance_with_chunk.
    destruct (advance_spec Se) as (_ & Ah & Ap & _ & Ae & _).
    pose proof (advance_skip Se) as (_ & _ & _ & _ & _ & As).
    eexists. split; [unfold endCompiler, emitReturn; cbn; rewrite Ah, Fh, Fh1; reflexivity|].
    unfold endCompiler, emitReturn. cbn.
    rewrite Ah, Ap, Ae, Fh, Fp, Fe, Fh1, Fp1, Fe1, <- app_assoc.
    repeat split; try reflexivity.
    apply TokenType_eqb_eq in Eeof.
    destruct (skip_errors rest) as [|t more'].
    + destruct Hlook as [_ Hp]. rewrite Hp in As. simpl in As. apply As.
    + destruct Hlook as [Hc _]. intros Hne. rewrite Hc in Eeof. contradiction.
  - (* another token: [consume] leaves it *)
    eexists. split; [unfold endCompiler, emitReturn; cbn; rewrite Fh, Fh1; reflexivity|].
    unfold endCompiler, emitReturn. cbn.
    rewrite Fh, Fp, Fe, Fh1, Fp1, Fe1, <- app_assoc.
    repeat split; try reflexivity.
    destruct (skip_errors rest) as [|t more'].
    + destruct Hlook as [Ht _]. rewrite Ht in Eeof. discriminate Eeof.
    + intros _. exact Hlook.
Qed.

(** X4: for every expression tree of the usual reading (operands of an
    operator bind at least as tightly on the left, more tightly on the
    right; the operand of a minus is not a binary expression), [compile] on
    the tokens of the tree appends the postfix code of the tree and
    [OP_RETURN], adds the number literals to the pool in order, writes no
    diagnostic and takes every token, as long as the pool stays within 256
    constants. It returns [true] unless [hadError] was set before. *)
Theorem compile_expression `{CImpl} (e : Expr) (chunk : Chunk) (st : State) :
  well_formed e ->
  Z.of_nat (length (constants chunk) + length (literals e)) <= 256 ->
  exists st',
    compile (tokens e) chunk st = Some (negb (hadError (parser st)), st') /\
    code (compilingChunk st') =
      code chunk ++ bytecode e (length (constants chunk)) ++ [OpCode_byte OP_RETURN] /\
    constants (compilingChunk st') = constants chunk ++ literals e /\
    stderr st' = stderr st /\
    pending (scanner st') = [].
Proof.
  intros Hwf Hpool.
  destruct (compile_tree_followed e [] chunk st Hwf Hpool I)
    as (st' & Hc & Hcode & Hk & He & _ & _ & Hp).
  rewrite app_nil_r in Hc. simpl in Hp. eauto 10.
Qed.

Lemma compile_expression_witness :
  well_formed expr_example /\
  exists st',
    compile (H := host) (tokens expr_example) initChunk startState = Some (true, st') /\
    code (compilingChunk st') =
      [OpCode_byte OP_CONSTANT; 0; OpCode_byte OP_CONSTANT; 1; OpCode_byte OP_ADD;
       OpCode_byte OP_CONSTANT; 2; OpCode_byte OP_NEGATE; OpCode_byte OP_MULT;
       OpCode_byte OP_RETURN] /\
    constants (compilingChunk st') =
      [NUMBER_VAL 1%float; NUMBER_VAL 2%float; NUMBER_VAL 3%float].
Proof.
  assert (Hwf : well_formed expr_example).
  { simpl. repeat split; try reflexivity; try (eexists; reflexivity); vm_compute; discriminate. }
  split; [exact Hwf|].
  destruct (compile_expression (H := host) expr_example initChunk startState Hwf)
    as (st' & Hc & Hcode & Hk & _).
  - vm_compute. discriminate.
  - exists st'. split; [exact Hc|]. split; [exact Hcode|exact Hk].
Defined.

(** X5: tokens after a complete expression do not make the compilation
    fail. When the expression is followed by a token that is neither an
    operator nor an error token nor the end of the input, [compile] emits
    the code of the expression, writes nothing to [stderr], returns as for
    the expression alone, and leaves that token unread: the
    [consume(TOKEN_EOF, ...)] at the end has no effect. *)
Theorem compile_ignores_trailing_tokens `{CImpl} (e : Expr) (t : Token)
    (more : list Token) (chunk : Chunk) (st : State) :
  well_formed e ->
  Z.of_nat (length (constants chunk) + length (literals e)) <= 256 ->
  is_error t = false ->
  precedence (getRule (tok_type t)) = PREC_NONE ->
  tok_type t <> TOKEN_EOF ->
  exists st',
    compile (tokens e ++ t :: more) chunk st = Some (negb (hadError (parser st)), st') /\
    code (compilingChunk st') =
      code chunk ++ bytecode e (length (constants chunk)) ++ [OpCode_byte OP_RETURN] /\
    constants (compilingChunk st') = constants chunk ++ literals e /\
    stderr st' = stderr st /\
    current (parser st') = t /\
    pending (scanner st') = more.
Proof.
  intros Hwf Hpool Hte Hprec Hne.
  destruct (compile_tree_followed e (t :: more) chunk st Hwf Hpool)
    as (st' & Hc & Hcode & Hk & He & _ & _ & Hp).
  { simpl. rewrite Hte. exact Hprec. }
  simpl in Hp. rewrite Hte in Hp. destruct (Hp Hne) as [Hcur Hpend].
  eauto 10.
Qed.

Lemma compile_ignores_trailing_tokens_witness :
  exists st',
    compile (H := host)
      [token_at "1 2" TOKEN_NUMBER 0 1; token_at "1 2" TOKEN_NUMBER 2 1]
      initChunk startState = Some (true, st') /\
    code (compilingChunk st') = [OpCode_byte OP_CONSTANT; 0; OpCode_byte OP_RETURN] /\
    stderr st' = [].
Proof.
  destruct (compile_ignores_trailing_tokens (H := host)
              (ENumber (token_at "1 2" TOKEN_NUMBER 0 1))
              (token_at "1 2" TOKEN_NUMBER 2 1) [] initChunk startState)
    as (st' & Hc & Hcode & _ & He & _).
  - reflexivity.
  - vm_compute. discriminate.
  - reflexivity.
  - reflexivity.
  - discriminate.
  - exists st'. split; [exact Hc|]. split; [exact Hcode|exact He].
Defined.

(** X6: when the first token that is not an error token has no prefix
    action (or there is no token at all), [compile] fails with "Expected
    expression", provided it is not entered in panic mode. The line is
    written for the token after the one that cannot start an expression
    ([error] reports at [parser.current]); only [OP_RETURN] is emitted and
    the pool is left alone. *)
Theorem compile_expected_expression `{CImpl} (source : list Token) (chunk : Chunk)
    (st : State) :
  match skip_errors source with
  | t :: _ => prefix (getRule (tok_type t)) = None
  | [] => True
  end ->
  panicMode (parser st) = false ->
  exists st',
    compile source chunk st = Some (false, st') /\
    stderr st' =
      stderr st ++
      [diagnostic (current (parser (advances 2 (entry_state source chunk st))))
                  "Expected expression"] /\
    code (compilingChunk st') = code chunk ++ [OpCode_byte OP_RETURN] /\
    constants (compilingChunk st') = constants chunk.
Proof.
  intros Hfirst Hpanic.
  unfold compile, expression. fold (entry_state source chunk st).
  set (st0 := entry_state source chunk st).
  pose proof (advance_skip st0) as (_ & Hh1 & Hp1 & He1 & Hc1 & Hs1).
  set (st1 := advance st0) in *.
  assert (Hpre : prefix (getRule (tok_type (current (parser st1)))) = None).
  { unfold st0 at 1 in Hs1. cbn [entry_state scanner initScanner pending] in Hs1.
    destruct (skip_errors source) as [|t more].
    - destruct Hs1 as [-> _]. reflexivity.
    - destruct Hs1 as [-> _]. exact Hfirst. }
  cbn [parsePrecedence]. unfold parsePrecedence_body. cbv zeta.
  pose proof (advance_skip st1) as (Hprev2 & Hh2 & Hp2 & He2 & Hc2 & _).
  cbn [advances]. fold st1. set (st2 := advance st1) in *.
  rewrite Hprev2, Hpre.
  assert (Herr : error "Expected expression" st2 =
            mkState (mkParser (previous (parser st2)) (current (parser st2)) true true)
                    (scanner st2) (compilingChunk st2)
                    (stderr st2 ++ [diagnostic (current (parser st2)) "Expected expression"])).
  { unfold error, errorAt. rewrite Hp2, Hp1. unfold st0. cbn [entry_state parser].
    rewrite Hpanic. reflexivity. }
  rewrite Herr.
  set (st3 := mkState _ _ _ _).
  assert (Hcons : hadError (parser (consume TOKEN_EOF "Expected end of expression." st3)) = true /\
                  stderr (consume TOKEN_EOF "Expected end of expression." st3) = stderr st3 /\
                  compilingChunk (consume TOKEN_EOF "Expected end of expression." st3)
                    = compilingChunk st3).
  { unfold consume, errorAtCurrent. destruct (TokenType_eqb _ _).
    - destruct (advance_spec st3) as (_ & Ah & _ & Ac & Ae & _). rewrite Ah, Ac, Ae. auto.
    - auto. }
  destruct Hcons as (Ch & Ce & Cc).
  remember (consume TOKEN_EOF "Expected end of expression." st3) as st4 eqn:E4.
  cbn [andThen]. unfold endCompiler, emitReturn, emitByte, currentChunk.
  cbn [parser stderr compilingChunk].
  rewrite Ch. eexists. split; [reflexivity|].
  cbn [stderr compilingChunk writeChunk code constants].
  rewrite Ce, Cc. unfold st3. cbn [stderr compilingChunk].
  rewrite He2, He1, Hc2, Hc1. unfold st0. cbn [entry_state stderr compilingChunk].
  auto.
Qed.

Lemma compile_expected_expression_witness :
  exists st',
    compile (H := host) [] initChunk startState = Some (false, st') /\
    map diag_where (stderr st') = [at_end] /\
    code (compilingChunk st') = [OpCode_byte OP_RETURN].
Proof.
  destruct (compile_expected_expression (H := host) [] initChunk startState)
    as (st' & Hc & He & Hcode & _).
  - exact I.
  - reflexivity.
  - exists st'. split; [exact Hc|]. split; [rewrite He; reflexivity|exact Hcode].
Defined.

(** X7: a missing [')'] is never reported. For a ['('] followed by a
    complete expression and then by the end of the input, or by a token
    that is neither [')'] nor an operator, [compile] emits the code of the
    expression inside as if the ['('] were not there, writes nothing to
    [stderr] and returns [true] (unless [hadError] was set before):
    [consume] hands the mismatch to the empty [errorAtCurrent]. *)
Theorem compile_missing_right_paren `{CImpl} (o : Token) (e : Expr) (rest : list Token)
    (chunk : Chunk) (st : State) :
  tok_type o = TOKEN_LEFT_PAREN ->
  well_formed e ->
  Z.of_nat (length (constants chunk) + length (literals e)) <= 256 ->
  match skip_errors rest with
  | t :: _ => precedence (getRule (tok_type t)) = PREC_NONE /\
              tok_type t <> TOKEN_RIGHT_PAREN
  | [] => True
  end ->
  exists st',
    compile (o :: tokens e ++ rest) chunk st = Some (negb (hadError (parser st)), st') /\
    code (compilingChunk st') =
      code chunk ++ bytecode e (length (constants chunk)) ++ [OpCode_byte OP_RETURN] /\
    constants (compilingChunk st') = constants chunk ++ literals e /\
    stderr st' = stderr st.
Proof.
  intros Ho Hwf Hpool Hrest.
  unfold compile, expression. fold (entry_state (o :: tokens e ++ rest) chunk st).
  set (st0 := entry_state (o :: tokens e ++ rest) chunk st).
  assert (Hoe : is_error o = false) by (unfold is_error; rewrite Ho; reflexivity).
  assert (Hpend0 : pending (scanner st0) = o :: tokens e ++ rest) by reflexivity.
  pose proof (advance_token st0 o (tokens e ++ rest) Hpend0 Hoe) as Hadv1.
  set (st1 := advance st0) in *.
  assert (Hleft : tokens_left st1 = S (length (tokens e) + length rest)).
  { rewrite Hadv1. unfold tokens_left. cbn [parser scanner current pending].
    rewrite Ho. cbn. rewrite length_app. lia. }
  rewrite Hleft. set (F := (length (tokens e) + length rest)%nat).
  change (parsePrecedence (S (S F)) PREC_ASSIGN st1)
    with (parsePrecedence_body (parsePrecedence (S F)) (S F) PREC_ASSIGN st1).
  unfold parsePrecedence_body at 1. cbv zeta.
  destruct (tokens_head e Hwf) as (h & more & Eh & Hh).
  assert (Hpend1 : pending (scanner st1) = h :: more ++ rest)
    by (rewrite Hadv1, Eh; reflexivity).
  pose proof (advance_token st1 h (more ++ rest) Hpend1 Hh) as Hadv2.
  set (st2 := advance st1) in *.
  assert (Hprev2 : previous (parser st2) = o) by (rewrite Hadv2, Hadv1; reflexivity).
  assert (Hup2 : upcoming st2 = tokens e ++ rest) by (rewrite Hadv2, Eh; reflexivity).
  assert (Hch2 : compilingChunk st2 = chunk) by (rewrite Hadv2, Hadv1; reflexivity).
  assert (Fh2 : hadError (parser st2) = hadError (parser st))
    by (rewrite Hadv2, Hadv1; reflexivity).
  assert (Fe2 : stderr st2 = stderr st) by (rewrite Hadv2, Hadv1; reflexivity).
  rewrite Hprev2, Ho.
  change (prefix (getRule TOKEN_LEFT_PAREN)) with (Some fn_grouping).
  cbn [call]. unfold grouping, expression.
  change (parsePrecedence (S F) PREC_ASSIGN st2)
    with (parsePrecedence_body (parsePrecedence F) F PREC_ASSIGN st2).
  destruct (tokens_last e) as [front Efront].
  pose proof (lookahead_after (tokens e) front rest (last_token e) st2 Hup2 Efront
                (tokens_not_error e Hwf)) as Hlook.
  set (Se := advances (length (tokens e)) st2) in *.
  assert (Hcur : precedence (getRule (tok_type (current (parser Se)))) = PREC_NONE /\
                 tok_type (current (parser Se)) <> TOKEN_RIGHT_PAREN).
  { destruct (skip_errors rest) as [|t more'].
    - destruct Hlook as [-> _]. split; [reflexivity|discriminate].
    - destruct Hlook as [-> _]. exact Hrest. }
  destruct Hcur as [Hprec0 Hnoparen].
  pose proof (level_bounds e Hwf) as Hlb.
  rewrite (parse_expression e Hwf F F PREC_ASSIGN st2 rest);
    [|reflexivity|unfold PREC_ASSIGN, PREC_TERM in *; lia|exact Hup2
     |apply follow_ok_level; [exact Hwf|]; fold Se; rewrite Hprec0;
      unfold PREC_NONE, PREC_TERM in *; lia
     |rewrite Hch2; exact Hpool|unfold F; lia|unfold F; lia].
  fold Se. rewrite Hch2.
  rewrite infix_loop_stop
    by (cbn [with_chunk parser current]; rewrite Hprec0; reflexivity).
  cbn [andThen].
  rewrite consume_mismatch by (cbn [with_chunk parser current]; exact Hnoparen).
  rewrite infix_loop_stop
    by (cbn [with_chunk parser current]; rewrite Hprec0; reflexivity).
  destruct (advances_flags (length (tokens e)) st2) as (Fh & _ & Fe & _).
  fold Se in Fh, Fe.
  unfold consume, errorAtCurrent. cbn [with_chunk parser current].
  destruct (TokenType_eqb (tok_type (current (parser Se))) TOKEN_EOF) eqn:Eeof.
  - fold (with_chunk (postfix e chunk) Se). rewrite advance_with_chunk.
    destruct (advance_spec Se) as (_ & Ah & _ & _ & Ae & _).
    eexists. split; [unfold endCompiler, emitReturn; cbn; rewrite Ah, Fh, Fh2; reflexivity|].
    unfold endCompiler, emitReturn. cbn.
    rewrite Ae, Fe, Fe2, <- app_assoc. auto.
  - eexists. split; [unfold endCompiler, emitReturn; cbn; rewrite Fh, Fh2; reflexivity|].
    unfold endCompiler, emitReturn. cbn.
    rewrite Fe, Fe2, <- app_assoc. auto.
Qed.

Lemma compile_missing_right_paren_witness :
  exists st',
    compile (H := host) src_unclosed_nil initChunk startState = Some (true, st') /\
    code (compilingChunk st') =
      [OpCode_byte OP_CONSTANT; 0; OpCode_byte OP_CONSTANT; 1; OpCode_byte OP_ADD;
       OpCode_byte OP_RETURN] /\
    stderr st' = [].
Proof.
  destruct (compile_missing_right_paren (H := host)
              (token_at "(1 + 2 nil" TOKEN_LEFT_PAREN 0 1)
              (EBinary (ENumber (token_at "(1 + 2 nil" TOKEN_NUMBER 1 1))
                       (token_at "(1 + 2 nil" TOKEN_PLUS 3 1)
                       (ENumber (token_at "(1 + 2 nil" TOKEN_NUMBER 5 1)))
              [token_at "(1 + 2 nil" TOKEN_NIL 7 3] initChunk startState)
    as (st' & Hc & Hcode & _ & He).
  - reflexivity.
  - simpl. repeat split; try reflexivity; try (eexists; reflexivity); vm_compute; discriminate.
  - vm_compute. discriminate.
  - split; [reflexivity|discriminate].
  - exists st'. split; [exact Hc|]. split; [exact Hcode|exact He].
Defined.

(** X8: the operand [emitConstant] writes. The two bytes appended are
    [OP_CONSTANT] and an operand between 0 and 255, and the value is added
    at the end of the pool in every case. While the pool holds at most 255
    constants before the call, the operand is the index of the value in
    the pool, and neither the parser nor [stderr] changes. *)
Theorem emitConstant_operand (value : Value) (st : State) :
  exists operand,
    code (compilingChunk (emitConstant value st)) =
      code (compilingChunk st) ++ [OpCode_byte OP_CONSTANT; operand] /\
    0 <= operand <= UINT8_MAX /\
    constants (compilingChunk (emitConstant value st)) =
      constants (compilingChunk st) ++ [value] /\
    (Z.of_nat (length (constants (compilingChunk st))) <= UINT8_MAX ->
     constants (compilingChunk (emitConstant value st)) !! Z.to_nat operand = Some value /\
     parser (emitConstant value st) = parser st /\
     stderr (emitConstant value st) = stderr st).
Proof.
  destruct (Z.leb_spec (Z.of_nat (length (constants (compilingChunk st)))) UINT8_MAX)
    as [Hin|Hover].
  - rewrite (emitConstant_in_range value st Hin). cbn [compilingChunk code constants].
    eexists. split; [reflexivity|]. unfold UINT8_MAX in *.
    split; [lia|]. split; [reflexivity|]. intros _.
    rewrite Nat2Z.id. cbn [parser stderr].
    split; [|auto]. rewrite lookup_app_r by lia. rewrite Nat.sub_diag. reflexivity.
  - exists 0. apply Z.ltb_lt in Hover.
    unfold emitConstant, makeConstant, addConstant, currentChunk.
    rewrite Hover. unfold error, errorAt, emitBytes, emitByte, writeChunk, currentChunk.
    apply Z.ltb_lt in Hover. cbn [parser panicMode].
    destruct (panicMode (parser st)); cbn; rewrite <- ?app_assoc;
      (split; [reflexivity|]); (split; [unfold UINT8_MAX; lia|]);
      (split; [reflexivity|]); intros Hin; lia.
Qed.

(** ** object.c: [hashString] *)

Lemma hash_bytes_range `{CImpl} (bytes : list byte) : 0 <= hash_bytes bytes < 2 ^ 32.
Proof.
  unfold hash_bytes.
  assert (Hinit : 0 <= 2166136261 < 2 ^ 32) by lia.
  revert Hinit. generalize 2166136261.
  induction bytes as [|c bytes IH]; intros h Hh; simpl; [exact Hh|].
  apply IH. apply Z.mod_pos_bound. lia.
Qed.

(** X9: [hashString] reads the first [length] bytes of [key] and nothing
    else, and its result is a 32-bit number. It is the FNV-1a hash of
    these bytes where plain [char] is unsigned, and on bytes below 128
    everywhere. With a [length] of zero or less it is the offset basis
    2166136261. *)
Theorem hashString_fnv1a `{CImpl} (key : list byte) (len : Z) :
  (Z.to_nat len <= length key)%nat ->
  exists hash,
    hashString key len = Some hash /\
    0 <= hash < 2 ^ 32 /\
    (forall key', take (Z.to_nat len) key' = take (Z.to_nat len) key ->
                  hashString key' len = Some hash) /\
    (char_is_signed = false \/
     Forall (fun c => Z.of_N (Byte.to_N c) < 128) (take (Z.to_nat len) key) ->
     hash = fnv1a (take (Z.to_nat len) key)) /\
    (len <= 0 -> hash = 2166136261).
Proof.
  intros Hlen. exists (hash_bytes (take (Z.to_nat len) key)).
  split; [apply hashString_spec; exact Hlen|].
  split; [apply hash_bytes_range|].
  split; [|split].
  - intros key' Hsame. rewrite <- Hsame. apply hashString_spec.
    apply (f_equal length) in Hsame. rewrite !length_take in Hsame. lia.
  - apply hash_bytes_fnv1a.
  - intros Hneg. replace (Z.to_nat len) with 0%nat by lia. reflexivity.
Qed.

Lemma hashString_fnv1a_witness :
  hashString (H := host) chars_ab 2 = Some (fnv1a [Byte.x61; Byte.x62]).
Proof.
  destruct (hashString_fnv1a (H := host) chars_ab 2) as (hash & Hh & _ & _ & Hf & _).
  - simpl. lia.
  - rewrite Hh. f_equal. apply Hf. right. repeat constructor.
Defined.

Lemma lxor_range (a b : Z) :
  0 <= a < 2 ^ 32 -> 0 <= b < 2 ^ 32 -> 0 <= Z.lxor a b < 2 ^ 32.
Proof.
  intros Ha Hb.
  assert (Hnn : 0 <= Z.lxor a b) by (apply Z.lxor_nonneg; lia).
  split; [exact Hnn|].
  destruct (Z.eq_dec (Z.lxor a b) 0) as [E|E]; [rewrite E; lia|].
  apply Z.log2_lt_pow2; [lia|].
  pose proof (Z.log2_lxor a b ltac:(lia) ltac:(lia)) as Hl.
  assert (La : Z.log2 a < 32).
  { destruct (Z.eq_dec a 0) as [->|]; [reflexivity|]. apply Z.log2_lt_pow2; lia. }
  assert (Lb : Z.log2 b < 32).
  { destruct (Z.eq_dec b 0) as [->|]; [reflexivity|]. apply Z.log2_lt_pow2; lia. }
  lia.
Qed.

(** One round of the loop of [hashString] is one-to-one on 32-bit values:
    16777619 is odd. *)
Lemma hash_round_injective (h h' c : Z) :
  0 <= h < 2 ^ 32 -> 0 <= h' < 2 ^ 32 -> 0 <= c < 2 ^ 32 ->
  (Z.lxor h c * 16777619) mod 2 ^ 32 = (Z.lxor h' c * 16777619) mod 2 ^ 32 ->
  h = h'.
Proof.
  intros Hh Hh' Hc E.
  assert (Hinv : forall x, 0 <= x < 2 ^ 32 ->
            ((x * 16777619) mod 2 ^ 32 * 899433627) mod 2 ^ 32 = x).
  { intros x Hx. rewrite Z.mul_mod_idemp_l by lia.
    rewrite <- Z.mul_assoc. rewrite <- Z.mul_mod_idemp_r by lia.
    change ((16777619 * 899433627) mod 2 ^ 32) with 1.
    rewrite Z.mul_1_r. apply Z.mod_small. exact Hx. }
  assert (Ex : Z.lxor h c = Z.lxor h' c).
  { rewrite <- (Hinv (Z.lxor h c)) by (apply lxor_range; assumption).
    rewrite <- (Hinv (Z.lxor h' c)) by (apply lxor_range; assumption).
    rewrite E. reflexivity. }
  apply (f_equal (fun x => Z.lxor x c)) in Ex.
  rewrite !Z.lxor_assoc, Z.lxor_nilpotent, !Z.lxor_0_r in Ex. exact Ex.
Qed.

Lemma hash_rounds_injective (bytes : list byte) (h h' : Z) :
  0 <= h < 2 ^ 32 -> 0 <= h' < 2 ^ 32 ->
  h <> h' ->
  fold_left (fun hash b => (Z.lxor hash (Z.of_N (Byte.to_N b)) * 16777619) mod 2 ^ 32)
            bytes h
  <> fold_left (fun hash b => (Z.lxor hash (Z.of_N (Byte.to_N b)) * 16777619) mod 2 ^ 32)
               bytes h'.
Proof.
  revert h h'. induction bytes as [|b bytes IH]; intros h h' Hh Hh' Hne; simpl; [exact Hne|].
  pose proof (Byte.to_N_bounded b) as Hb.
  apply IH; try (apply Z.mod_pos_bound; lia).
  intros E. apply Hne. apply (hash_round_injective h h' (Z.of_N (Byte.to_N b))); try assumption.
  lia.
Qed.

Lemma hash_rounds_ascii `{CImpl} (bytes : list byte) (h : Z) :
  Forall (fun c => Z.of_N (Byte.to_N c) < 128) bytes ->
  fold_left (fun hash c => (Z.lxor hash (char_to_uint32 c) * 16777619) mod 2 ^ 32) bytes h
  = fold_left (fun hash b => (Z.lxor hash (Z.of_N (Byte.to_N b)) * 16777619) mod 2 ^ 32)
              bytes h.
Proof.
  revert h. induction bytes as [|c bytes IH]; intros h Hb; simpl; [reflexivity|].
  inversion Hb as [|? ? Hc Hrest]; subst.
  rewrite IH by exact Hrest.
  assert (Echar : char_to_uint32 c = Z.of_N (Byte.to_N c)).
  { unfold char_to_uint32. pose proof (Byte.to_N_bounded c) as Hbound.
    replace (128 <=? Z.of_N (Byte.to_N c)) with false by (symmetry; apply Z.leb_gt; lia).
    rewrite andb_false_r. apply Z.mod_small. lia. }
  rewrite Echar. reflexivity.
Qed.

Lemma hash_rounds_range (bytes : list byte) (h : Z) :
  0 <= h < 2 ^ 32 ->
  0 <= fold_left (fun hash b => (Z.lxor hash (Z.of_N (Byte.to_N b)) * 16777619) mod 2 ^ 32)
                 bytes h < 2 ^ 32.
Proof.
  revert h. induction bytes as [|b bytes IH]; intros h Hh; simpl; [exact Hh|].
  apply IH. apply Z.mod_pos_bound. lia.
Qed.

(** X10: where plain [char] is signed, [hashString] is not FNV-1a
    outside ASCII: on a key with exactly one byte above 127 among the
    bytes it reads, its result differs from the FNV-1a hash of these bytes
    ([hash ^= key[i]] extends the sign of the byte to 32 bits). *)
Theorem hashString_signed_char `{CImpl} (before after : list byte) (c : byte) :
  char_is_signed = true ->
  128 <= Z.of_N (Byte.to_N c) ->
  Forall (fun b => Z.of_N (Byte.to_N b) < 128) before ->
  Forall (fun b => Z.of_N (Byte.to_N b) < 128) after ->
  exists hash,
    hashString (before ++ c :: after) (Z.of_nat (length (before ++ c :: after))) = Some hash /\
    hash <> fnv1a (before ++ c :: after).
Proof.
  intros Hs Hc Hbefore Hafter.
  eexists. split.
  { rewrite hashString_spec by (rewrite Nat2Z.id; reflexivity).
    rewrite Nat2Z.id, firstn_all. reflexivity. }
  unfold hash_bytes, fnv1a. rewrite !fold_left_app. cbn [fold_left].
  rewrite (hash_rounds_ascii before) by exact Hbefore.
  rewrite (hash_rounds_ascii after) by exact Hafter.
  pose proof (hash_rounds_range before 2166136261 ltac:(lia)) as Hh.
  set (h := fold_left _ before 2166136261) in *.
  pose proof (Byte.to_N_bounded c) as Hbound.
  set (n := Z.of_N (Byte.to_N c)) in *.
  assert (Hn : 0 <= n < 256) by (unfold n; lia).
  assert (Echar : char_to_uint32 c = n + 4294967040).
  { unfold char_to_uint32. fold n. rewrite Hs.
    replace (128 <=? n) with true by (symmetry; apply Z.leb_le; lia).
    cbn [andb].
    replace (n - 256) with (n + 4294967040 + (-1) * 2 ^ 32) by lia.
    rewrite Z.mod_add by lia. apply Z.mod_small. lia. }
  rewrite Echar.
  apply hash_rounds_injective; try (apply Z.mod_pos_bound; lia).
  intros E.
  assert (Hinv : forall x, 0 <= x < 2 ^ 32 ->
            ((x * 16777619) mod 2 ^ 32 * 899433627) mod 2 ^ 32 = x).
  { intros x Hx. rewrite Z.mul_mod_idemp_l by lia.
    rewrite <- Z.mul_assoc. rewrite <- Z.mul_mod_idemp_r by lia.
    change ((16777619 * 899433627) mod 2 ^ 32) with 1.
    rewrite Z.mul_1_r. apply Z.mod_small. exact Hx. }
  assert (Ex : Z.lxor h (n + 4294967040) = Z.lxor h n).
  { rewrite <- (Hinv (Z.lxor h (n + 4294967040))) by (apply lxor_range; lia).
    rewrite <- (Hinv (Z.lxor h n)) by (apply lxor_range; lia).
    rewrite E. reflexivity. }
  apply (f_equal (Z.lxor h)) in Ex.
  rewrite <- !Z.lxor_assoc, Z.lxor_nilpotent, !Z.lxor_0_l in Ex. lia.
Qed.

Lemma hashString_signed_char_witness :
  exists hash,
    hashString (H := host) [Byte.x61; Byte.xe9] 2 = Some hash /\
    hash <> fnv1a [Byte.x61; Byte.xe9].
Proof.
  apply (hashString_signed_char (H := host) [Byte.x61] [] Byte.xe9).
  - reflexivity.
  - vm_compute. discriminate.
  - repeat constructor.
  - constructor.
Defined.

(** ** object.c: [allocateString] and [takeString] *)

Lemma copy_until_nul_overrun (content rest : list byte) :
  forall (i : nat) (dst : list byte),
  Forall (fun c => c <> Byte.x00) content ->
  (length dst < i + length content)%nat ->
  content <> [] ->
  copy_until_nul (content ++ Byte.x00 :: rest) (Z.of_nat i) dst = None.
Proof.
  induction content as [|c content IH]; intros i dst Hnn Hlen Hne; [congruence|].
  simpl. inversion Hnn as [|? ? Hc Hrest]; subst.
  destruct (N.eqb (Byte.to_N c) 0) eqn:E; [apply byte_is_nul in E; contradiction|].
  destruct (decide (i < length dst)%nat) as [Hi|Hi].
  - rewrite store_in_range by exact Hi.
    replace (Z.of_nat i + 1) with (Z.of_nat (S i)) by lia.
    simpl in Hlen. apply IH; [exact Hrest|rewrite length_insert; lia|].
    intros ->. simpl in Hlen. lia.
  - unfold store.
    replace (Z.of_nat i <? Z.of_nat (length dst)) with false
      by (symmetry; apply Z.ltb_ge; lia).
    rewrite andb_false_r. reflexivity.
Qed.

(** X11: [allocateString] on a C string (bytes without a NUL, then a NUL)
    and a [length] that need not be the string's. The loop copies the
    whole string whatever [length] says, so with a string of at most
    [length + 1] bytes the new object holds the string, then what the
    block held before, and a NUL at index [length] (which cuts a string of
    [length + 1] bytes short by one); the hash is taken over the first
    [length] bytes of that. The object is put in front of [vm.objects] and
    the intern table is left alone. *)
Theorem allocateString_any_length `{CImpl} (g : Garbage) (content rest : list byte)
    (len : Z) (vm : VM) :
  Forall (fun c => c <> Byte.x00) content ->
  0 <= len ->
  (length content <= Z.to_nat len + 1)%nat ->
  exists buffer,
    buffer = <[Z.to_nat len := Byte.x00]>
               (content ++ map (g_chars g) (seq (length content)
                                                (Z.to_nat len + 1 - length content))) /\
    length buffer = (Z.to_nat len + 1)%nat /\
    allocateString g (content ++ Byte.x00 :: rest) len vm =
      Some (fresh (dom (heap vm)),
            mkVM (<[fresh (dom (heap vm)) :=
                     mkObjString OBJ_STRING (objects vm) len
                                 (hash_bytes (take (Z.to_nat len) buffer)) buffer]> (heap vm))
                 (Some (fresh (dom (heap vm)))) (strings vm)) /\
    (length content = Z.to_nat len -> buffer = content ++ [Byte.x00]).
Proof.
  intros Hnn Hlen Hfit.
  set (n := Z.to_nat len) in *. set (m := length content) in *.
  assert (Hdrop : drop m (map (g_chars g) (seq 0 (S n)))
                  = map (g_chars g) (seq m (n + 1 - m))).
  { change (@drop) with (@skipn). rewrite skipn_map. f_equal. change (@skipn) with (@drop).
    replace (S n) with (m + (n + 1 - m))%nat by lia.
    rewrite seq_app, drop_app_length'; [reflexivity|]. rewrite length_seq. reflexivity. }
  eexists. split; [reflexivity|].
  assert (Hb : length (content ++ map (g_chars g) (seq m (n + 1 - m))) = (n + 1)%nat).
  { rewrite length_app, length_map, length_seq. fold m. lia. }
  split; [rewrite length_insert; exact Hb|].
  split.
  - unfold allocateString, allocateObject, fresh_block.
    replace (Z.to_nat (len + 1)) with (S n) by lia.
    cbn [str_length str_hash str_chars heap objects strings].
    rewrite lookup_insert_eq. cbn [mbind option_bind str_chars obj_type obj_next].
    pose proof (copy_until_nul_spec content rest 0 (map (g_chars g) (seq 0 (S n))) Hnn) as Hcopy.
    change (Z.of_nat 0) with 0 in Hcopy. rewrite take_0 in Hcopy.
    cbn [app Nat.add] in Hcopy. fold m in Hcopy.
    rewrite Hcopy by (rewrite length_map, length_seq; lia). clear Hcopy.
    rewrite Hdrop. cbn [mbind option_bind].
    replace len with (Z.of_nat n) at 1 by lia.
    rewrite store_in_range by lia. cbn [mbind option_bind].
    rewrite hashString_spec by (rewrite length_insert; fold n; lia).
    cbn [mbind option_bind]. unfold set_string. cbn [heap objects strings].
    rewrite insert_insert_eq. fold n. reflexivity.
  - intros Hm. replace (n + 1 - m)%nat with 1%nat by lia. cbn [seq map].
    rewrite <- Hm. unfold m. rewrite insert_app_r_alt by lia.
    rewrite Nat.sub_diag. reflexivity.
Qed.

Lemma allocateString_any_length_witness :
  exists string vm' o,
    allocateString (H := host) garbage_55 chars_ab 4 emptyVM = Some (string, vm') /\
    heap vm' !! string = Some o /\
    str_chars o = [Byte.x61; Byte.x62; Byte.x55; Byte.x55; Byte.x00] /\
    objects vm' = Some string.
Proof.
  destruct (allocateString_any_length (H := host) garbage_55
              [Byte.x61; Byte.x62] [] 4 emptyVM) as (buffer & Hb & _ & Ha & _).
  - repeat constructor; discriminate.
  - lia.
  - simpl. lia.
  - do 3 eexists. split; [exact Ha|]. cbn [heap objects].
    split; [apply lookup_insert_eq|]. split; [rewrite Hb; reflexivity|reflexivity].
Defined.

(** X12: [allocateString] writes past the end of the block it has
    allocated when the C string passed in is longer than [length + 1]
    bytes: the copying loop stops at the NUL only, not at [length]. *)
Theorem allocateString_too_long `{CImpl} (g : Garbage) (content rest : list byte)
    (len : Z) (vm : VM) :
  Forall (fun c => c <> Byte.x00) content ->
  0 <= len ->
  (Z.to_nat len + 1 < length content)%nat ->
  allocateString g (content ++ Byte.x00 :: rest) len vm = None /\
  takeString g (content ++ Byte.x00 :: rest) len vm = None.
Proof.
  intros Hnn Hlen Hlong.
  assert (E : allocateString g (content ++ Byte.x00 :: rest) len vm = None).
  { unfold allocateString, allocateObject, fresh_block.
    cbn [str_length str_hash str_chars heap objects strings].
    rewrite lookup_insert_eq. cbn [mbind option_bind str_chars].
    pose proof (copy_until_nul_overrun content rest 0
                  (map (g_chars g) (seq 0 (Z.to_nat (len + 1)))) Hnn) as Hcopy.
    change (Z.of_nat 0) with 0 in Hcopy.
    rewrite Hcopy; [reflexivity| |].
    - rewrite length_map, length_seq. lia.
    - intros ->. simpl in Hlong. lia. }
  split; [exact E|exact E].
Qed.

Lemma allocateString_too_long_witness :
  allocateString (H := host) garbage_55 (chars_ab ++ chars_ab) 0 emptyVM = None.
Proof.
  destruct (allocateString_too_long (H := host) garbage_55 [Byte.x61; Byte.x62]
              chars_ab 0 emptyVM) as [E _].
  - repeat constructor; discriminate.
  - lia.
  - simpl. lia.
  - exact E.
Defined.

(** ** object.c: [copyString] *)


(** The two ways through [copyString], for a table whose keys are
    allocated: the content is found and the VM is left as it was, or it is
    not found and the scratch string is put in the table. *)
Lemma copyString_cases `{CImpl} (g : Garbage) (chars : list byte) (len : Z) (vm : VM) :
  0 <= len ->
  (Z.to_nat len <= length chars)%nat ->
  table_allocated vm ->
  let hash := hash_bytes (take (Z.to_nat len) chars) in
  (exists interned,
     tableFindString (heap vm) (strings vm) chars len hash = Some interned /\
     copyString g chars len vm = Some (interned, vm)) \/
  (tableFindString (heap vm) (strings vm) chars len hash = None /\
   copyString g chars len vm =
     Some (fresh (dom (heap vm)),
           mkVM (<[fresh (dom (heap vm)) :=
                    string_object (g_next g) (take (Z.to_nat len) chars)]> (heap vm))
                (objects vm)
                (tableSet (strings vm) (fresh (dom (heap vm))) NIL_VAL))).
Proof.
  intros Hlen Hchars Hwf hash.
  set (content := take (Z.to_nat len) chars) in *.
  assert (Hcontent : length content = Z.to_nat len)
    by (unfold content; rewrite length_take; lia).
  assert (Hprefix : take (Z.to_nat len) (content ++ [Byte.x00]) = content).
  { rewrite take_app_le by lia. apply take_ge. lia. }
  assert (Hp_heap : heap vm !! fresh (dom (heap vm)) = None) by apply fresh_not_allocated.
  assert (Hp_key : strings vm !! fresh (dom (heap vm)) = None)
    by (apply fresh_not_key; exact Hwf).
  assert (Hfind :
    tableFindString (<[fresh (dom (heap vm)) := string_object (g_next g) content]> (heap vm))
      (strings vm) (content ++ [Byte.x00]) len hash
    = tableFindString (heap vm) (strings vm) chars len hash).
  { apply tableFindString_agree.
    - intros k Hk. apply lookup_insert_ne.
      intros <-. rewrite Hp_key in Hk. destruct Hk; discriminate.
    - rewrite Hprefix. reflexivity. }
  pose proof (copyString_spec g chars len vm Hlen Hchars) as Hcall.
  cbv zeta in Hcall. fold content hash in Hcall. rewrite Hfind in Hcall.
  destruct (tableFindString (heap vm) (strings vm) chars len hash) as [interned|].
  - left. exists interned. split; [reflexivity|].
    rewrite Hcall. rewrite delete_insert_id by exact Hp_heap.
    destruct vm; reflexivity.
  - right. split; [reflexivity|exact Hcall].
Qed.


(** X14: what [copyString] returns, for a table whose keys are allocated.
    The reference returned is a key of the intern table and an allocated
    string with the requested length, the first [length] bytes of [chars]
    and their hash; a lookup of this content in the table now finds this
    reference; and the keys of the table are still allocated. *)
Theorem copyString_interns `{CImpl} (g : Garbage) (chars : list byte) (len : Z) (vm : VM) :
  0 <= len ->
  (Z.to_nat len <= length chars)%nat ->
  table_allocated vm ->
  exists r vm' o,
    copyString g chars len vm = Some (r, vm') /\
    heap vm' !! r = Some o /\
    str_length o = len /\
    take (Z.to_nat len) (str_chars o) = take (Z.to_nat len) chars /\
    str_hash o = hash_bytes (take (Z.to_nat len) chars) /\
    is_Some (strings vm' !! r) /\
    tableFindString (heap vm') (strings vm') chars len
                    (hash_bytes (take (Z.to_nat len) chars)) = Some r /\
    table_allocated vm'.
Proof.
  intros Hlen Hchars Hwf.
  set (content := take (Z.to_nat len) chars).
  assert (Hcontent : length content = Z.to_nat len)
    by (unfold content; rewrite length_take; lia).
  destruct (copyString_cases g chars len vm Hlen Hchars Hwf)
    as [(interned & Hfind & Hcall)|(Hfind & Hcall)]; cbv zeta in Hfind; fold content in Hfind, Hcall.
  - destruct (tableFindString_Some _ _ _ _ _ _ Hfind) as (v & Hkey & Hmatch).
    unfold key_matches in Hmatch. cbn [fst] in Hmatch.
    destruct (heap vm !! interned) as [o|] eqn:Ho; [|contradiction].
    destruct Hmatch as (Hl & Hh & Hc).
    exists interned, vm, o. rewrite Hkey. eauto 10.
  - pose proof (fresh_not_key vm Hwf) as Hp_key.
    set (p := fresh (dom (heap vm))) in *.
    do 3 eexists. split; [exact Hcall|]. cbn [heap strings].
    split; [apply lookup_insert_eq|].
    unfold string_object. cbn [str_length str_hash str_chars].
    split; [lia|].
    split; [rewrite take_app_le by lia; rewrite take_ge by lia; reflexivity|].
    split; [reflexivity|].
    split; [unfold tableSet; rewrite lookup_insert_eq; eauto|].
    split.
    + apply tableFindString_after_set.
      * rewrite <- Hfind. apply tableFindString_agree; [|reflexivity].
        intros k Hk. apply lookup_insert_ne. intros <-.
        rewrite Hp_key in Hk. destruct Hk; discriminate.
      * unfold key_matches. cbn [fst]. rewrite lookup_insert_eq.
        cbn [str_length str_hash str_chars].
        split; [lia|]. split; [reflexivity|].
        rewrite take_app_le by lia. rewrite take_ge by lia. reflexivity.
    + unfold table_allocated in *. unfold tableSet. cbn [heap strings].
      rewrite !dom_insert. apply union_mono_l. exact Hwf.
Qed.

Lemma copyString_interns_witness :
  exists r vm' o,
    copyString (H := host) garbage_55 chars_ab 2 emptyVM = Some (r, vm') /\
    heap vm' !! r = Some o /\
    str_length o = 2 /\
    is_Some (strings vm' !! r).
Proof.
  destruct (copyString_interns (H := host) garbage_55 chars_ab 2 emptyVM)
    as (r & vm' & o & Hc & Ho & Hl & _ & _ & Hk & _).
  - lia.
  - simpl. lia.
  - unfold table_allocated. simpl. set_solver.
  - exists r, vm', o. split; [exact Hc|]. split; [exact Ho|]. split; [exact Hl|exact Hk].
Defined.

(** X15: [copyString] is idempotent on a table whose keys are allocated:
    once it has returned a reference for some content, every further call
    with the same [length] bytes returns this reference and leaves the VM
    as it is, whether the first call found the content or put it in the
    table. *)
Theorem copyString_idempotent `{CImpl} (g1 g2 : Garbage) (chars1 chars2 : list byte)
    (len : Z) (vm : VM) :
  0 <= len ->
  (Z.to_nat len <= length chars1)%nat ->
  (Z.to_nat len <= length chars2)%nat ->
  take (Z.to_nat len) chars1 = take (Z.to_nat len) chars2 ->
  table_allocated vm ->
  exists r vm',
    copyString g1 chars1 len vm = Some (r, vm') /\
    copyString g2 chars2 len vm' = Some (r, vm').
Proof.
  intros Hlen Hc1 Hc2 Hsame Hwf.
  destruct (copyString_cases g1 chars1 len vm Hlen Hc1 Hwf)
    as [(interned & Hfind & Hcall)|(Hfind & Hcall)]; cbv zeta in Hfind.
  - exists interned, vm. split; [exact Hcall|].
    apply (copyString_again_interned g1 g2 chars1 chars2 len vm interned); assumption.
  - set (content := take (Z.to_nat len) chars1) in *.
    assert (Hcontent : length content = Z.to_nat len)
      by (unfold content; rewrite length_take; lia).
    pose proof (fresh_not_key vm Hwf) as Hp_key.
    set (p := fresh (dom (heap vm))) in *.
    set (vm1 := mkVM (<[p := string_object (g_next g1) content]> (heap vm)) (objects vm)
                     (tableSet (strings vm) p NIL_VAL)) in *.
    exists p, vm1. split; [exact Hcall|].
    apply (copyString_again_interned g1 g2 chars1 chars2 len vm1 p); try assumption.
    + unfold table_allocated in *. unfold vm1, tableSet. cbn [heap strings].
      rewrite !dom_insert. apply union_mono_l. exact Hwf.
    + fold content. unfold vm1. cbn [heap strings].
      apply tableFindString_after_set.
      * rewrite <- Hfind. apply tableFindString_agree; [|reflexivity].
        intros k Hk. apply lookup_insert_ne. intros <-.
        rewrite Hp_key in Hk. destruct Hk; discriminate.
      * unfold key_matches. cbn [fst]. rewrite lookup_insert_eq.
        unfold string_object. cbn [str_length str_hash str_chars].
        split; [lia|]. split; [reflexivity|].
        rewrite take_app_le by lia. rewrite take_ge by lia. reflexivity.
Qed.

Lemma copyString_idempotent_witness :
  exists r vm',
    copyString (H := host) garbage_55 chars_ab 1 vm_a_interned = Some (r, vm') /\
    copyString (H := host) garbage_55 [Byte.x61] 1 vm' = Some (r, vm').
Proof.
  destruct (copyString_idempotent (H := host) garbage_55 garbage_55 chars_ab [Byte.x61] 1
              vm_a_interned) as (r & vm' & H1 & H2).
  - lia.
  - simpl. lia.
  - simpl. lia.
  - reflexivity.
  - unfold table_allocated, vm_a_interned. cbn [heap strings].
    rewrite !dom_insert. apply union_subseteq_r.
  - exists r, vm'. split; [exact H1|exact H2].
Defined.

(** ** object.c: the list [vm.objects] *)

Lemma path_insert_target h start b c :
  path h start b -> path (<[b := c]> h) start b.
Proof.
  induction 1 as [a|a o b Ha Hp IH]; [constructor|].
  destruct (decide (a = b)) as [->|Hne]; [constructor|].
  apply (path_next _ a o b); [rewrite lookup_insert_ne by congruence; exact Ha|exact IH].
Qed.

Lemma path_insert_other h start b p c :
  ~ path h start p -> path h start b -> path (<[p := c]> h) start b.
Proof.
  intros Hp Hb. induction Hb as [a|a o b Ha Hb IH]; [constructor|].
  assert (Hne : p <> a) by (intros ->; apply Hp; constructor).
  apply (path_next _ a o b); [rewrite lookup_insert_ne by exact Hne; exact Ha|].
  apply IH. intros Hq. apply Hp. apply (path_next _ a o p Ha Hq).
Qed.

Lemma path_insert_back h start b p c :
  ~ path h start p -> path (<[p := c]> h) start b -> path h start b.
Proof.
  intros Hp Hb. remember (<[p := c]> h) as h' eqn:Eh.
  induction Hb as [a|a o b Ha Hb IH]; [constructor|].
  assert (Hne : p <> a) by (intros ->; apply Hp; constructor).
  rewrite Eh in Ha. rewrite lookup_insert_ne in Ha by exact Hne.
  apply (path_next _ a o b Ha). apply IH.
  intros Hq. apply Hp. apply (path_next _ a o p Ha Hq).
Qed.

Lemma fresh_not_tracked (vm : VM) :
  tracked_allocated vm -> ~ tracked vm (fresh (dom (heap vm))).
Proof.
  intros Hwf Ht. apply Hwf in Ht. rewrite fresh_not_allocated in Ht.
  destruct Ht; discriminate.
Qed.

(** Putting an object that is not on the list in front of it. *)
Lemma tracked_push (vm : VM) (p : address) (o : ObjString) :
  ~ tracked vm p ->
  obj_next o = objects vm ->
  forall a, path (<[p := o]> (heap vm)) (Some p) a <-> a = p \/ tracked vm a.
Proof.
  intros Hp Hnext a. split.
  - intros Ha. inversion Ha as [|? o' ? Hl Hrest]; subst; [left; reflexivity|].
    right. rewrite lookup_insert_eq in Hl. injection Hl as <-.
    rewrite Hnext in Hrest. apply (path_insert_back _ _ _ p o Hp Hrest).
  - intros [->|Ha]; [constructor|].
    apply (path_next _ p o a); [apply lookup_insert_eq|].
    rewrite Hnext. apply path_insert_other; assumption.
Qed.



Lemma tracked_allocated_emptyVM : tracked_allocated emptyVM.
Proof. intros a Ha. inversion Ha. Qed.


(** X17: [takeString] does not intern. Two calls on the same C string
    give two different objects with the same content, both on the list of
    objects, and the intern table is not touched. *)
Theorem takeString_twice `{CImpl} (g1 g2 : Garbage) (content rest1 rest2 : list byte)
    (vm : VM) :
  Forall (fun c => c <> Byte.x00) content ->
  exists r1 vm1 r2 vm2,
    takeString g1 (content ++ Byte.x00 :: rest1) (Z.of_nat (length content)) vm
      = Some (r1, vm1) /\
    takeString g2 (content ++ Byte.x00 :: rest2) (Z.of_nat (length content)) vm1
      = Some (r2, vm2) /\
    r1 <> r2 /\
    heap vm2 !! r1 = Some (string_object (objects vm) content) /\
    heap vm2 !! r2 = Some (string_object (Some r1) content) /\
    objects vm2 = Some r2 /\
    strings vm2 = strings vm.
Proof.
  intros Hnn. unfold takeString.
  set (r1 := fresh (dom (heap vm))).
  set (vm1 := mkVM (<[r1 := string_object (objects vm) content]> (heap vm)) (Some r1)
                   (strings vm)).
  set (r2 := fresh (dom (heap vm1))).
  assert (Hne : r1 <> r2).
  { intros E. pose proof (fresh_not_allocated vm1) as Hf. fold r2 in Hf.
    rewrite <- E in Hf. unfold vm1 in Hf. cbn [heap] in Hf.
    rewrite lookup_insert_eq in Hf. discriminate. }
  exists r1, vm1, r2. eexists.
  split; [apply allocateString_c_string; exact Hnn|].
  split; [apply allocateString_c_string; exact Hnn|].
  cbn [heap objects strings]. fold r2.
  split; [exact Hne|].
  split; [rewrite lookup_insert_ne by congruence; apply lookup_insert_eq|].
  split; [apply lookup_insert_eq|]. auto.
Qed.

Lemma takeString_twice_witness :
  exists r1 vm1 r2 vm2,
    takeString (H := host) garbage_55 chars_ab 2 emptyVM = Some (r1, vm1) /\
    takeString (H := host) garbage_55 chars_ab 2 vm1 = Some (r2, vm2) /\
    r1 <> r2.
Proof.
  destruct (takeString_twice (H := host) garbage_55 garbage_55 [Byte.x61; Byte.x62] [] []
              emptyVM) as (r1 & vm1 & r2 & vm2 & H1 & H2 & Hne & _).
  - repeat constructor; discriminate.
  - exists r1, vm1, r2, vm2. split; [exact H1|]. split; [exact H2|exact Hne].
Defined.

(** X18: [copyString] never touches the list of objects, and a string it
    creates is not put on it. For a VM whose table keys and tracked
    objects are allocated: [vm.objects] and every object allocated before
    are unchanged, the same objects are on the list, and when the content
    was not interned the string returned is newly allocated, a key of the
    table, and not on the list. *)
Theorem copyString_untracked `{CImpl} (g : Garbage) (chars : list byte) (len : Z) (vm : VM) :
  0 <= len ->
  (Z.to_nat len <= length chars)%nat ->
  table_allocated vm ->
  tracked_allocated vm ->
  exists r vm',
    copyString g chars len vm = Some (r, vm') /\
    objects vm' = objects vm /\
    (forall a o, heap vm !! a = Some o -> heap vm' !! a = Some o) /\
    (forall a, tracked vm' a <-> tracked vm a) /\
    (not_interned chars len vm ->
     heap vm !! r = None /\ is_Some (heap vm' !! r) /\ is_Some (strings vm' !! r) /\
     ~ tracked vm' r).
Proof.
  intros Hlen Hchars Hwf Hlist.
  destruct (copyString_cases g chars len vm Hlen Hchars Hwf)
    as [(interned & Hfind & Hcall)|(Hfind & Hcall)]; cbv zeta in Hfind.
  - exists interned, vm. split; [exact Hcall|].
    split; [reflexivity|]. split; [auto|]. split; [reflexivity|].
    unfold not_interned. rewrite Hfind. discriminate.
  - pose proof (fresh_not_allocated vm) as Hfresh.
    pose proof (fresh_not_tracked vm Hlist) as Hnt.
    set (p := fresh (dom (heap vm))) in *.
    do 2 eexists. split; [exact Hcall|]. cbn [heap objects strings].
    assert (Hiff : forall a,
              path (<[p := string_object (g_next g) (take (Z.to_nat len) chars)]> (heap vm))
                   (objects vm) a <-> tracked vm a).
    { intros a. split.
      - apply path_insert_back. exact Hnt.
      - apply path_insert_other. exact Hnt. }
    split; [reflexivity|]. split; [|split].
    + intros a o Ha. rewrite lookup_insert_ne; [exact Ha|]. intros <-. congruence.
    + exact Hiff.
    + intros _. split; [exact Hfresh|].
      split; [rewrite lookup_insert_eq; eauto|].
      split; [unfold tableSet; rewrite lookup_insert_eq; eauto|].
      unfold tracked. cbn [heap objects]. rewrite Hiff. exact Hnt.
Qed.

Lemma copyString_untracked_witness :
  exists r vm',
    copyString (H := host) garbage_55 chars_ab 2 emptyVM = Some (r, vm') /\
    objects vm' = None /\
    is_Some (strings vm' !! r) /\
    ~ tracked vm' r.
Proof.
  destruct (copyString_untracked (H := host) garbage_55 chars_ab 2 emptyVM)
    as (r & vm' & Hc & Ho & _ & _ & Hmiss).
  - lia.
  - simpl. lia.
  - unfold table_allocated. simpl. set_solver.
  - exact tracked_allocated_emptyVM.
  - destruct Hmiss as (_ & _ & Hk & Hnt); [vm_compute; reflexivity|].
    exists r, vm'. split; [exact Hc|]. split; [exact Ho|]. split; [exact Hk|exact Hnt].
Defined.

(** ** object.c: [validateString] and [storeString] *)

(** The lookup does not read the [next] link of an object. *)
Lemma tableFindString_relink h (table : Table) chars len hash a o next :
  h !! a = Some o ->
  tableFindString
    (<[a := mkObjString (obj_type o) next (str_length o) (str_hash o) (str_chars o)]> h)
    table chars len hash
  = tableFindString h table chars len hash.
Proof.
  intros Ha. unfold tableFindString. f_equal.
  apply list_find_agree. intros [k v] _. unfold key_matches. cbn [fst].
  destruct (decide (a = k)) as [->|Hne].
  - rewrite lookup_insert_eq, Ha. reflexivity.
  - rewrite lookup_insert_ne by exact Hne. reflexivity.
Qed.

(** What [validateString] does, in terms of the object it ends up
    storing. *)
Lemma validateString_target (string : address) (o : ObjString) (vm : VM) :
  heap vm !! string = Some o ->
  exists target t,
    target = match tableFindString (heap vm) (strings vm) (str_chars o) (str_length o)
                                   (str_hash o) with
             | Some interned => interned
             | None => string
             end /\
    heap vm !! target = Some t /\
    validateString string vm =
      Some (mkVM (<[target := mkObjString (obj_type t) (objects vm) (str_length t)
                                          (str_hash t) (str_chars t)]> (heap vm))
                 (Some target)
                 (tableSet (strings vm) target NIL_VAL)).
Proof.
  intros Ho. unfold validateString. rewrite Ho. cbn [mbind option_bind].
  destruct (tableFindString _ _ _ _ _) as [interned|] eqn:Hfind.
  - destruct (tableFindString_Some _ _ _ _ _ _ Hfind) as (v & _ & Hmatch).
    unfold key_matches in Hmatch. cbn [fst] in Hmatch.
    destruct (heap vm !! interned) as [t|] eqn:Ht; [|contradiction].
    exists interned, t. split; [reflexivity|]. split; [exact Ht|].
    unfold storeString. rewrite Ht. reflexivity.
  - exists string, o. split; [reflexivity|]. split; [exact Ho|].
    unfold storeString. rewrite Ho. reflexivity.
Qed.

(** X19: [validateString] makes the list of objects circular whenever the
    object it stores is on the list already: the canonical instance found
    in the table if there is one (the function goes on to [storeString]
    after [string = interned]), or else the string given. The stored
    object becomes the head of [vm.objects], its [next] is the old head,
    and following the links from there leads back to it. *)
Theorem validateString_cycle (string target : address) (o : ObjString) (vm : VM) :
  heap vm !! string = Some o ->
  target = match tableFindString (heap vm) (strings vm) (str_chars o) (str_length o)
                                 (str_hash o) with
           | Some interned => interned
           | None => string
           end ->
  tracked vm target ->
  exists vm' t,
    validateString string vm = Some vm' /\
    objects vm' = Some target /\
    heap vm' !! target = Some t /\
    obj_next t = objects vm /\
    path (heap vm') (obj_next t) target.
Proof.
  intros Ho Htarget Htracked.
  destruct (validateString_target string o vm Ho) as (target' & t & Ht' & Ht & Hcall).
  rewrite <- Htarget in Ht'. subst target'.
  do 2 eexists. split; [exact Hcall|]. cbn [heap objects].
  split; [reflexivity|]. split; [apply lookup_insert_eq|].
  cbn [obj_next]. split; [reflexivity|].
  apply path_insert_target. exact Htracked.
Qed.

Lemma validateString_cycle_witness :
  exists vm' t,
    validateString 2%positive vm_a_interned = Some vm' /\
    objects vm' = Some 1%positive /\
    heap vm' !! 1%positive = Some t /\
    path (heap vm') (obj_next t) 1%positive.
Proof.
  destruct (validateString_cycle 2%positive 1%positive (string_a None) vm_a_interned)
    as (vm' & t & Hc & Ho & Ht & _ & Hp).
  - vm_compute. reflexivity.
  - vm_compute. reflexivity.
  - constructor.
  - exists vm', t. split; [exact Hc|]. split; [exact Ho|]. split; [exact Ht|exact Hp].
Defined.

(** X20: where [validateString] does what it is for: on a string that is
    allocated, not on the list of objects, and whose content the table
    does not hold. The string becomes a key of the table, so that a lookup
    of its content finds it, and the head of the list, in front of the
    objects that were on it; every tracked object is still allocated. *)
Theorem validateString_stores (string : address) (o : ObjString) (vm : VM) :
  heap vm !! string = Some o ->
  tableFindString (heap vm) (strings vm) (str_chars o) (str_length o) (str_hash o) = None ->
  ~ tracked vm string ->
  tracked_allocated vm ->
  exists vm',
    validateString string vm = Some vm' /\
    tableFindString (heap vm') (strings vm') (str_chars o) (str_length o) (str_hash o)
      = Some string /\
    (forall a, tracked vm' a <-> a = string \/ tracked vm a) /\
    tracked_allocated vm' /\
    (forall a, a <> string -> heap vm' !! a = heap vm !! a).
Proof.
  intros Ho Hmiss Hnt Hwf.
  destruct (validateString_target string o vm Ho) as (target & t & Ht' & Ht & Hcall).
  rewrite Hmiss in Ht'. subst target. rewrite Ho in Ht. injection Ht as <-.
  set (o' := mkObjString (obj_type o) (objects vm) (str_length o) (str_hash o) (str_chars o))
    in *.
  assert (Hiff : forall a, path (<[string := o']> (heap vm)) (Some string) a
                           <-> a = string \/ tracked vm a).
  { apply tracked_push; [exact Hnt|reflexivity]. }
  eexists. split; [exact Hcall|]. cbn [heap objects strings].
  split; [|split; [exact Hiff|split]].
  - apply tableFindString_after_set.
    + unfold o'. rewrite tableFindString_relink by exact Ho. exact Hmiss.
    + unfold key_matches. cbn [fst]. rewrite lookup_insert_eq. unfold o'.
      cbn [str_length str_hash str_chars]. auto.
  - intros a Ha. unfold tracked in Ha. cbn [heap objects] in Ha.
    apply Hiff in Ha. cbn [heap]. destruct (decide (string = a)) as [->|Hne].
    + rewrite lookup_insert_eq. eauto.
    + rewrite lookup_insert_ne by exact Hne.
      destruct Ha as [->|Ha]; [congruence|]. apply Hwf. exact Ha.
  - intros a Hne. apply lookup_insert_ne. congruence.
Qed.

Lemma validateString_stores_witness :
  exists vm',
    validateString 1%positive vm_a_scratch = Some vm' /\
    tableFindString (heap vm') (strings vm') [Byte.x61; Byte.x00] 1 (fnv1a [Byte.x61])
      = Some 1%positive /\
    tracked vm' 1%positive.
Proof.
  destruct (validateString_stores 1%positive (string_a None) vm_a_scratch)
    as (vm' & Hc & Hf & Ht & _).
  - vm_compute. reflexivity.
  - vm_compute. reflexivity.
  - intros Ha. inversion Ha.
  - intros a Ha. inversion Ha.
  - exists vm'. split; [exact Hc|]. split; [exact Hf|]. apply Ht. left. reflexivity.
Defined.
